(** * Simulation engine of the crypto-node emulator

    Shallow embedding of [advanced_node_features.py]: the node metric
    model, the network simulator, the transaction pool and the mining
    simulator, followed by the properties of the engine. *)

From Stdlib Require Import ZArith QArith Qround Bool List String Ascii Lia.
From Stdlib Require Import Permutation Sorted DecimalString DecimalPos DecimalZ.
From Stdlib Require Import Floats.SpecFloat.
Import ListNotations.

Local Open Scope Z_scope.

(** ** Python exceptions

    Operations that can raise return a sum: the exception on the left,
    the value on the right. *)

Inductive pyerr : Type :=
| ValueError
| ZeroDivisionError
| OverflowError.

Definition exc (A : Type) : Type := pyerr + A.

Definition ret {A : Type} (a : A) : exc A := inr a.
Definition raise {A : Type} (e : pyerr) : exc A := inl e.
Definition bind {A B : Type} (c : exc A) (k : A -> exc B) : exc B :=
  match c with
  | inl e => inl e
  | inr a => k a
  end.

Notation "x <- c ;; k" := (bind c (fun x => k))
  (at level 61, c at next level, right associativity).

(** ** SHA-256 ([hashlib.sha256]), after FIPS 180-4

    Words are 32-bit integers kept in [Z] with the wrap-around written
    out; a message is the byte string that [str.encode()] produces. *)

Module Sha256.

Definition wmask : Z := 0xFFFFFFFF.
Definition wadd (a b : Z) : Z := Z.land (a + b) wmask.
Definition rotr (n x : Z) : Z :=
  Z.lor (Z.shiftr x n) (Z.land (Z.shiftl x (32 - n)) wmask).

Definition Ch (x y z : Z) : Z :=
  Z.lxor (Z.land x y) (Z.land (Z.lxor x wmask) z).
Definition Maj (x y z : Z) : Z :=
  Z.lxor (Z.lxor (Z.land x y) (Z.land x z)) (Z.land y z).
Definition Sigma0 (x : Z) : Z :=
  Z.lxor (Z.lxor (rotr 2 x) (rotr 13 x)) (rotr 22 x).
Definition Sigma1 (x : Z) : Z :=
  Z.lxor (Z.lxor (rotr 6 x) (rotr 11 x)) (rotr 25 x).
Definition sigma0 (x : Z) : Z :=
  Z.lxor (Z.lxor (rotr 7 x) (rotr 18 x)) (Z.shiftr x 3).
Definition sigma1 (x : Z) : Z :=
  Z.lxor (Z.lxor (rotr 17 x) (rotr 19 x)) (Z.shiftr x 10).

(** The round constants are the first 32 bits of the fractional parts of
    the cube roots of the first 64 primes, the initial hash value those of
    the square roots of the first 8. *)

Definition primes : list Z :=
  [2; 3; 5; 7; 11; 13; 17; 19; 23; 29; 31; 37; 41; 43; 47; 53; 59; 61; 67;
   71; 73; 79; 83; 89; 97; 101; 103; 107; 109; 113; 127; 131; 137; 139;
   149; 151; 157; 163; 167; 173; 179; 181; 191; 193; 197; 199; 211; 223;
   227; 229; 233; 239; 241; 251; 257; 263; 269; 271; 277; 281; 283; 293;
   307; 311].

(** [cube_root bits n]: the integer cube root of [n < 2^(3 * bits)], found
    bit by bit from the top. *)
Fixpoint cube_root (bits : nat) (n acc : Z) : Z :=
  match bits with
  | O => acc
  | S k =>
      let c := acc + 2 ^ Z.of_nat k in
      cube_root k n (if c * c * c <=? n then c else acc)
  end.

Definition frac_cube_root (p : Z) : Z :=
  Z.land (cube_root 36 (p * 2 ^ 96) 0) wmask.

Definition frac_square_root (p : Z) : Z :=
  Z.land (Z.sqrt (p * 2 ^ 64)) wmask.

Definition K256 : list Z := Eval vm_compute in map frac_cube_root primes.

Definition H256 : list Z :=
  Eval vm_compute in map frac_square_root (firstn 8 primes).

(** Padding: the byte 0x80, zero bytes up to 56 modulo 64, then the bit
    length as a 64-bit big-endian integer. *)

Fixpoint be_bytes (n : nat) (v : Z) : list Z :=
  match n with
  | O => []
  | S k => Z.land (Z.shiftr v (8 * Z.of_nat k)) 0xFF :: be_bytes k v
  end.

Definition pad (msg : list Z) : list Z :=
  let len := Z.of_nat (List.length msg) in
  let zeros := Z.to_nat ((55 - len) mod 64) in
  msg ++ 0x80 :: List.repeat 0 zeros ++ be_bytes 8 (8 * len).

Fixpoint be_word (bs : list Z) (acc : Z) : Z :=
  match bs with
  | [] => acc
  | b :: r => be_word r (Z.lor (Z.shiftl acc 8) b)
  end.

(** [words n bs]: the first [n] big-endian 32-bit words of [bs]. *)
Fixpoint words (n : nat) (bs : list Z) : list Z :=
  match n with
  | O => []
  | S k => be_word (firstn 4 bs) 0 :: words k (skipn 4 bs)
  end.

(** Message schedule; [recent] holds the last sixteen words, newest
    first, and the result lists W_16 .. W_63 in order. *)
Fixpoint schedule (n : nat) (recent : list Z) : list Z :=
  match n with
  | O => []
  | S k =>
      let w := wadd (wadd (sigma1 (nth 1 recent 0)) (nth 6 recent 0))
                    (wadd (sigma0 (nth 14 recent 0)) (nth 15 recent 0)) in
      w :: schedule k (w :: firstn 15 recent)
  end.

Definition round (st : list Z) (kw : Z * Z) : list Z :=
  match st with
  | [a; b; c; d; e; f; g; h] =>
      let t1 := wadd (wadd (wadd h (Sigma1 e)) (Ch e f g))
                     (wadd (fst kw) (snd kw)) in
      let t2 := wadd (Sigma0 a) (Maj a b c) in
      [wadd t1 t2; a; b; c; wadd d t1; e; f; g]
  | _ => st
  end.

Definition compress (hs : list Z) (block : list Z) : list Z :=
  let w16 := words 16 block in
  let w := w16 ++ schedule 48 (rev w16) in
  let st := fold_left round (combine K256 w) hs in
  map (fun p => wadd (fst p) (snd p)) (combine hs st).

Fixpoint blocks (n : nat) (hs : list Z) (bs : list Z) : list Z :=
  match n with
  | O => hs
  | S k => blocks k (compress hs (firstn 64 bs)) (skipn 64 bs)
  end.

Definition digest_words (msg : list Z) : list Z :=
  let p := pad msg in
  blocks (List.length p / 64)%nat H256 p.

(** [hexdigest]: eight lower-case hexadecimal digits per word. *)

Definition hexchar (v : Z) : ascii :=
  if v <? 10 then ascii_of_nat (Z.to_nat (48 + v))
  else ascii_of_nat (Z.to_nat (87 + v)).

Fixpoint hexword (n : nat) (v : Z) : string :=
  match n with
  | O => EmptyString
  | S k => String (hexchar (Z.land (Z.shiftr v (4 * Z.of_nat k)) 0xF))
                  (hexword k v)
  end.

Fixpoint hexwords (ws : list Z) : string :=
  match ws with
  | [] => EmptyString
  | w :: r => hexword 8 w ++ hexwords r
  end.

Definition bytes_of_string (s : string) : list Z :=
  map (fun c => Z.of_nat (nat_of_ascii c)) (list_ascii_of_string s).

Definition hexdigest (s : string) : string :=
  hexwords (digest_words (bytes_of_string s)).

End Sha256.

(** ** Python numbers

    Finite floats are modelled by the rationals they denote; [min], [max]
    and the comparisons are exact on them.  The rounding of a float sum,
    quotient or product is not modelled, so a value that [round] returns
    here is that of the exact operand and can differ from the float's in
    the last digit: the properties below state orders and bounds, which
    rounding to nearest keeps, and never the value of a sum or of a
    rounded quotient.  The one place where rounding decides the result,
    [int(difficulty * 1.5)], is modelled in binary64 (see [Float64]). *)

Definition Qltb (a b : Q) : bool :=
  match Qcompare a b with
  | Lt => true
  | _ => false
  end.

(** [min(a, b)] and [max(a, b)] return [a] unless [b] is strictly
    smaller (resp. larger). *)
Definition py_min (a b : Q) : Q := if Qltb b a then b else a.
Definition py_max (a b : Q) : Q := if Qltb a b then b else a.

Definition Zmax0 (a b : Z) : Z := if a <? b then b else a.

(** [round(x, ndigits)]: nearest multiple of [10^-ndigits], ties to the
    even one. *)
Definition round_half_even (x : Q) : Z :=
  let f := Qfloor x in
  match Qcompare (x - inject_Z f) (1 # 2) with
  | Lt => f
  | Gt => f + 1
  | Eq => if Z.even f then f else f + 1
  end.

Definition py_round (x : Q) (ndigits : Z) : Q :=
  (inject_Z (round_half_even (x * inject_Z (10 ^ ndigits)))
   / inject_Z (10 ^ ndigits))%Q.

Definition Qsum (l : list Q) : Q := fold_left Qplus l 0%Q.
Definition Zsum (l : list Z) : Z := fold_left Z.add l 0.

(** [n] copies of [s]. *)
Fixpoint str_repeat (s : string) (n : nat) : string :=
  match n with
  | O => EmptyString
  | S k => (s ++ str_repeat s k)%string
  end.

(** [sys.maxsize], the largest index of a 64-bit interpreter. *)
Definition sys_maxsize : Z := 2 ^ 63 - 1.

(** [s * k] on strings.  The count is converted to an index first:
    [OverflowError] when it does not fit.  A count that is not positive
    gives the empty string, and a result longer than [sys.maxsize] is
    [OverflowError] again.  Within these bounds the string is built: the
    [MemoryError] of an interpreter that cannot allocate it depends on
    the machine and is not modelled. *)
Definition str_mul (s : string) (k : Z) : exc string :=
  if (k <? - sys_maxsize - 1) || (sys_maxsize <? k) then raise OverflowError
  else if k <=? 0 then ret EmptyString
  else if sys_maxsize <? Z.of_nat (String.length s) * k
  then raise OverflowError
  else ret (str_repeat s (Z.to_nat k)).

(** [f"{n}"] for an integer. *)
Definition str_of_int (n : Z) : string := NilZero.string_of_int (Z.to_int n).

(** [l[:count]]: a negative [count] is counted from the end. *)
Definition slice_to {A : Type} (l : list A) (count : Z) : list A :=
  if count <? 0 then firstn (Z.to_nat (Z.of_nat (List.length l) + count)) l
  else firstn (Z.to_nat count) l.

(** ** Binary64 arithmetic of [int * float] and [int(float)] *)

Module Float64.

Definition prec : Z := 53.
Definition emax : Z := 1024.

(** Conversion of an integer operand: correctly rounded, and
    [OverflowError] when the integer is too large for a float. *)
Definition of_int (n : Z) : exc spec_float :=
  match binary_normalize prec emax n 0 false with
  | S754_infinity _ => raise OverflowError
  | f => ret f
  end.

Definition mul : spec_float -> spec_float -> spec_float := SFmul prec emax.

(** [int(f)] truncates toward zero. *)
Definition to_int (f : spec_float) : exc Z :=
  match f with
  | S754_zero _ => ret 0
  | S754_infinity _ => raise OverflowError
  | S754_nan => raise ValueError
  | S754_finite s m e =>
      ret (cond_Zopp s (if 0 <=? e then Zpos m * 2 ^ e
                        else Zpos m / 2 ^ (- e)))
  end.

(** The literals [1.5] and [0.75]. *)
Definition lit_1_5 : spec_float := S754_finite false 6755399441055744 (-52).
Definition lit_0_75 : spec_float := S754_finite false 6755399441055744 (-53).

(** [int(n * c)] for an integer [n] and a float [c]. *)
Definition int_mul_float (n : Z) (c : spec_float) : exc Z :=
  f <- of_int n ;;
  to_int (mul f c).

End Float64.

(** ** Nodes *)

Inductive NodeType : Type := FULL | LIGHT | MINING | VALIDATOR.
Inductive NetworkProtocol : Type := BITCOIN | ETHEREUM | CUSTOM.

Record NetworkMetrics : Type := {
  latency : Q;
  bandwidth : Q;
  packet_loss : Q;
  uptime : Q
}.

Record NodeMetrics : Type := {
  cpu_usage : Q;
  memory_usage : Q;
  disk_usage : Q;
  network_io : Q
}.

Record AdvancedBlockchainNode : Type := {
  node_id : string;
  node_type : NodeType;
  x : Z;
  y : Z;
  protocol : NetworkProtocol;
  status : string;
  last_seen : Q;
  block_height : Z;
  blockchain_size : Q;
  peers : list nat;
  pending_transactions : list nat;
  mempool_size : Z;
  network_metrics : NetworkMetrics;
  node_metrics : NodeMetrics;
  sync_status : string;
  last_block_time : Q;
  connection_count : Z;
  version : string
}.

(** The values the constructor draws from [random], in program order. *)
Record init_draws : Type := {
  i_block_height : Z;
  i_size : Q;
  i_latency : Q;
  i_bandwidth : Q;
  i_packet_loss : Q;
  i_uptime : Q;
  i_cpu : Q;
  i_memory : Q;
  i_disk : Q;
  i_network_io : Q;
  i_minutes : Z;
  i_connections : Z;
  i_version : nat
}.

Definition versions (p : NetworkProtocol) : list string :=
  match p with
  | BITCOIN => ["24.0.1"; "23.0.0"; "22.0.0"]
  | ETHEREUM => ["1.12.0"; "1.11.0"; "1.10.0"]
  | CUSTOM => ["1.0.0"; "0.9.0"; "0.8.0"]
  end%string.

(** [random.choice(seq)] with the drawn index [k]. *)
Definition choice {A : Type} (d : A) (l : list A) (k : nat) : A :=
  nth (k mod List.length l) l d.

Definition AdvancedBlockchainNode_init (id : string) (ty : NodeType)
    (px py : Z) (proto : NetworkProtocol) (now : Q) (r : init_draws)
  : AdvancedBlockchainNode :=
  {| node_id := id;
     node_type := ty;
     x := px;
     y := py;
     protocol := proto;
     status := "online";
     last_seen := now;
     block_height := i_block_height r;
     blockchain_size := (400 + i_size r)%Q;
     peers := [];
     pending_transactions := [];
     mempool_size := 0;
     network_metrics :=
       {| latency := i_latency r; bandwidth := i_bandwidth r;
          packet_loss := i_packet_loss r; uptime := i_uptime r |};
     node_metrics :=
       {| cpu_usage := i_cpu r; memory_usage := i_memory r;
          disk_usage := i_disk r; network_io := i_network_io r |};
     sync_status := "synced";
     last_block_time := (now - inject_Z (i_minutes r) * 60)%Q;
     connection_count := i_connections r;
     version := choice EmptyString (versions proto) (i_version r) |}.

(** The draws of one [update_metrics] call, and the clock. *)
Record metric_draws : Type := {
  d_latency : Q;
  d_bandwidth : Q;
  d_cpu : Q;
  d_memory : Q;
  d_block : Q;
  d_now : Q
}.

Definition set_network_metrics (n : AdvancedBlockchainNode)
    (m : NetworkMetrics) : AdvancedBlockchainNode :=
  {| node_id := node_id n; node_type := node_type n; x := x n; y := y n;
     protocol := protocol n; status := status n; last_seen := last_seen n;
     block_height := block_height n; blockchain_size := blockchain_size n;
     peers := peers n; pending_transactions := pending_transactions n;
     mempool_size := mempool_size n; network_metrics := m;
     node_metrics := node_metrics n; sync_status := sync_status n;
     last_block_time := last_block_time n;
     connection_count := connection_count n; version := version n |}.

Definition set_node_metrics (n : AdvancedBlockchainNode)
    (m : NodeMetrics) : AdvancedBlockchainNode :=
  {| node_id := node_id n; node_type := node_type n; x := x n; y := y n;
     protocol := protocol n; status := status n; last_seen := last_seen n;
     block_height := block_height n; blockchain_size := blockchain_size n;
     peers := peers n; pending_transactions := pending_transactions n;
     mempool_size := mempool_size n; network_metrics := network_metrics n;
     node_metrics := m; sync_status := sync_status n;
     last_block_time := last_block_time n;
     connection_count := connection_count n; version := version n |}.

Definition set_block (n : AdvancedBlockchainNode) (t : Q) (h : Z)
  : AdvancedBlockchainNode :=
  {| node_id := node_id n; node_type := node_type n; x := x n; y := y n;
     protocol := protocol n; status := status n; last_seen := last_seen n;
     block_height := h; blockchain_size := blockchain_size n;
     peers := peers n; pending_transactions := pending_transactions n;
     mempool_size := mempool_size n; network_metrics := network_metrics n;
     node_metrics := node_metrics n; sync_status := sync_status n;
     last_block_time := t;
     connection_count := connection_count n; version := version n |}.

Definition set_status (n : AdvancedBlockchainNode) (s : string)
  : AdvancedBlockchainNode :=
  {| node_id := node_id n; node_type := node_type n; x := x n; y := y n;
     protocol := protocol n; status := s; last_seen := last_seen n;
     block_height := block_height n; blockchain_size := blockchain_size n;
     peers := peers n; pending_transactions := pending_transactions n;
     mempool_size := mempool_size n; network_metrics := network_metrics n;
     node_metrics := node_metrics n; sync_status := sync_status n;
     last_block_time := last_block_time n;
     connection_count := connection_count n; version := version n |}.

Definition set_connection_count (n : AdvancedBlockchainNode) (c : Z)
  : AdvancedBlockchainNode :=
  {| node_id := node_id n; node_type := node_type n; x := x n; y := y n;
     protocol := protocol n; status := status n; last_seen := last_seen n;
     block_height := block_height n; blockchain_size := blockchain_size n;
     peers := peers n; pending_transactions := pending_transactions n;
     mempool_size := mempool_size n; network_metrics := network_metrics n;
     node_metrics := node_metrics n; sync_status := sync_status n;
     last_block_time := last_block_time n;
     connection_count := c; version := version n |}.

Definition update_metrics (n : AdvancedBlockchainNode) (r : metric_draws)
  : AdvancedBlockchainNode :=
  let nm := network_metrics n in
  let lat := py_max 1 (py_min 500 (latency nm + d_latency r)) in
  let bw := py_max 0.1 (py_min 200 (bandwidth nm + d_bandwidth r)) in
  let n1 := set_network_metrics n
              {| latency := lat; bandwidth := bw;
                 packet_loss := packet_loss nm; uptime := uptime nm |} in
  let om := node_metrics n1 in
  let cpu := py_max 0 (py_min 100 (cpu_usage om + d_cpu r)) in
  let mem := py_max 50 (py_min 4000 (memory_usage om + d_memory r)) in
  let n2 := set_node_metrics n1
              {| cpu_usage := cpu; memory_usage := mem;
                 disk_usage := disk_usage om;
                 network_io := network_io om |} in
  if Qltb (d_block r) 0.1
  then set_block n2 (d_now r) (block_height n2 + 1)
  else n2.

(** ** The object store

    Nodes and transactions are objects: lists hold references to them,
    and the same object may be listed more than once.  A reference is the
    object's identity; the store maps it to the object's state. *)

Definition ref : Type := nat.

Definition store (A : Type) : Type := ref -> A.

Definition store_set {A : Type} (h : store A) (r : ref) (a : A) : store A :=
  fun r' => if Nat.eqb r' r then a else h r'.

(** ** Network simulator *)

Record NetworkSimulator : Type := {
  nodes : list ref;
  connections : list (ref * ref);
  network_load : Q;
  total_bandwidth : Q
}.

Definition NetworkSimulator_init : NetworkSimulator :=
  {| nodes := []; connections := []; network_load := 0; total_bandwidth := 1000 |}.

Definition add_node (s : NetworkSimulator) (r : ref) : NetworkSimulator :=
  {| nodes := nodes s ++ [r]; connections := connections s;
     network_load := network_load s; total_bandwidth := total_bandwidth s |}.

(** One drawn network event with the random values its handler consumes:
    the index taken by [random.choice], the value of [random.random()],
    and for a congestion the pair of [random.uniform] values of each
    iteration.  Two of the five event names have no handler. *)
Inductive net_event : Type :=
| node_connection (k : nat)
| node_disconnection (k : nat) (p : Q)
| network_congestion (d : nat -> Q * Q)
| packet_loss_event
| bandwidth_fluctuation.

Definition _simulate_node_connection (h : store AdvancedBlockchainNode)
    (s : NetworkSimulator) (k : nat) : store AdvancedBlockchainNode :=
  if (2 <=? List.length (nodes s))%nat then
    let r := choice O (nodes s) k in
    let n := h r in
    let n1 := set_connection_count n (connection_count n + 1) in
    let nm := network_metrics n1 in
    store_set h r
      (set_network_metrics n1
         {| latency := latency nm; bandwidth := bandwidth nm;
            packet_loss := packet_loss nm;
            uptime := py_min 99.9 (uptime nm + 0.1) |})
  else h.

Definition _simulate_node_disconnection (h : store AdvancedBlockchainNode)
    (s : NetworkSimulator) (k : nat) (p : Q) : store AdvancedBlockchainNode :=
  if (1 <=? List.length (nodes s))%nat then
    let r := choice O (nodes s) k in
    if Qltb p 0.1 then
      let n1 := set_status (h r) "offline" in
      store_set h r
        (set_connection_count n1 (Zmax0 0 (connection_count n1 - 1)))
    else h
  else h.

(** The loop [for node in self.nodes] of a congestion; [i] counts the
    iterations. *)
Fixpoint congest (h : store AdvancedBlockchainNode) (rs : list ref)
    (d : nat -> Q * Q) (i : nat) : store AdvancedBlockchainNode :=
  match rs with
  | [] => h
  | r :: rest =>
      let n := h r in
      let nm := network_metrics n in
      let n1 := set_network_metrics n
                  {| latency := latency nm + fst (d i);
                     bandwidth := bandwidth nm;
                     packet_loss := packet_loss nm + snd (d i);
                     uptime := uptime nm |} in
      congest (store_set h r n1) rest d (S i)
  end.

Definition _simulate_network_congestion (h : store AdvancedBlockchainNode)
    (s : NetworkSimulator) (d : nat -> Q * Q) : store AdvancedBlockchainNode :=
  congest h (nodes s) d O.

Definition apply_event (s : NetworkSimulator)
    (h : store AdvancedBlockchainNode) (e : net_event)
  : store AdvancedBlockchainNode :=
  match e with
  | node_connection k => _simulate_node_connection h s k
  | node_disconnection k p => _simulate_node_disconnection h s k p
  | network_congestion d => _simulate_network_congestion h s d
  | packet_loss_event => h
  | bandwidth_fluctuation => h
  end.

(** [events] are the [random.randint(1, 3)] events drawn in one call. *)
Definition _simulate_network_events (h : store AdvancedBlockchainNode)
    (s : NetworkSimulator) (events : list net_event)
  : store AdvancedBlockchainNode :=
  fold_left (apply_event s) events h.

(** The loop [for node in self.nodes: node.update_metrics()]. *)
Fixpoint update_all (h : store AdvancedBlockchainNode) (rs : list ref)
    (d : nat -> metric_draws) (i : nat) : store AdvancedBlockchainNode :=
  match rs with
  | [] => h
  | r :: rest => update_all (store_set h r (update_metrics (h r) (d i))) rest d (S i)
  end.

Record tick_draws : Type := {
  t_metrics : nat -> metric_draws;
  t_events : list net_event
}.

Definition simulate_network_activity (h : store AdvancedBlockchainNode)
    (s : NetworkSimulator) (r : tick_draws)
  : store AdvancedBlockchainNode * NetworkSimulator :=
  let h1 := update_all h (nodes s) (t_metrics r) O in
  let load := Qsum (map (fun n => network_io (node_metrics (h1 n))) (nodes s)) in
  let s1 := {| nodes := nodes s; connections := connections s;
               network_load := py_min (total_bandwidth s) load;
               total_bandwidth := total_bandwidth s |} in
  (_simulate_network_events h1 s1 (t_events r), s1).

Definition is_online (h : store AdvancedBlockchainNode) (r : ref) : bool :=
  String.eqb (status (h r)) "online".

(** [a / b] on numbers: [ZeroDivisionError] when [b] is zero. *)
Definition py_div (a b : Q) : exc Q :=
  if Qeq_bool b 0 then raise ZeroDivisionError else ret (a / b)%Q.

(** The four labels, in the source "Отличное", "Хорошее",
    "Удовлетворительное" and "Плохое". *)
Inductive health : Type := Excellent | Good | Satisfactory | Bad.

Definition _calculate_network_health (h : store AdvancedBlockchainNode)
    (s : NetworkSimulator) : exc health :=
  online_ratio <-
    py_div (inject_Z (Z.of_nat (List.length (filter (is_online h) (nodes s)))))
           (inject_Z (Z.of_nat (List.length (nodes s)))) ;;
  ret (if Qle_bool 0.9 online_ratio then Excellent
       else if Qle_bool 0.7 online_ratio then Good
       else if Qle_bool 0.5 online_ratio then Satisfactory
       else Bad).

Record network_statistics : Type := {
  total_nodes : Z;
  online_nodes : Z;
  network_load_percent : Q;
  average_latency : Q;
  average_bandwidth : Q;
  total_connections : Z;
  network_health : health
}.

(** [round(sum(f(n) for n in online) / len(online), 1) if online else 0] *)
Definition average_over (h : store AdvancedBlockchainNode)
    (online : list ref) (f : AdvancedBlockchainNode -> Q) : exc Q :=
  match online with
  | [] => ret 0%Q
  | _ :: _ =>
      a <- py_div (Qsum (map (fun n => f (h n)) online))
                  (inject_Z (Z.of_nat (List.length online))) ;;
      ret (py_round a 1)
  end.

Definition get_network_statistics (h : store AdvancedBlockchainNode)
    (s : NetworkSimulator) : exc network_statistics :=
  let online := filter (is_online h) (nodes s) in
  load <- py_div (network_load s) (total_bandwidth s) ;;
  lat <- average_over h online (fun n => latency (network_metrics n)) ;;
  bw <- average_over h online (fun n => bandwidth (network_metrics n)) ;;
  hl <- _calculate_network_health h s ;;
  ret {| total_nodes := Z.of_nat (List.length (nodes s));
         online_nodes := Z.of_nat (List.length online);
         network_load_percent := py_round (load * 100) 1;
         average_latency := lat;
         average_bandwidth := bw;
         total_connections := Zsum (map (fun n => connection_count (h n)) online);
         network_health := hl |}.

(** ** Transaction pool *)

Record Transaction : Type := {
  tx_id : string;
  from_addr : string;
  to_addr : string;
  amount : Q;
  fee : Q;
  timestamp : Q;
  tx_status : string
}.

Record TransactionPool : Type := {
  transactions : list ref;
  max_pool_size : Z
}.

Definition TransactionPool_init : TransactionPool :=
  {| transactions := []; max_pool_size := 10000 |}.

Definition add_transaction (p : TransactionPool) (tx : ref)
  : bool * TransactionPool :=
  if Z.of_nat (List.length (transactions p)) <? max_pool_size p
  then (true, {| transactions := transactions p ++ [tx];
                 max_pool_size := max_pool_size p |})
  else (false, p).

(** [sorted(l, key=lambda x: x.fee, reverse=True)]: the sort is stable,
    also with [reverse=True], so objects of equal fee keep the order they
    have in [l].  The stable result is unique (see [sorted_desc_unique]);
    it is computed here by insertion from the right. *)
Section Sorted.
Variable txs : store Transaction.

Definition fee_of (r : ref) : Q := fee (txs r).

Fixpoint insert_desc (r : ref) (l : list ref) : list ref :=
  match l with
  | [] => [r]
  | a :: rest =>
      if Qle_bool (fee_of a) (fee_of r) then r :: l
      else a :: insert_desc r rest
  end.

Fixpoint sorted_desc (l : list ref) : list ref :=
  match l with
  | [] => []
  | r :: rest => insert_desc r (sorted_desc rest)
  end.
End Sorted.

(** [l.remove(v)]: drops the first occurrence of the object, and raises
    [ValueError] when there is none. *)
Fixpoint list_remove (l : list ref) (v : ref) : exc (list ref) :=
  match l with
  | [] => raise ValueError
  | a :: rest =>
      if Nat.eqb a v then ret rest
      else (rest' <- list_remove rest v ;; ret (a :: rest'))
  end.

Fixpoint remove_all (l : list ref) (selected : list ref) : exc (list ref) :=
  match selected with
  | [] => ret l
  | tx :: rest => (l' <- list_remove l tx ;; remove_all l' rest)
  end.

Definition get_transactions_for_block (txs : store Transaction)
    (p : TransactionPool) (count : Z) : exc (list ref * TransactionPool) :=
  let sorted_txs := sorted_desc txs (transactions p) in
  let selected_txs := slice_to sorted_txs count in
  remaining <- remove_all (transactions p) selected_txs ;;
  ret (selected_txs,
       {| transactions := remaining; max_pool_size := max_pool_size p |}).

Record pool_stats : Type := {
  transaction_count : Z;
  total_fees : Q;
  average_fee : Q;
  pool_utilization : Q
}.

Definition get_pool_stats (txs : store Transaction) (p : TransactionPool)
  : exc pool_stats :=
  let total := Qsum (map (fee_of txs) (transactions p)) in
  let len := inject_Z (Z.of_nat (List.length (transactions p))) in
  avg <- match transactions p with
         | [] => ret 0%Q
         | _ :: _ => py_div total len
         end ;;
  util <- py_div len (inject_Z (max_pool_size p)) ;;
  ret {| transaction_count := Z.of_nat (List.length (transactions p));
         total_fees := py_round total 6;
         average_fee := py_round avg 6;
         pool_utilization := py_round (util * 100) 1 |}.

(** ** Mining simulator *)

Record MiningSimulator : Type := {
  difficulty : Z;
  current_nonce : Z;
  target_hash : string;
  mining_power : Q
}.

(** [power] is the value drawn for [mining_power]; ["0" * 4] is within
    the bounds of [str_mul]. *)
Definition MiningSimulator_init (d : Z) (power : Q) : MiningSimulator :=
  {| difficulty := d; current_nonce := 0;
     target_hash := str_repeat "0" 4; mining_power := power |}.

Record MiningResult : Type := {
  hash : string;
  nonce : Z;
  mining_time : Q;
  hashrate : Q
}.

(** The search loop, for any digest function [hexdigest]; each turn of
    the [while] loop takes one unit of [fuel].  The loop leaves at most
    [1000000 - current_nonce] turns to run, which [mine_block] provides. *)
Section Mine.
Variable hexdigest : string -> string.

Fixpoint mine_loop (fuel : nat) (block_data target : string) (n : Z)
  : option (string * Z) * Z :=
  match fuel with
  | O => (None, n)
  | S k =>
      if n <? 1000000 then
        let block_hash := hexdigest (block_data ++ str_of_int n) in
        if String.prefix target block_hash then (Some (block_hash, n), n)
        else mine_loop k block_data target (n + 1)
      else (None, n)
  end.

(** [start_time] and [end_time] are the two readings of the clock. *)
Definition mine_block_with (m : MiningSimulator) (block_data : string)
    (start_time end_time : Q) : option MiningResult * MiningSimulator :=
  let '(found, n) :=
    mine_loop (Z.to_nat (1000000 - current_nonce m)) block_data
              (target_hash m) (current_nonce m) in
  (match found with
   | Some (h, k) =>
       Some {| hash := h; nonce := k;
               mining_time := end_time - start_time;
               hashrate := mining_power m |}
   | None => None
   end,
   {| difficulty := difficulty m; current_nonce := n;
      target_hash := target_hash m; mining_power := mining_power m |}).
End Mine.

Definition mine_block : MiningSimulator -> string -> Q -> Q ->
    option MiningResult * MiningSimulator :=
  mine_block_with Sha256.hexdigest.

Definition target_time : Z := 600.

(** A method that raises leaves its object in the state reached at the
    raise: the outcome of a call is that state with the exception, or
    the state the call returns with. *)
Definition state_after {S : Type} (out : pyerr * S + S) : S :=
  match out with
  | inl (_, s) => s
  | inr s => s
  end.

(** The value of [self.difficulty] after the [if]/[elif]. *)
Definition next_difficulty (m : MiningSimulator) (block_time : Q) : exc Z :=
  if Qltb block_time (inject_Z target_time * 0.5)
  then Float64.int_mul_float (difficulty m) Float64.lit_1_5
  else if Qltb (inject_Z target_time * 2) block_time
  then Float64.int_mul_float (difficulty m) Float64.lit_0_75
  else ret (difficulty m).

(** The product is evaluated before anything is assigned: when it raises,
    the engine is as it was.  The prefix is built after [self.difficulty]
    was assigned: when the repetition raises, the engine keeps the new
    difficulty with the old prefix. *)
Definition adjust_difficulty (m : MiningSimulator) (block_time : Q)
  : pyerr * MiningSimulator + MiningSimulator :=
  match next_difficulty m block_time with
  | inl e => inl (e, m)
  | inr d =>
      match str_mul "0" (d / 1000000 + 1) with
      | inl e =>
          inl (e, {| difficulty := d; current_nonce := current_nonce m;
                     target_hash := target_hash m;
                     mining_power := mining_power m |})
      | inr zeros =>
          inr {| difficulty := d; current_nonce := current_nonce m;
                 target_hash := zeros;
                 mining_power := mining_power m |}
      end
  end.

(** ** Sessions

    The state of a session of the network engine: the node objects
    created so far ([w_next] is the next free identity) and the
    simulator.  An operation is a constructor call, a registration, one
    [update_metrics] call, one tick or one injected event. *)

Record world : Type := {
  w_store : store AdvancedBlockchainNode;
  w_next : ref;
  w_sim : NetworkSimulator
}.

Inductive engine_op : Type :=
| op_new_node (id : string) (ty : NodeType) (px py : Z)
              (proto : NetworkProtocol) (now : Q) (r : init_draws)
| op_add_node (n : ref)
| op_update_metrics (n : ref) (r : metric_draws)
| op_tick (r : tick_draws)
| op_event (e : net_event).

Definition engine_step (w : world) (o : engine_op) : world :=
  match o with
  | op_new_node id ty px py proto now r =>
      {| w_store := store_set (w_store w) (w_next w)
                      (AdvancedBlockchainNode_init id ty px py proto now r);
         w_next := S (w_next w);
         w_sim := w_sim w |}
  | op_add_node n =>
      {| w_store := w_store w; w_next := w_next w;
         w_sim := add_node (w_sim w) n |}
  | op_update_metrics n r =>
      {| w_store := store_set (w_store w) n (update_metrics (w_store w n) r);
         w_next := w_next w; w_sim := w_sim w |}
  | op_tick r =>
      let '(h, s) := simulate_network_activity (w_store w) (w_sim w) r in
      {| w_store := h; w_next := w_next w; w_sim := s |}
  | op_event e =>
      {| w_store := apply_event (w_sim w) (w_store w) e;
         w_next := w_next w; w_sim := w_sim w |}
  end.

Definition engine_run (w : world) (ops : list engine_op) : world :=
  fold_left engine_step ops w.

Definition zero_draws : init_draws :=
  Build_init_draws 0 0 0 0 0 0 0 0 0 0 0 0 0.

Definition world_init : world :=
  {| w_store := fun _ =>
       AdvancedBlockchainNode_init "" FULL 0 0 BITCOIN 0 zero_draws;
     w_next := O;
     w_sim := NetworkSimulator_init |}.

(** A registry of two nodes that a disconnection each has taken offline,
    the second one with a latency far out of the usual range. *)
Definition dark_world : world :=
  engine_run world_init
    [op_new_node "N0" FULL 100 100 BITCOIN 0 zero_draws;
     op_new_node "N1" LIGHT 200 100 BITCOIN 0
       (Build_init_draws 0 0 9000 0 0 0 0 0 0 0 0 0 0);
     op_add_node 0%nat; op_add_node 1%nat;
     op_event (node_disconnection 0 0.05);
     op_event (node_disconnection 1 0.05)].

(** A tick with a connection and a congestion, then three direct calls. *)
Definition still_draws : metric_draws := Build_metric_draws 0 0 0 0 0 0.

Definition busy_ops : list engine_op :=
  [op_tick {| t_metrics := fun _ => still_draws;
              t_events := [node_connection 0;
                           network_congestion (fun _ => (10, 0.1)%Q)] |};
   op_update_metrics 0%nat still_draws;
   op_event (node_connection 1);
   op_new_node "N2" MINING 300 100 ETHEREUM 0 zero_draws].

(** ** Statements about the engine *)

(** *** Metric model *)

Definition metrics_in_range (n : AdvancedBlockchainNode) : Prop :=
  (1 <= latency (network_metrics n) <= 500)%Q /\
  (0.1 <= bandwidth (network_metrics n) <= 200)%Q /\
  (0 <= cpu_usage (node_metrics n) <= 100)%Q /\
  (50 <= memory_usage (node_metrics n) <= 4000)%Q.

(** *** Statistics *)

Definition online_refs (h : store AdvancedBlockchainNode)
    (s : NetworkSimulator) : list ref :=
  filter (is_online h) (nodes s).

(** The mean of [f] over the listed objects, rounded to one decimal. *)
Definition rounded_mean (h : store AdvancedBlockchainNode) (l : list ref)
    (f : AdvancedBlockchainNode -> Q) : Q :=
  py_round (Qsum (map (fun n => f (h n)) l)
            / inject_Z (Z.of_nat (List.length l))) 1.

(** *** Node status *)

Definition offline (h : store AdvancedBlockchainNode) (n : ref) : Prop :=
  status (h n) = "offline"%string.

(** From [h] to [h'] a status is left as it is or set to offline. *)
Definition only_disconnects (h h' : store AdvancedBlockchainNode) : Prop :=
  forall n, status (h' n) = status (h n) \/ offline h' n.

(** *** Transaction pool *)

Definition pool_size (p : TransactionPool) : Z :=
  Z.of_nat (List.length (transactions p)).

(** Fee order of a block: [a] may stand before [b]. *)
Definition fee_ge (txs : store Transaction) (a b : ref) : Prop :=
  (fee_of txs b <= fee_of txs a)%Q.

Definition same_fee (txs : store Transaction) (q : Q) (r : ref) : bool :=
  Qeq_bool (fee_of txs r) q.

(** [s] is the stable sort of [l] by decreasing fee: fees never increase
    along [s], and the objects of any one fee are those of [l], in the
    order of [l]. *)
Definition stable_desc_sort (txs : store Transaction) (l s : list ref) : Prop :=
  StronglySorted (fee_ge txs) s /\
  forall q, filter (same_fee txs q) s = filter (same_fee txs q) l.

(** What [selectForBlock(n)] is specified to do on the pool [p]: it
    returns the first [min(n, size)] objects of the stable sort, and the
    pool loses one occurrence of each of them. *)
Definition selects_top (txs : store Transaction) (p : TransactionPool)
    (n : Z) : Prop :=
  exists selected p',
    get_transactions_for_block txs p n = inr (selected, p') /\
    (exists s, stable_desc_sort txs (transactions p) s /\
               selected = firstn (List.length selected) s) /\
    StronglySorted (fee_ge txs) selected /\
    Z.of_nat (List.length selected) = Z.min n (pool_size p) /\
    Permutation (transactions p) (selected ++ transactions p') /\
    (NoDup (transactions p) ->
       forall r, In r selected -> ~ In r (transactions p')) /\
    pool_size p' = pool_size p - Z.min n (pool_size p).

(** Pools a program can hold: the constructor's, and what the two
    operations make of it. *)
Inductive pool_reachable (txs : store Transaction) : TransactionPool -> Prop :=
| reach_pool_init : pool_reachable txs TransactionPool_init
| reach_pool_add p tx :
    pool_reachable txs p -> pool_reachable txs (snd (add_transaction p tx))
| reach_pool_select p n sel p' :
    pool_reachable txs p ->
    get_transactions_for_block txs p n = inr (sel, p') ->
    pool_reachable txs p'.

(** The pool of the scenario: fees 0.01, 0.05 and 0.001. *)
Definition scenario_txs : store Transaction := fun r =>
  {| tx_id := str_of_int (Z.of_nat r); from_addr := "a"; to_addr := "b";
     amount := 1;
     fee := nth r [0.01; 0.05; 0.001]%Q 0%Q;
     timestamp := 0; tx_status := "pending" |}.

Definition scenario_pool : TransactionPool :=
  {| transactions := [0; 1; 2]%nat; max_pool_size := 10000 |}.

Definition full_pool : TransactionPool :=
  {| transactions := seq 0 (Z.to_nat 10000); max_pool_size := 10000 |}.

(** *** Mining *)

Section MineSpec.
Variable hexdigest : string -> string.

(** The digest of [block_data] with nonce [k] starts with [target]. *)
Definition solves (block_data target : string) (k : Z) : bool :=
  String.prefix target (hexdigest (block_data ++ str_of_int k)).

(** [k] is the first solving nonce of [lo .. hi]. *)
Definition first_solution (block_data target : string) (lo hi k : Z) : Prop :=
  lo <= k <= hi /\ solves block_data target k = true /\
  forall j, lo <= j < k -> solves block_data target j = false.

Definition no_solution (block_data target : string) (lo hi : Z) : Prop :=
  forall j, lo <= j <= hi -> solves block_data target j = false.

(** The outcome [out] of mining on [m] is that of a linear search of the
    nonces [lo .. hi]. *)
Definition searched (m : MiningSimulator) (block_data : string)
    (out : option MiningResult) (lo hi : Z) : Prop :=
  match out with
  | Some r =>
      first_solution block_data (target_hash m) lo hi (nonce r) /\
      hash r = hexdigest (block_data ++ str_of_int (nonce r))
  | None => no_solution block_data (target_hash m) lo hi
  end.
End MineSpec.

(** Engines a program can hold. *)
Inductive miner_reachable : MiningSimulator -> Prop :=
| reach_miner_init d power : miner_reachable (MiningSimulator_init d power)
| reach_miner_mine m block_data t0 t1 :
    miner_reachable m ->
    miner_reachable (snd (mine_block m block_data t0 t1))
| reach_miner_adjust m t m' :
    miner_reachable m -> adjust_difficulty m t = inr m' ->
    miner_reachable m'
| reach_miner_raised m t e m' :
    miner_reachable m -> adjust_difficulty m t = inl (e, m') ->
    miner_reachable m'.

(** What [adjustDifficulty(t)] is specified to do to the difficulty. *)
Definition scaled_as_specified (m : MiningSimulator) (t : Q) : Prop :=
  exists m', adjust_difficulty m t = inr m' /\
    ((t < 300)%Q -> difficulty m' = Z.quot (3 * difficulty m) 2) /\
    ((1200 < t)%Q -> difficulty m' = Z.quot (3 * difficulty m) 4) /\
    ((300 <= t <= 1200)%Q -> difficulty m' = difficulty m).

Definition increases_when_fast (m : MiningSimulator) : Prop :=
  exists m', adjust_difficulty m 100 = inr m' /\ difficulty m < difficulty m'.

Definition decreases_when_slow (m : MiningSimulator) : Prop :=
  exists m', adjust_difficulty m 1300 = inr m' /\ difficulty m' < difficulty m.

Definition unchanged_on_target (m : MiningSimulator) : Prop :=
  exists m', adjust_difficulty m 600 = inr m' /\ difficulty m' = difficulty m.

Definition adjusts_as_specified (m : MiningSimulator) : Prop :=
  (forall t, scaled_as_specified m t) /\
  increases_when_fast m /\ decreases_when_slow m /\ unchanged_on_target m.

(** The difficulty the engine holds after the call is positive. *)
Definition stays_positive (m : MiningSimulator) (t : Q) : Prop :=
  0 < difficulty (state_after (adjust_difficulty m t)).

(** Mining ["payload"] succeeds at nonce 0 on an empty target prefix. *)
Definition solved_at_once (m : MiningSimulator) : Prop :=
  String.length (target_hash m) = O /\
  forall t0 t1, exists r,
    fst (mine_block m "payload" t0 t1) = Some r /\ nonce r = 0.

(** An engine after [MiningSimulator(1000)] and [adjust_difficulty(600)]. *)
Definition adjusted_miner : MiningSimulator :=
  {| difficulty := 1000; current_nonce := 0; target_hash := "0";
     mining_power := 50 |}.

(** *** Binary64 *)

Definition dig (p : positive) : Z := Zpos (digits2_pos p).

Definition exact_record (m : Z) : shr_record :=
  {| shr_m := m; shr_r := false; shr_s := false |}.

Definition fexp64 (e : Z) : Z := fexp Float64.prec Float64.emax e.

(** [norm p]: the 53-bit significand of an integer of at most 53 bits. *)
Definition norm (p : positive) : positive :=
  Z.to_pos (Zpos p * 2 ^ (53 - dig p)).

(** ** Further statements *)

(** The three metrics that only [update_metrics] writes. *)
Definition resources_in_range (n : AdvancedBlockchainNode) : Prop :=
  (0.1 <= bandwidth (network_metrics n) <= 200)%Q /\
  (0 <= cpu_usage (node_metrics n) <= 100)%Q /\
  (50 <= memory_usage (node_metrics n) <= 4000)%Q.

Definition is_congestion (e : net_event) : bool :=
  match e with
  | network_congestion _ => true
  | _ => false
  end.

(** The label for [k] online nodes out of [n], by counting. *)
Definition health_of_counts (k n : Z) : health :=
  if 9 * n <=? 10 * k then Excellent
  else if 7 * n <=? 10 * k then Good
  else if n <=? 2 * k then Satisfactory
  else Bad.

(** What a node is created with and never changes afterwards. *)
Definition static_part (n : AdvancedBlockchainNode)
  : string * NodeType * Z * Z * NetworkProtocol * string * Q
    * (list nat * list nat * Z) * (Q * Q) * string :=
  (node_id n, node_type n, x n, y n, protocol n, version n,
   blockchain_size n,
   (peers n, pending_transactions n, mempool_size n),
   (disk_usage (node_metrics n), network_io (node_metrics n)),
   sync_status n).

(** [l[:count]] has this many elements. *)
Definition slice_length (size count : Z) : Z :=
  if count <? 0 then Z.max 0 (size + count) else Z.min count size.

(** [s] keeps some elements of [l], in the order of [l]. *)
Inductive subseq {A : Type} : list A -> list A -> Prop :=
| subseq_nil : subseq [] []
| subseq_keep a s l : subseq s l -> subseq (a :: s) (a :: l)
| subseq_drop a s l : subseq s l -> subseq s (a :: l).

(** The nodes an operation registers. *)
Definition registered_by (o : engine_op) : list ref :=
  match o with
  | op_add_node n => [n]
  | _ => []
  end.

(** Every node of [h'] is [R]-related to what it is in [h]. *)
Definition related (R : AdvancedBlockchainNode -> AdvancedBlockchainNode -> Prop)
    (h h' : store AdvancedBlockchainNode) : Prop :=
  forall n, R (h n) (h' n).

(** Five registered nodes, the last of them disconnected. *)
Definition five_world : world :=
  engine_run world_init
    [op_new_node "N0" FULL 100 100 BITCOIN 0 zero_draws;
     op_new_node "N1" LIGHT 200 100 BITCOIN 0 zero_draws;
     op_new_node "N2" MINING 300 100 BITCOIN 0 zero_draws;
     op_new_node "N3" FULL 400 100 ETHEREUM 0 zero_draws;
     op_new_node "N4" VALIDATOR 500 100 CUSTOM 0 zero_draws;
     op_add_node 0%nat; op_add_node 1%nat; op_add_node 2%nat;
     op_add_node 3%nat; op_add_node 4%nat;
     op_event (node_disconnection 4 0.05)].

(** A connection count that is not negative and an uptime within its
    cap. *)
Definition connection_ok (n : AdvancedBlockchainNode) : Prop :=
  0 <= connection_count n /\ (uptime (network_metrics n) <= 99.9)%Q.

(** [b] has the resource metrics and the bandwidth of [a], and its
    latency too when [with_latency] is set. *)
Definition same_metrics (with_latency : bool)
    (a b : AdvancedBlockchainNode) : Prop :=
  node_metrics b = node_metrics a /\
  bandwidth (network_metrics b) = bandwidth (network_metrics a) /\
  (with_latency = true ->
   latency (network_metrics b) = latency (network_metrics a)).

Definition no_congestion (es : list net_event) : bool :=
  forallb (fun e => negb (is_congestion e)) es.

(** The traffic of the registered nodes, as a tick sums it. *)
Definition registered_io (h : store AdvancedBlockchainNode)
    (s : NetworkSimulator) : Q :=
  Qsum (map (fun n => network_io (node_metrics (h n))) (nodes s)).

(** A session of the mining engine: calls of [mine_block] and of
    [adjust_difficulty]; a call that raises leaves the engine in the
    state reached at the raise. *)
Inductive miner_op : Type :=
| op_mine (block_data : string) (t0 t1 : Q)
| op_adjust (block_time : Q).

Definition miner_step (m : MiningSimulator) (o : miner_op) : MiningSimulator :=
  match o with
  | op_mine block_data t0 t1 => snd (mine_block m block_data t0 t1)
  | op_adjust t => state_after (adjust_difficulty m t)
  end.

Definition miner_run (m : MiningSimulator) (ops : list miner_op)
  : MiningSimulator :=
  fold_left miner_step ops m.

(** [r] is not one of [sel]. *)
Definition not_among (sel : list ref) (r : ref) : bool :=
  negb (existsb (Nat.eqb r) sel).

(** An engine whose search has run to the bound. *)
Definition spent_miner : MiningSimulator :=
  {| difficulty := 1000; current_nonce := 1000000; target_hash := "0";
     mining_power := 50 |}.

(** A registry of three distinct nodes and the draws of a congestion. *)
Definition trio_sim : NetworkSimulator :=
  {| nodes := [0; 1; 2]%nat; connections := [];
     network_load := 0; total_bandwidth := 1000 |}.

Definition trio_store : store AdvancedBlockchainNode := fun r =>
  AdvancedBlockchainNode_init "N" FULL 0 0 BITCOIN 0
    (Build_init_draws 100000 0 480 50 1 99 10 500 100 (inject_Z (Z.of_nat r)) 5 7 0).

Definition trio_congestion : nat -> Q * Q := fun _ => (50, 1)%Q.

(** A pool of two transactions and a third, better paid one. *)
Definition pair_pool : TransactionPool :=
  {| transactions := [0; 2]%nat; max_pool_size := 10000 |}.


(** The constructor's draws for the connection count and the uptime lie
    in the intervals [randint(5, 50)] and [uniform(95, 99.9)]. *)
Definition init_draws_ok (r : init_draws) : Prop :=
  5 <= i_connections r <= 50 /\ (95 <= i_uptime r <= 99.9)%Q.

Definition op_draws_ok (o : engine_op) : Prop :=
  match o with
  | op_new_node _ _ _ _ _ _ r => init_draws_ok r
  | _ => True
  end.

(** The version of a node is one of those listed for its protocol. *)
Definition version_of_protocol (n : AdvancedBlockchainNode) : Prop :=
  In (version n) (versions (protocol n)).

(** One node, created with draws from the constructor's intervals,
    registered and then disconnected. *)
Definition lone_ops : list engine_op :=
  [op_new_node "N" FULL 0 0 BITCOIN 0
     (Build_init_draws 100000 0 480 50 1 99 10 500 100 1 5 7 0);
   op_add_node 0%nat;
   op_event (node_disconnection 0 0.05)].

(** A tick that fires a connection and a disconnection. *)
Definition calm_tick : tick_draws :=
  {| t_metrics := fun _ => still_draws;
     t_events := [node_connection 0; node_disconnection 1 0.05] |}.

(** * Properties *)

(** ** Comparisons and clamps *)

Lemma Qltb_lt a b : Qltb a b = true <-> (a < b)%Q.
Proof.
  unfold Qltb. rewrite Qlt_alt. destruct (a ?= b)%Q; split; congruence.
Qed.

Lemma Qltb_ge a b : Qltb a b = false <-> (b <= a)%Q.
Proof.
  split; intro H.
  - apply Qnot_lt_le. intro Hlt. apply Qltb_lt in Hlt. congruence.
  - destruct (Qltb a b) eqn:E; [|reflexivity].
    apply Qltb_lt in E. exfalso. now apply (Qlt_not_le a b).
Qed.

(** [max(lo, min(hi, v))] lands in [[lo, hi]] whatever [v] is. *)
Lemma clamp_range lo hi v :
  (lo <= hi)%Q -> (lo <= py_max lo (py_min hi v) <= hi)%Q.
Proof.
  intro Hb. unfold py_max, py_min.
  destruct (Qltb v hi) eqn:E1.
  - apply Qltb_lt in E1.
    destruct (Qltb lo v) eqn:E2.
    + apply Qltb_lt in E2. split; now apply Qlt_le_weak.
    + split; [apply Qle_refl|exact Hb].
  - destruct (Qltb lo hi) eqn:E2.
    + split; [exact Hb|apply Qle_refl].
    + split; [apply Qle_refl|exact Hb].
Qed.

(** ** Metric model *)

Lemma update_metrics_in_range n r : metrics_in_range (update_metrics n r).
Proof.
  unfold update_metrics, metrics_in_range.
  destruct (Qltb (d_block r) 0.1); cbn;
    repeat split; apply clamp_range; discriminate.
Qed.

Lemma update_metrics_status n r : status (update_metrics n r) = status n.
Proof. unfold update_metrics. now destruct (Qltb (d_block r) 0.1). Qed.

(** C8.  Whatever the metrics of a node are to begin with and however
    many [update_metrics] calls came before, after each call the latency
    lies in [1, 500], the bandwidth in [0.1, 200], the CPU usage in
    [0, 100] and the memory usage in [50, 4000]: the clamps apply after
    the random perturbation, whatever its value. *)
Theorem update_metrics_always_in_range n rs r :
  metrics_in_range (fold_left update_metrics (rs ++ [r]) n).
Proof. rewrite fold_left_app. apply update_metrics_in_range. Qed.

(** ** Statistics *)

Lemma py_div_nonzero a b : ~ (b == 0)%Q -> py_div a b = inr (a / b)%Q.
Proof.
  intro H. unfold py_div. destruct (Qeq_bool b 0) eqn:E; [|reflexivity].
  apply Qeq_bool_iff in E. contradiction.
Qed.

Lemma length_nonzero {A} (l : list A) :
  l <> [] -> ~ (inject_Z (Z.of_nat (List.length l)) == 0)%Q.
Proof.
  intros Hl H. destruct l as [|a l]; [congruence|].
  unfold Qeq in H. simpl in H. lia.
Qed.

Lemma average_over_spec h l f :
  average_over h l f =
  inr (match l with [] => 0%Q | _ :: _ => rounded_mean h l f end).
Proof.
  destruct l as [|a l]; [reflexivity|].
  unfold average_over, rounded_mean.
  rewrite py_div_nonzero by (apply length_nonzero; discriminate). reflexivity.
Qed.

Lemma rounded_mean_ext h h' l (f : AdvancedBlockchainNode -> Q) :
  (forall r, In r l -> f (h' r) = f (h r)) ->
  rounded_mean h' l f = rounded_mean h l f.
Proof.
  intro H. unfold rounded_mean. f_equal. f_equal. f_equal.
  apply map_ext_in. exact H.
Qed.

Lemma get_network_statistics_returns h s :
  nodes s <> [] -> ~ (total_bandwidth s == 0)%Q ->
  exists st, get_network_statistics h s = inr st /\
    average_latency st =
      match online_refs h s with
      | [] => 0%Q
      | _ :: _ => rounded_mean h (online_refs h s)
                    (fun n => latency (network_metrics n))
      end /\
    average_bandwidth st =
      match online_refs h s with
      | [] => 0%Q
      | _ :: _ => rounded_mean h (online_refs h s)
                    (fun n => bandwidth (network_metrics n))
      end.
Proof.
  intros Hn Hb. unfold get_network_statistics, _calculate_network_health.
  rewrite (py_div_nonzero _ _ Hb). cbn [bind].
  rewrite !average_over_spec. cbn [bind].
  rewrite (py_div_nonzero _ _ (length_nonzero _ Hn)). cbn [bind ret].
  eexists. split; [reflexivity|]. cbn [average_latency average_bandwidth].
  fold (online_refs h s). split; reflexivity.
Qed.

(** No operation changes the bandwidth capacity of 1000. *)
Lemma engine_run_bandwidth ops : forall w,
  total_bandwidth (w_sim w) = 1000%Q ->
  total_bandwidth (w_sim (engine_run w ops)) = 1000%Q.
Proof.
  unfold engine_run.
  induction ops as [|o ops IH]; intros w H; [exact H|].
  cbn [fold_left]. apply IH. destruct o; exact H.
Qed.

(** On an empty registry the health ratio divides by zero. *)
Lemma get_network_statistics_empty h s :
  nodes s = [] -> ~ (total_bandwidth s == 0)%Q ->
  get_network_statistics h s = inl ZeroDivisionError.
Proof.
  intros Hn Hb. unfold get_network_statistics, _calculate_network_health.
  rewrite (py_div_nonzero _ _ Hb), Hn. reflexivity.
Qed.

(** C9.  On a non-empty registry [statistics()] returns; its latency and
    bandwidth averages are the rounded means over the online nodes, so
    they do not change with the metrics of the other nodes, and both are
    0 when no node is online. *)
Theorem statistics_average_online_nodes h s :
  nodes s <> [] -> ~ (total_bandwidth s == 0)%Q ->
  exists st, get_network_statistics h s = inr st /\
    (online_refs h s = [] ->
       average_latency st = 0%Q /\ average_bandwidth st = 0%Q) /\
    (online_refs h s <> [] ->
       average_latency st =
         rounded_mean h (online_refs h s)
           (fun n => latency (network_metrics n)) /\
       average_bandwidth st =
         rounded_mean h (online_refs h s)
           (fun n => bandwidth (network_metrics n))) /\
    (forall h',
       online_refs h' s = online_refs h s ->
       (forall r, In r (online_refs h s) ->
                  network_metrics (h' r) = network_metrics (h r)) ->
       exists st', get_network_statistics h' s = inr st' /\
                   average_latency st' = average_latency st /\
                   average_bandwidth st' = average_bandwidth st).
Proof.
  intros Hn Hb.
  destruct (get_network_statistics_returns h s Hn Hb) as (st & Hst & Hl & Hw).
  exists st. split; [exact Hst|]. split; [|split].
  - intro He. rewrite He in Hl, Hw. now split.
  - intro He. destruct (online_refs h s); [congruence|]. now split.
  - intros h' Ho Hm.
    destruct (get_network_statistics_returns h' s Hn Hb)
      as (st' & Hst' & Hl' & Hw').
    exists st'. split; [exact Hst'|].
    rewrite Hl', Hw', Hl, Hw, Ho.
    destruct (online_refs h s) as [|a l] eqn:E; [now split|].
    split; apply rounded_mean_ext; intros r Hr; now rewrite Hm.
Qed.

Lemma statistics_average_online_nodes_witness :
  exists st,
    get_network_statistics (w_store dark_world) (w_sim dark_world) = inr st /\
    average_latency st = 0%Q /\ average_bandwidth st = 0%Q.
Proof.
  destruct (statistics_average_online_nodes (w_store dark_world)
              (w_sim dark_world)) as (st & Hst & Hoff & _).
  - vm_compute. discriminate.
  - vm_compute. discriminate.
  - exists st. split; [exact Hst|]. apply Hoff. vm_compute. reflexivity.
Defined.

(** ** Node status *)

Create HintDb offline.

Lemma only_disconnects_refl h : only_disconnects h h.
Proof. intro n. now left. Qed.

Lemma only_disconnects_trans h1 h2 h3 :
  only_disconnects h1 h2 -> only_disconnects h2 h3 -> only_disconnects h1 h3.
Proof.
  intros H1 H2 n. destruct (H2 n) as [E2|E2]; [|now right].
  destruct (H1 n) as [E1|E1]; [left; congruence|].
  right. unfold offline in *. congruence.
Qed.

Lemma only_disconnects_set h r v :
  status v = status (h r) \/ status v = "offline"%string ->
  only_disconnects h (store_set h r v).
Proof.
  intros Hv n. unfold offline, store_set.
  destruct (Nat.eqb n r) eqn:E; [|now left].
  apply Nat.eqb_eq in E. now subst n.
Qed.

#[local] Hint Resolve only_disconnects_refl only_disconnects_set : offline.

Lemma update_all_only_disconnects rs : forall h d i,
  only_disconnects h (update_all h rs d i).
Proof.
  induction rs as [|r rs IH]; intros h d i; cbn [update_all]; auto with offline.
  eapply only_disconnects_trans; [|apply IH].
  apply only_disconnects_set. left. apply update_metrics_status.
Qed.

Lemma congest_only_disconnects rs : forall h d i,
  only_disconnects h (congest h rs d i).
Proof.
  induction rs as [|r rs IH]; intros h d i; cbn [congest]; auto with offline.
  eapply only_disconnects_trans; [|apply IH].
  apply only_disconnects_set. now left.
Qed.

Lemma apply_event_only_disconnects s h e :
  only_disconnects h (apply_event s h e).
Proof.
  destruct e as [k|k p|d| |]; cbn [apply_event]; auto with offline.
  - unfold _simulate_node_connection.
    destruct (2 <=? List.length (nodes s))%nat; auto with offline.
  - unfold _simulate_node_disconnection.
    destruct (1 <=? List.length (nodes s))%nat; auto with offline.
    destruct (Qltb p 0.1); auto with offline.
  - apply congest_only_disconnects.
Qed.

Lemma events_only_disconnect s es : forall h,
  only_disconnects h (_simulate_network_events h s es).
Proof.
  unfold _simulate_network_events.
  induction es as [|e es IH]; intro h; cbn [fold_left]; auto with offline.
  eapply only_disconnects_trans; [apply apply_event_only_disconnects|apply IH].
Qed.

Lemma tick_only_disconnects h s r :
  only_disconnects h (fst (simulate_network_activity h s r)).
Proof.
  unfold simulate_network_activity. cbn [fst].
  eapply only_disconnects_trans;
    [apply update_all_only_disconnects|apply events_only_disconnect].
Qed.

(** A new node takes a fresh identity; the nodes that exist keep theirs,
    and their status is only ever set to offline. *)
Lemma engine_step_only_disconnects w o n :
  (n < w_next w)%nat ->
  (n < w_next (engine_step w o))%nat /\
  (status (w_store (engine_step w o) n) = status (w_store w n) \/
   offline (w_store (engine_step w o)) n).
Proof.
  intros Hn. destruct o; cbn [engine_step].
  - cbn [w_next w_store]. split; [lia|]. left.
    unfold store_set. destruct (Nat.eqb n (w_next w)) eqn:E; [|reflexivity].
    apply Nat.eqb_eq in E. lia.
  - split; [exact Hn|now left].
  - cbn [w_next w_store]. split; [exact Hn|].
    apply only_disconnects_set. left. apply update_metrics_status.
  - pose proof (tick_only_disconnects (w_store w) (w_sim w) r n) as H.
    destruct (simulate_network_activity (w_store w) (w_sim w) r) as [h s].
    now split.
  - cbn [w_next w_store]. split; [exact Hn|].
    apply apply_event_only_disconnects.
Qed.

Lemma engine_run_only_disconnects ops : forall w n,
  (n < w_next w)%nat ->
  status (w_store (engine_run w ops) n) = status (w_store w n) \/
  offline (w_store (engine_run w ops)) n.
Proof.
  unfold engine_run.
  induction ops as [|o ops IH]; intros w n Hn; cbn [fold_left]; [now left|].
  destruct (engine_step_only_disconnects w o n Hn) as [Hn' Hs].
  destruct (IH _ _ Hn') as [E|E]; [|now right].
  destruct Hs as [Hs|Hs]; [left; congruence|].
  right. unfold offline in *. congruence.
Qed.

(** The constructor leaves the new node online. *)
Lemma new_node_is_online w id ty px py proto now r :
  status (w_store (engine_step w (op_new_node id ty px py proto now r))
            (w_next w))
  = "online"%string.
Proof. cbn. unfold store_set. now rewrite Nat.eqb_refl. Qed.

(** A disconnection that takes effect leaves the chosen node offline. *)
Lemma disconnection_takes_effect h s k p :
  nodes s <> [] -> (p < 0.1)%Q ->
  offline (_simulate_node_disconnection h s k p) (choice O (nodes s) k).
Proof.
  intros Hn Hp. unfold _simulate_node_disconnection, offline.
  destruct (nodes s) as [|a l] eqn:E; [congruence|]. cbn [List.length Nat.leb].
  apply Qltb_lt in Hp. rewrite Hp. unfold store_set.
  now rewrite Nat.eqb_refl.
Qed.

(** C10.  Through any sequence of engine operations (constructor calls,
    registrations, [update_metrics] calls, ticks and injected events) a
    node that is offline stays offline, and a node that is online at the
    end was online from the start: no operation sets a status back to
    online. *)
Theorem offline_is_permanent w ops n :
  (n < w_next w)%nat ->
  (offline (w_store w) n -> offline (w_store (engine_run w ops)) n) /\
  (status (w_store (engine_run w ops) n) = "online"%string ->
   status (w_store w n) = "online"%string).
Proof.
  intro Hn. destruct (engine_run_only_disconnects ops w n Hn) as [E|E].
  - unfold offline. rewrite E. now split.
  - split; [now intros _|]. unfold offline in E. rewrite E. discriminate.
Qed.

Lemma offline_is_permanent_witness :
  offline (w_store dark_world) O /\
  offline (w_store (engine_run dark_world busy_ops)) O.
Proof.
  split; [reflexivity|].
  apply (offline_is_permanent dark_world busy_ops O);
    [vm_compute; lia|reflexivity].
Defined.

(** ** Transaction pool *)

Section PoolFacts.
Variable txs : store Transaction.

Lemma insert_desc_perm r l : Permutation (insert_desc txs r l) (r :: l).
Proof.
  induction l as [|a l IH]; simpl; auto.
  destruct (Qle_bool (fee_of txs a) (fee_of txs r)); auto.
  rewrite IH. apply perm_swap.
Qed.

Lemma sorted_desc_perm l : Permutation (sorted_desc txs l) l.
Proof.
  induction l as [|a l IH]; simpl; auto.
  rewrite insert_desc_perm. now constructor.
Qed.

Lemma sorted_desc_length l : List.length (sorted_desc txs l) = List.length l.
Proof. apply Permutation_length, sorted_desc_perm. Qed.

Lemma insert_desc_sorted r l :
  StronglySorted (fee_ge txs) l ->
  StronglySorted (fee_ge txs) (insert_desc txs r l).
Proof.
  induction 1 as [|a l Hs IH Ha]; simpl.
  - repeat constructor.
  - destruct (Qle_bool (fee_of txs a) (fee_of txs r)) eqn:E.
    + apply Qle_bool_iff in E.
      constructor; [now constructor|].
      constructor; [exact E|].
      eapply Forall_impl; [|exact Ha].
      intros b Hb. unfold fee_ge in *. eapply Qle_trans; eassumption.
    + constructor; [exact IH|].
      assert (Hlt : (fee_of txs r < fee_of txs a)%Q).
      { apply Qnot_le_lt. intro H. apply Qle_bool_iff in H. congruence. }
      rewrite insert_desc_perm. constructor; [|exact Ha].
      now apply Qlt_le_weak.
Qed.

Lemma sorted_desc_sorted l : StronglySorted (fee_ge txs) (sorted_desc txs l).
Proof.
  induction l as [|a l IH]; simpl; [constructor|].
  now apply insert_desc_sorted.
Qed.

(** Inserting [r] puts it before every object of its own fee. *)
Lemma insert_desc_filter q r l :
  StronglySorted (fee_ge txs) l ->
  filter (same_fee txs q) (insert_desc txs r l)
  = filter (same_fee txs q) (r :: l).
Proof.
  induction 1 as [|a l Hs IH Ha]; [reflexivity|].
  cbn [insert_desc].
  destruct (Qle_bool (fee_of txs a) (fee_of txs r)) eqn:E; [reflexivity|].
  cbn [filter] in *. rewrite IH.
  destruct (same_fee txs q r) eqn:Er; [|reflexivity].
  destruct (same_fee txs q a) eqn:Ea; [|reflexivity].
  exfalso. unfold same_fee in *.
  apply Qeq_bool_iff in Er, Ea.
  assert (H : (fee_of txs a <= fee_of txs r)%Q)
    by (rewrite Er, Ea; apply Qle_refl).
  apply Qle_bool_iff in H. congruence.
Qed.

Lemma sorted_desc_stable q l :
  filter (same_fee txs q) (sorted_desc txs l) = filter (same_fee txs q) l.
Proof.
  induction l as [|a l IH]; [reflexivity|].
  cbn [sorted_desc]. rewrite insert_desc_filter by apply sorted_desc_sorted.
  cbn [filter]. now rewrite IH.
Qed.

Lemma sorted_desc_is_stable_sort l :
  stable_desc_sort txs l (sorted_desc txs l).
Proof.
  split; [apply sorted_desc_sorted | intro; apply sorted_desc_stable].
Qed.

Lemma same_fee_refl r : same_fee txs (fee_of txs r) r = true.
Proof. apply Qeq_bool_iff. reflexivity. Qed.

(** Two fee-ordered lists with the same objects in the same order at
    every fee are equal: the stable sort is unique, whatever algorithm
    computes it. *)
Lemma stable_sorted_unique s1 :
  forall s2,
    StronglySorted (fee_ge txs) s1 -> StronglySorted (fee_ge txs) s2 ->
    (forall q, filter (same_fee txs q) s1 = filter (same_fee txs q) s2) ->
    s1 = s2.
Proof.
  induction s1 as [|a s1 IH]; intros s2 H1 H2 Hf.
  - destruct s2 as [|b s2]; [reflexivity|].
    specialize (Hf (fee_of txs b)). cbn [filter] in Hf.
    rewrite same_fee_refl in Hf. discriminate.
  - destruct s2 as [|b s2].
    + specialize (Hf (fee_of txs a)). cbn [filter] in Hf.
      rewrite same_fee_refl in Hf. discriminate.
    + apply StronglySorted_inv in H1 as [H1 Ha].
      apply StronglySorted_inv in H2 as [H2 Hb].
      assert (Hab : (fee_of txs a <= fee_of txs b)%Q).
      { assert (Hin : In a (filter (same_fee txs (fee_of txs a)) (b :: s2))).
        { rewrite <- Hf. cbn [filter]. rewrite same_fee_refl. now left. }
        apply filter_In in Hin as [[->|Hin] _]; [apply Qle_refl|].
        rewrite Forall_forall in Hb. now apply Hb. }
      assert (Hba : (fee_of txs b <= fee_of txs a)%Q).
      { assert (Hin : In b (filter (same_fee txs (fee_of txs b)) (a :: s1))).
        { rewrite Hf. cbn [filter]. rewrite same_fee_refl. now left. }
        apply filter_In in Hin as [[->|Hin] _]; [apply Qle_refl|].
        rewrite Forall_forall in Ha. now apply Ha. }
      assert (Heq : (fee_of txs b == fee_of txs a)%Q) by now apply Qle_antisym.
      assert (a = b).
      { pose proof (Hf (fee_of txs a)) as H. cbn [filter] in H.
        rewrite same_fee_refl in H.
        replace (same_fee txs (fee_of txs a) b) with true in H.
        - congruence.
        - symmetry. now apply Qeq_bool_iff. }
      subst b. f_equal. apply IH; auto.
      intro q. specialize (Hf q). cbn [filter] in Hf.
      destruct (same_fee txs q a); congruence.
Qed.

Lemma sorted_desc_unique l s :
  stable_desc_sort txs l s -> s = sorted_desc txs l.
Proof.
  intros [Hs Hf]. apply stable_sorted_unique; auto.
  - apply sorted_desc_sorted.
  - intro q. now rewrite Hf, sorted_desc_stable.
Qed.
End PoolFacts.

Lemma list_remove_In l v :
  In v l -> exists l', list_remove l v = inr l' /\ Permutation l (v :: l').
Proof.
  induction l as [|a l IH]; intros Hin; [destruct Hin|].
  cbn [list_remove]. destruct (Nat.eqb a v) eqn:E.
  - apply Nat.eqb_eq in E. subst a. exists l. split; [reflexivity|auto].
  - destruct Hin as [->|Hin]; [rewrite Nat.eqb_refl in E; discriminate|].
    destruct (IH Hin) as (l' & -> & Hp). exists (a :: l').
    split; [reflexivity|]. rewrite Hp. apply perm_swap.
Qed.

(** Removing a selection that is part of the list never raises, and
    leaves the rest of the list. *)
Lemma remove_all_perm selected :
  forall l rest,
    Permutation l (selected ++ rest) ->
    exists l', remove_all l selected = inr l' /\ Permutation l' rest.
Proof.
  induction selected as [|a sel IH]; intros l rest Hp.
  - exists l. split; [reflexivity|exact Hp].
  - cbn [remove_all].
    destruct (list_remove_In l a) as (l1 & -> & Hp1).
    { eapply Permutation_in; [symmetry; exact Hp|]. now left. }
    cbn [bind]. apply IH.
    apply Permutation_cons_inv with (a := a).
    now rewrite <- Hp1.
Qed.

Lemma list_remove_length l v l' :
  list_remove l v = inr l' -> (List.length l' <= List.length l)%nat.
Proof.
  revert l'. induction l as [|b l IHl]; intros l' E; cbn [list_remove] in E.
  - discriminate.
  - destruct (Nat.eqb b v).
    + injection E as <-. simpl. lia.
    + destruct (list_remove l v) as [e|l2]; [discriminate|].
      cbn [bind ret] in E. injection E as <-.
      specialize (IHl l2 eq_refl). simpl. lia.
Qed.

Lemma remove_all_length sel : forall l l',
  remove_all l sel = inr l' -> (List.length l' <= List.length l)%nat.
Proof.
  induction sel as [|a sel IH]; intros l l' H; cbn [remove_all] in H.
  - injection H as ->. lia.
  - destruct (list_remove l a) as [e|l1] eqn:E; [discriminate|].
    cbn [bind] in H. apply IH in H. apply list_remove_length in E. lia.
Qed.

Lemma slice_to_nonneg {A} (l : list A) n :
  0 <= n -> slice_to l n = firstn (Z.to_nat n) l.
Proof.
  intro H. unfold slice_to. destruct (n <? 0) eqn:E; [lia|reflexivity].
Qed.

Lemma firstn_sorted {A} (R : A -> A -> Prop) k l :
  StronglySorted R l -> StronglySorted R (firstn k l).
Proof.
  revert k. induction l as [|a l IH]; intros k H.
  - now rewrite firstn_nil.
  - destruct k; [constructor|]. cbn [firstn].
    apply StronglySorted_inv in H as [H Ha]. constructor; [now apply IH|].
    rewrite Forall_forall in *. intros b Hb. apply Ha.
    rewrite <- (firstn_skipn k l). apply in_or_app. now left.
Qed.

Lemma NoDup_app_disjoint {A} (l1 l2 : list A) :
  NoDup (l1 ++ l2) -> forall a, In a l1 -> ~ In a l2.
Proof.
  induction l1 as [|b l1 IH]; intros Hnd a Hin; [destruct Hin|].
  cbn [app] in Hnd. apply NoDup_cons_iff in Hnd as [Hb Hnd].
  destruct Hin as [->|Hin]; [|now apply IH].
  intro H2. apply Hb. apply in_or_app. now right.
Qed.

(** Every pool a program can hold has the capacity 10000 and keeps to
    it. *)
Lemma pool_reachable_inv txs p :
  pool_reachable txs p -> max_pool_size p = 10000 /\ pool_size p <= 10000.
Proof.
  induction 1 as [|p tx Hp [IH1 IH2]|p n sel p' Hp [IH1 IH2] Hsel].
  - split; [reflexivity|]. unfold pool_size. simpl. lia.
  - unfold add_transaction, pool_size in *.
    destruct (Z.of_nat (List.length (transactions p)) <? max_pool_size p) eqn:E;
      cbn [snd transactions max_pool_size]; split; auto.
    rewrite length_app. simpl. lia.
  - unfold get_transactions_for_block in Hsel.
    destruct (remove_all _ _) as [e|l'] eqn:E; [discriminate|].
    cbn [bind ret] in Hsel. injection Hsel as <- <-.
    cbn [max_pool_size]. split; [assumption|].
    apply remove_all_length in E. unfold pool_size in *.
    cbn [transactions]. lia.
Qed.

(** C1, for a count that is not negative.  [selectForBlock(n)] with
    [0 <= n] returns the first [min(n, size)] transactions of the pool in
    its stable order of decreasing fee (equal fees in insertion order);
    the pool loses exactly these, so its size drops by [min(n, size)],
    and a pool without repeated objects shares none with the result. *)
Theorem get_transactions_for_block_selects_top txs p n :
  0 <= n -> selects_top txs p n.
Proof.
  intro Hn. unfold selects_top, get_transactions_for_block.
  rewrite slice_to_nonneg by assumption.
  set (s := sorted_desc txs (transactions p)).
  destruct (remove_all_perm (firstn (Z.to_nat n) s) (transactions p)
              (skipn (Z.to_nat n) s)) as (l' & Hr & Hp).
  { rewrite firstn_skipn. symmetry. apply sorted_desc_perm. }
  rewrite Hr. cbn [bind ret].
  eexists _, _. split; [reflexivity|].
  assert (Hlen : Z.of_nat (List.length (firstn (Z.to_nat n) s))
                 = Z.min n (pool_size p)).
  { rewrite length_firstn. unfold s, pool_size.
    rewrite sorted_desc_length. lia. }
  assert (Hperm : Permutation (transactions p) (firstn (Z.to_nat n) s ++ l')).
  { rewrite Hp, firstn_skipn. symmetry. apply sorted_desc_perm. }
  split; [|split; [|split; [|split; [|split]]]].
  - exists s. split; [apply sorted_desc_is_stable_sort|].
    rewrite length_firstn.
    destruct (Nat.le_gt_cases (Z.to_nat n) (List.length s)) as [Hle|Hgt].
    + now rewrite Nat.min_l.
    + rewrite Nat.min_r, firstn_all, firstn_all2 by lia. reflexivity.
  - apply firstn_sorted, sorted_desc_sorted.
  - exact Hlen.
  - exact Hperm.
  - intros Hnd. cbn [transactions]. apply NoDup_app_disjoint.
    eapply Permutation_NoDup; eassumption.
  - unfold pool_size in *. cbn [transactions].
    apply Permutation_length in Hperm. rewrite length_app in Hperm. lia.
Qed.

(** The scenario of the specification: of the fees 0.01, 0.05 and 0.001
    the two highest are selected, highest first. *)
Lemma scenario_selects_two :
  get_transactions_for_block scenario_txs scenario_pool 2
  = inr ([1; 0]%nat, {| transactions := [2]%nat; max_pool_size := 10000 |}).
Proof. vm_compute. reflexivity. Qed.

Lemma get_transactions_for_block_selects_top_witness :
  0 <= 2 /\ selects_top scenario_txs scenario_pool 2.
Proof.
  split; [lia|].
  apply (get_transactions_for_block_selects_top scenario_txs scenario_pool 2).
  lia.
Defined.

(** With the count -1 the slice drops the last transaction of the sorted
    list: two of the three are returned, not [min(-1, 3)]. *)
Lemma selects_top_fails_on_negative_count :
  get_transactions_for_block scenario_txs scenario_pool (-1)
  = inr ([1; 0]%nat, {| transactions := [2]%nat; max_pool_size := 10000 |}) /\
  ~ selects_top scenario_txs scenario_pool (-1).
Proof.
  split; [vm_compute; reflexivity|].
  intros (sel & p' & H & _ & _ & Hlen & _).
  vm_compute in H. injection H as <- <-. vm_compute in Hlen. discriminate.
Qed.

(** C2.  On a pool of capacity 10000, [add(tx)] returns true exactly when
    the pool holds fewer than 10000 transactions, and then appends [tx];
    on a pool that holds 10000 it returns false and leaves the pool as it
    is.  The result is a boolean in both cases: nothing is raised. *)
Theorem add_transaction_capacity p tx :
  max_pool_size p = 10000 ->
  (fst (add_transaction p tx) = true <-> pool_size p < 10000) /\
  (pool_size p < 10000 ->
     add_transaction p tx =
       (true, {| transactions := transactions p ++ [tx];
                 max_pool_size := max_pool_size p |})) /\
  (10000 <= pool_size p -> add_transaction p tx = (false, p)).
Proof.
  intro Hmax. unfold add_transaction, pool_size. rewrite Hmax.
  destruct (Z.of_nat (List.length (transactions p)) <? 10000) eqn:E.
  - apply Z.ltb_lt in E. cbn [fst]. repeat split; auto; lia.
  - apply Z.ltb_ge in E. cbn [fst].
    repeat split; auto; try lia; discriminate.
Qed.

Lemma add_transaction_capacity_witness :
  max_pool_size full_pool = 10000 /\
  add_transaction full_pool 7%nat = (false, full_pool).
Proof.
  split; [reflexivity|].
  apply (add_transaction_capacity full_pool 7%nat); [reflexivity|].
  vm_compute. discriminate.
Defined.

(** ** Mining *)

(** Distinct nonces are written differently. *)
Lemma str_of_int_inj a b : str_of_int a = str_of_int b -> a = b.
Proof.
  unfold str_of_int. intro H.
  assert (Hnn : forall z, Z.to_int z <> Decimal.Pos Decimal.Nil /\
                          Z.to_int z <> Decimal.Neg Decimal.Nil).
  { intros [|p|p]; split; try discriminate; intro E; injection E;
      apply Unsigned.to_uint_nonnil. }
  apply (f_equal NilZero.int_of_string) in H.
  rewrite !NilZero.isi in H by apply Hnn.
  injection H as H. apply (f_equal Z.of_int) in H.
  now rewrite !DecimalZ.of_to in H.
Qed.

Lemma prefix_empty s : String.prefix EmptyString s = true.
Proof. now destruct s. Qed.


Section MineFacts.
Variable hexdigest : string -> string.

(** The loop, given the turns it can take, returns the first solving
    nonce from [n] up to 999999, or passes them all. *)
Lemma mine_loop_spec fuel : forall block_data target n,
  1000000 - n <= Z.of_nat fuel ->
  match mine_loop hexdigest fuel block_data target n with
  | (Some (h, k), n') =>
      n' = k /\ h = hexdigest (block_data ++ str_of_int k) /\
      first_solution hexdigest block_data target n 999999 k
  | (None, n') =>
      n' = Z.max n 1000000 /\
      no_solution hexdigest block_data target n 999999
  end.
Proof.
  induction fuel as [|fuel IH]; intros block_data target n Hf.
  - cbn [mine_loop]. split; [lia|]. intros j Hj. lia.
  - cbn [mine_loop]. destruct (n <? 1000000) eqn:En.
    + apply Z.ltb_lt in En.
      destruct (String.prefix target (hexdigest (block_data ++ str_of_int n)))
        eqn:Ep.
      * split; [reflexivity|]. split; [reflexivity|].
        split; [lia|]. split; [exact Ep|]. intros j Hj. lia.
      * specialize (IH block_data target (n + 1)).
        destruct (mine_loop hexdigest fuel block_data target (n + 1))
          as [[[h k]|] n'].
        -- destruct IH as (-> & -> & Hr & Hs & Hmin); [lia|].
           split; [reflexivity|]. split; [reflexivity|].
           split; [lia|]. split; [exact Hs|].
           intros j Hj. destruct (Z.eq_dec j n) as [->|Hne]; [exact Ep|].
           apply Hmin. lia.
        -- destruct IH as (-> & Hnone); [lia|]. split; [lia|].
           intros j Hj. destruct (Z.eq_dec j n) as [->|Hne]; [exact Ep|].
           apply Hnone. lia.
    + apply Z.ltb_ge in En. split; [lia|]. intros j Hj. lia.
Qed.

Lemma mine_loop_cursor fuel : forall block_data target n h k n',
  mine_loop hexdigest fuel block_data target n = (Some (h, k), n') ->
  n' = k /\ k < 1000000.
Proof.
  induction fuel as [|fuel IH]; intros block_data target n h k n' H;
    cbn [mine_loop] in H.
  - discriminate.
  - destruct (n <? 1000000) eqn:En; [|discriminate].
    destruct (String.prefix target (hexdigest (block_data ++ str_of_int n))).
    + injection H as <- <- <-. apply Z.ltb_lt in En. now split.
    + eapply IH; eauto.
Qed.

(** A search that stopped at [k] stops there again when started at [k]. *)
Lemma mine_loop_again fuel block_data target h k n :
  mine_loop hexdigest fuel block_data target n = (Some (h, k), k) ->
  forall fuel', (0 < fuel')%nat ->
  mine_loop hexdigest fuel' block_data target k = (Some (h, k), k).
Proof.
  revert n. induction fuel as [|fuel IH]; intros n H fuel' Hf;
    cbn [mine_loop] in H.
  - discriminate.
  - destruct (n <? 1000000) eqn:En; [|discriminate].
    destruct (String.prefix target (hexdigest (block_data ++ str_of_int n)))
      eqn:Ep.
    + injection H as <- <-. destruct fuel'; [lia|]. cbn [mine_loop].
      now rewrite En, Ep.
    + eapply IH; eauto.
Qed.

Lemma mine_block_with_searches m block_data t0 t1 :
  let out := mine_block_with hexdigest m block_data t0 t1 in
  searched hexdigest m block_data (fst out) (current_nonce m) 999999 /\
  current_nonce (snd out) =
    match fst out with
    | Some r => nonce r
    | None => Z.max (current_nonce m) 1000000
    end /\
  target_hash (snd out) = target_hash m /\
  difficulty (snd out) = difficulty m.
Proof.
  unfold mine_block_with.
  pose proof (mine_loop_spec (Z.to_nat (1000000 - current_nonce m)) block_data
                (target_hash m) (current_nonce m)) as H.
  destruct (mine_loop _ _ _ _ _) as [[[h k]|] n'].
  - destruct H as (-> & -> & Hf); [lia|]. cbn. repeat split; auto; apply Hf.
  - destruct H as (-> & Hn); [lia|]. cbn. repeat split; auto.
Qed.

Lemma mine_block_with_twice m block_data t0 t1 t2 t3 :
  let first := mine_block_with hexdigest m block_data t0 t1 in
  let second := mine_block_with hexdigest (snd first) block_data t2 t3 in
  option_map (fun r => (hash r, nonce r)) (fst second) =
  option_map (fun r => (hash r, nonce r)) (fst first).
Proof.
  unfold mine_block_with.
  pose proof (mine_loop_spec (Z.to_nat (1000000 - current_nonce m)) block_data
                (target_hash m) (current_nonce m)) as H.
  destruct (mine_loop hexdigest (Z.to_nat (1000000 - current_nonce m)) _ _ _)
    as [[[h k]|] n'] eqn:E.
  - destruct (mine_loop_cursor _ _ _ _ _ _ _ E) as [-> Hk].
    cbn [snd fst current_nonce target_hash].
    rewrite (mine_loop_again _ _ _ _ _ _ E) by lia. reflexivity.
  - destruct H as (-> & _); [lia|].
    cbn [snd fst current_nonce target_hash].
    replace (Z.to_nat (1000000 - Z.max (current_nonce m) 1000000))
      with O by lia.
    reflexivity.
Qed.

(** With an empty target the first nonce tried solves. *)
Lemma mine_block_with_empty_target m block_data t0 t1 :
  target_hash m = EmptyString -> current_nonce m < 1000000 ->
  exists r, fst (mine_block_with hexdigest m block_data t0 t1) = Some r /\
            nonce r = current_nonce m.
Proof.
  intros Ht Hc. unfold mine_block_with. rewrite Ht.
  destruct (Z.to_nat (1000000 - current_nonce m)) as [|fuel] eqn:E; [lia|].
  cbn [mine_loop]. replace (current_nonce m <? 1000000) with true
    by (symmetry; now apply Z.ltb_lt).
  rewrite prefix_empty. cbn [fst]. eexists. split; reflexivity.
Qed.

(** Once the cursor has reached the bound, nothing is searched any more. *)
Lemma mine_block_with_after_exhaustion m block_data t0 t1 :
  1000000 <= current_nonce m ->
  mine_block_with hexdigest m block_data t0 t1 = (None, m).
Proof.
  intro Hc. unfold mine_block_with.
  replace (Z.to_nat (1000000 - current_nonce m)) with O by lia.
  cbn [mine_loop]. now destruct m.
Qed.
End MineFacts.

(** The loop never tries the nonce 1000000: a digest that only that nonce
    solves is not found. *)
Lemma mine_loop_bound_excluded :
  let only_at_bound := fun s : string =>
    (if String.eqb s "x1000000" then "0000" else "ffff")%string in
  solves only_at_bound "x" "0000" 1000000 = true /\
  fst (mine_block_with only_at_bound (MiningSimulator_init 1000 50) "x" 0 1)
  = None.
Proof.
  split; [vm_compute; reflexivity|].
  pose proof (mine_block_with_searches
                (fun s : string =>
                   (if String.eqb s "x1000000" then "0000" else "ffff")%string)
                (MiningSimulator_init 1000 50) "x" 0 1) as [H _].
  cbv zeta in H.
  destruct (fst (mine_block_with _ _ _ _ _)) as [r|]; [|reflexivity].
  exfalso. destruct H as [(Hr & Hs & _) _].
  cbn [MiningSimulator_init current_nonce target_hash] in Hr, Hs.
  unfold solves in Hs.
  destruct (String.eqb ("x" ++ str_of_int (nonce r)) "x1000000")%string eqn:E.
  - apply String.eqb_eq in E. cbn [append] in E. injection E as E.
    assert (Hn : str_of_int (nonce r) = str_of_int 1000000) by exact E.
    apply str_of_int_inj in Hn. lia.
  - vm_compute in Hs. discriminate.
Qed.

(** *** The digest has 64 characters *)

Lemma round_length st kw :
  List.length st = 8%nat -> List.length (Sha256.round st kw) = 8%nat.
Proof.
  intro H. do 9 (destruct st as [|? st]; try discriminate). reflexivity.
Qed.

Lemma rounds_length kws : forall st,
  List.length st = 8%nat ->
  List.length (fold_left Sha256.round kws st) = 8%nat.
Proof.
  induction kws as [|kw kws IH]; intros st H; [exact H|].
  cbn [fold_left]. apply IH. now apply round_length.
Qed.

Lemma compress_length hs block :
  List.length hs = 8%nat -> List.length (Sha256.compress hs block) = 8%nat.
Proof.
  intro H. unfold Sha256.compress.
  rewrite length_map, length_combine, rounds_length by exact H.
  rewrite H. reflexivity.
Qed.

Lemma blocks_length n : forall hs bs,
  List.length hs = 8%nat -> List.length (Sha256.blocks n hs bs) = 8%nat.
Proof.
  induction n as [|n IH]; intros hs bs H; [exact H|].
  cbn [Sha256.blocks]. apply IH. now apply compress_length.
Qed.

Lemma append_length (s1 s2 : string) :
  String.length (s1 ++ s2) = (String.length s1 + String.length s2)%nat.
Proof. induction s1 as [|a s1 IH]; simpl; [reflexivity|now rewrite IH]. Qed.

Lemma hexword_length n v : String.length (Sha256.hexword n v) = n.
Proof. induction n as [|n IH]; simpl; [reflexivity|now rewrite IH]. Qed.

Lemma hexwords_length ws :
  String.length (Sha256.hexwords ws) = (8 * List.length ws)%nat.
Proof.
  induction ws as [|w ws IH]; [reflexivity|].
  cbn [Sha256.hexwords List.length].
  rewrite append_length, hexword_length, IH. lia.
Qed.

Lemma hexdigest_length s : String.length (Sha256.hexdigest s) = 64%nat.
Proof.
  unfold Sha256.hexdigest, Sha256.digest_words.
  rewrite hexwords_length, blocks_length; reflexivity.
Qed.

(** The digests of the published test vectors. *)
Example hexdigest_abc :
  Sha256.hexdigest "abc"
  = "ba7816bf8f01cfea414140de5dae2223b00361a396177a9cb410ff61f20015ad"%string.
Proof. vm_compute. reflexivity. Qed.

Example hexdigest_two_blocks :
  Sha256.hexdigest "abcdbcdecdefdefgefghfghighijhijkijkljklmklmnlmnomnopnopq"
  = "248d6a61d20638b8e5c026930c3e6039a33ce45964ff2167f6ecedd419db06c1"%string.
Proof. vm_compute. reflexivity. Qed.

(** *** [mine_block] *)

(** What a call leaves behind: the cursor stays where the search
    stopped, and the prefix and the difficulty are not touched. *)
Lemma mine_block_leaves_cursor m block_data t0 t1 :
  let out := mine_block m block_data t0 t1 in
  current_nonce (snd out) =
    match fst out with
    | Some r => nonce r
    | None => Z.max (current_nonce m) 1000000
    end /\
  target_hash (snd out) = target_hash m /\
  difficulty (snd out) = difficulty m.
Proof.
  apply (mine_block_with_searches Sha256.hexdigest m block_data t0 t1).
Qed.

(** C3, as the code has it.  A call to [mine_block] searches, in order,
    the nonces from the cursor the engine holds when the call starts up
    to 999999: it returns the first of them whose SHA-256 digest of
    payload and nonce starts with the target prefix, with that digest,
    and returns nothing when none of them does.  The cursor of a new
    engine is 0. *)
Theorem mine_block_searches_from_cursor m block_data t0 t1 :
  searched Sha256.hexdigest m block_data
    (fst (mine_block m block_data t0 t1)) (current_nonce m) 999999 /\
  (forall d power, current_nonce (MiningSimulator_init d power) = 0).
Proof.
  split; [|reflexivity].
  apply (mine_block_with_searches Sha256.hexdigest m block_data t0 t1).
Qed.

Lemma adjusted_miner_reached :
  adjust_difficulty (MiningSimulator_init 1000 50) 600 = inr adjusted_miner.
Proof. vm_compute. reflexivity. Qed.

Lemma mine_payload :
  mine_block adjusted_miner "payload" 0 1
  = (Some {| hash := "0c6e73a1306bc186a169738fa3142cea2f904e961cdde7131cf2a531e19d1a21";
             nonce := 36; mining_time := 1 - 0; hashrate := 50 |},
     {| difficulty := 1000; current_nonce := 36; target_hash := "0";
        mining_power := 50 |}).
Proof. vm_compute. reflexivity. Qed.

(** After ["payload"] was mined at nonce 36, mining ["block_1"] starts at
    36 and returns nonce 45, although nonce 3 solves: the cursor was not
    reset, and the result is not the first solution of 0 .. 1000000. *)
Lemma mine_block_cursor_not_reset :
  let m1 := snd (mine_block adjusted_miner "payload" 0 1) in
  let out := fst (mine_block m1 "block_1" 1 2) in
  option_map nonce out = Some 45 /\
  solves Sha256.hexdigest "block_1" "0" 3 = true /\
  ~ searched Sha256.hexdigest m1 "block_1" out 0 1000000.
Proof.
  cbv zeta. rewrite mine_payload. cbn [snd].
  assert (E : mine_block
                {| difficulty := 1000; current_nonce := 36; target_hash := "0";
                   mining_power := 50 |} "block_1" 1 2
              = (Some {| hash := Sha256.hexdigest "block_145"; nonce := 45;
                         mining_time := 2 - 1; hashrate := 50 |},
                 {| difficulty := 1000; current_nonce := 45;
                    target_hash := "0"; mining_power := 50 |}))
    by (vm_compute; reflexivity).
  rewrite E. cbn [fst option_map nonce].
  assert (Hs : solves Sha256.hexdigest "block_1" "0" 3 = true)
    by (vm_compute; reflexivity).
  split; [reflexivity|]. split; [exact Hs|].
  intros [(_ & _ & Hmin) _]. cbn [nonce target_hash] in Hmin.
  rewrite (Hmin 3) in Hs by lia. discriminate.
Qed.

(** *** Calls of [adjust_difficulty] between searches *)

Lemma str_mul_one : str_mul "0" 1 = inr "0"%string.
Proof. reflexivity. Qed.

(** ["0" * k] gives the zeros when [k] fits an index, and
    [OverflowError] when it does not. *)
Lemma str_mul_zeros k :
  - sys_maxsize - 1 <= k <= sys_maxsize ->
  str_mul "0" k = inr (str_repeat "0" (Z.to_nat k)).
Proof.
  intros [Hlo Hhi]. unfold str_mul.
  replace (k <? - sys_maxsize - 1) with false
    by (symmetry; apply Z.ltb_ge; lia).
  replace (sys_maxsize <? k) with false by (symmetry; apply Z.ltb_ge; lia).
  cbn [orb]. destruct (k <=? 0) eqn:E.
  - apply Z.leb_le in E. replace (Z.to_nat k) with O by lia. reflexivity.
  - change (Z.of_nat (String.length "0")) with 1. rewrite Z.mul_1_l.
    replace (sys_maxsize <? k) with false
      by (symmetry; apply Z.ltb_ge; lia).
    reflexivity.
Qed.

Lemma str_mul_overflow k :
  k < - sys_maxsize - 1 \/ sys_maxsize < k ->
  str_mul "0" k = inl OverflowError.
Proof.
  intro H. unfold str_mul.
  replace ((k <? - sys_maxsize - 1) || (sys_maxsize <? k)) with true;
    [reflexivity|].
  symmetry. apply orb_true_iff.
  destruct H; [left; apply Z.ltb_lt|right; apply Z.ltb_lt]; assumption.
Qed.

(** The three ways a call ends: the product raises and nothing has
    changed; the repetition raises and only the difficulty has changed;
    the call returns with the new difficulty and its prefix. *)
Lemma adjust_difficulty_outcome m t :
  match next_difficulty m t with
  | inl e => adjust_difficulty m t = inl (e, m)
  | inr d =>
      if (- sys_maxsize - 1 <=? d / 1000000 + 1)
         && (d / 1000000 + 1 <=? sys_maxsize)
      then adjust_difficulty m t
           = inr {| difficulty := d; current_nonce := current_nonce m;
                    target_hash :=
                      str_repeat "0" (Z.to_nat (d / 1000000 + 1));
                    mining_power := mining_power m |}
      else adjust_difficulty m t
           = inl (OverflowError,
                  {| difficulty := d; current_nonce := current_nonce m;
                     target_hash := target_hash m;
                     mining_power := mining_power m |})
  end.
Proof.
  unfold adjust_difficulty.
  destruct (next_difficulty m t) as [e|d]; [reflexivity|].
  destruct (- sys_maxsize - 1 <=? d / 1000000 + 1) eqn:E1;
    [destruct (d / 1000000 + 1 <=? sys_maxsize) eqn:E2|]; cbn [andb].
  - apply Z.leb_le in E1, E2. now rewrite str_mul_zeros.
  - apply Z.leb_gt in E2. rewrite str_mul_overflow by now right. reflexivity.
  - apply Z.leb_gt in E1. rewrite str_mul_overflow by now left. reflexivity.
Qed.

(** However a call ends, the cursor and the mining power are as before. *)
Lemma adjust_difficulty_keeps m t :
  current_nonce (state_after (adjust_difficulty m t)) = current_nonce m /\
  mining_power (state_after (adjust_difficulty m t)) = mining_power m.
Proof.
  pose proof (adjust_difficulty_outcome m t) as H.
  destruct (next_difficulty m t) as [e|d]; [now rewrite H|].
  destruct (_ && _); rewrite H; split; reflexivity.
Qed.

Lemma miner_step_cursor m o :
  current_nonce m <= current_nonce (miner_step m o)
  <= Z.max (current_nonce m) 1000000.
Proof.
  destruct o as [block_data t0 t1|t]; cbn [miner_step].
  - destruct (mine_block_with_searches Sha256.hexdigest m block_data t0 t1)
      as (Hs & Hc & _).
    fold (mine_block m block_data t0 t1) in Hs, Hc. rewrite Hc.
    destruct (fst (mine_block m block_data t0 t1)) as [r|]; [|lia].
    destruct Hs as [(Hk & _) _]. lia.
  - destruct (adjust_difficulty_keeps m t) as [-> _]. lia.
Qed.

Lemma cursor_bounds ops : forall m,
  current_nonce m <= current_nonce (miner_run m ops)
  <= Z.max (current_nonce m) 1000000.
Proof.
  unfold miner_run.
  induction ops as [|o ops IH]; intro m; cbn [fold_left]; [lia|].
  pose proof (miner_step_cursor m o). specialize (IH (miner_step m o)). lia.
Qed.

(** C4, as the code has it.  A second call of [mine_block] with the same
    payload that directly follows the first returns the same hash and
    nonce, or nothing both times; the readings of the clock do not
    matter.  With other calls in between that leave the engine with the
    same prefix, the second call returns nothing if the first did, and
    otherwise starts at or beyond the nonce the first call returned: it
    returns the same hash and nonce exactly when the cursor is still on
    that nonce. *)
Theorem mine_block_same_result_iff_cursor_kept m block_data t0 t1 t2 t3 :
  let first := mine_block m block_data t0 t1 in
  let pair := option_map (fun r => (hash r, nonce r)) in
  (target_hash (snd first) = target_hash m /\
   pair (fst (mine_block (snd first) block_data t2 t3)) = pair (fst first)) /\
  forall ops,
    let later := miner_run (snd first) ops in
    let second := mine_block later block_data t2 t3 in
    target_hash later = target_hash m ->
    (fst first = None -> fst second = None) /\
    (forall r, fst first = Some r ->
       nonce r <= current_nonce later /\
       (pair (fst second) = pair (fst first)
        <-> current_nonce later = nonce r)).
Proof.
  cbv zeta.
  destruct (mine_block_with_searches Sha256.hexdigest m block_data t0 t1)
    as (Hs & Hc & Ht & _).
  fold (mine_block m block_data t0 t1) in Hs, Hc, Ht.
  split; [split; [exact Ht|apply (mine_block_with_twice Sha256.hexdigest)]|].
  intros ops Hsame.
  set (later := miner_run (snd (mine_block m block_data t0 t1)) ops) in *.
  pose proof (cursor_bounds ops (snd (mine_block m block_data t0 t1)))
    as Hcur.
  fold later in Hcur. rewrite Hc in Hcur.
  destruct (mine_block_with_searches Sha256.hexdigest later block_data t2 t3)
    as (Hs2 & _).
  fold (mine_block later block_data t2 t3) in Hs2.
  unfold searched in Hs, Hs2. rewrite Hsame in Hs2.
  destruct (fst (mine_block m block_data t0 t1)) as [r|].
  - split; [discriminate|]. intros r0 Hr0. injection Hr0 as <-.
    destruct Hs as [(Hk & Hsol & _) Hh]. split; [lia|].
    destruct (fst (mine_block later block_data t2 t3)) as [r2|];
      cbn [option_map]; split.
    + intro Hp. injection Hp as _ Hn.
      destruct Hs2 as [((Hlo & _) & _) _]. lia.
    + intro Hk2. destruct Hs2 as [((Hlo & Hhi) & _ & Hmin) Hh2].
      assert (Hn : nonce r2 = nonce r).
      { destruct (Z.eq_dec (nonce r2) (nonce r)) as [E|E]; [exact E|].
        rewrite (Hmin (nonce r)) in Hsol by lia. discriminate. }
      now rewrite Hh2, Hh, Hn.
    + discriminate.
    + intro Hk2. exfalso. rewrite (Hs2 (nonce r)) in Hsol by lia.
      discriminate.
  - split; [|discriminate]. intros _.
    unfold mine_block.
    rewrite (mine_block_with_after_exhaustion Sha256.hexdigest) by lia.
    reflexivity.
Qed.

Lemma mine_block_same_result_iff_cursor_kept_witness :
  let first := mine_block adjusted_miner "genesis" 0 1 in
  let later := miner_run (snd first) [op_adjust 600; op_mine "genesis" 1 2] in
  option_map (fun r => (hash r, nonce r))
    (fst (mine_block later "genesis" 2 3))
  = option_map (fun r => (hash r, nonce r)) (fst first).
Proof.
  cbv zeta.
  destruct (mine_block_same_result_iff_cursor_kept adjusted_miner "genesis"
              0 1 2 3) as [_ H].
  destruct (H [op_adjust 600; op_mine "genesis" 1 2]) as [_ Hsome].
  - vm_compute. reflexivity.
  - assert (E : exists r, fst (mine_block adjusted_miner "genesis" 0 1)
                          = Some r /\ nonce r = 1).
    { eexists. split; vm_compute; reflexivity. }
    destruct E as (r & Hr & Hn).
    apply (Hsome r Hr). rewrite Hn. vm_compute. reflexivity.
Defined.

Lemma pair_nonce (a b : option MiningResult) :
  option_map (fun r => (hash r, nonce r)) a
  = option_map (fun r => (hash r, nonce r)) b ->
  option_map nonce a = option_map nonce b.
Proof.
  destruct a, b; cbn; intro H; try discriminate; [|reflexivity].
  injection H as _ Hn. now rewrite Hn.
Qed.

(** Two calls for the same payload on one engine, with the same prefix,
    return different nonces when a call for another payload came in
    between: it moved the cursor from 1 to 36, past the first result. *)
Lemma mine_block_depends_on_cursor :
  let first := mine_block adjusted_miner "genesis" 0 1 in
  let m2 := snd (mine_block (snd first) "payload" 0 1) in
  let second := mine_block m2 "genesis" 0 1 in
  target_hash m2 = target_hash adjusted_miner /\
  option_map nonce (fst first) = Some 1 /\
  option_map nonce (fst second) = Some 38 /\
  option_map (fun r => (hash r, nonce r)) (fst second)
  <> option_map (fun r => (hash r, nonce r)) (fst first).
Proof.
  cbv zeta.
  assert (E1 : option_map nonce (fst (mine_block adjusted_miner "genesis" 0 1))
               = Some 1) by (vm_compute; reflexivity).
  assert (E2 : option_map nonce
                 (fst (mine_block
                         (snd (mine_block
                                 (snd (mine_block adjusted_miner "genesis" 0 1))
                                 "payload" 0 1)) "genesis" 0 1))
               = Some 38) by (vm_compute; reflexivity).
  split; [vm_compute; reflexivity|]. split; [exact E1|]. split; [exact E2|].
  intro H. apply pair_nonce in H. rewrite E1, E2 in H. discriminate.
Qed.


Lemma long_target_reached :
  exists m, adjust_difficulty (MiningSimulator_init 64000000 50) 600 = inr m /\
            String.length (target_hash m) = 65%nat.
Proof. eexists. split; vm_compute; reflexivity. Qed.

(** *** The target prefix *)

(** The prefix of an engine is the constructor's "0000" or the string
    [adjust_difficulty] computed from the difficulty, unless the
    difficulty is one whose prefix cannot be built. *)
Lemma miner_reachable_target m :
  miner_reachable m ->
  target_hash m = "0000"%string \/
  target_hash m = str_repeat "0" (Z.to_nat (difficulty m / 1000000 + 1)) \/
  ~ (- sys_maxsize - 1 <= difficulty m / 1000000 + 1 <= sys_maxsize).
Proof.
  induction 1 as [d power|m block_data t0 t1 Hm IH|m t m' Hm IH Ha
                 |m t e m' Hm IH Ha].
  - now left.
  - destruct (mine_block_with_searches Sha256.hexdigest m block_data t0 t1)
      as (_ & _ & Ht & Hd).
    fold (mine_block m block_data t0 t1) in Ht, Hd. now rewrite Ht, Hd.
  - pose proof (adjust_difficulty_outcome m t) as H.
    destruct (next_difficulty m t) as [e|d]; [congruence|].
    destruct (_ && _); rewrite H in Ha; [|discriminate].
    injection Ha as <-. right. left. reflexivity.
  - pose proof (adjust_difficulty_outcome m t) as H.
    destruct (next_difficulty m t) as [e0|d].
    + rewrite H in Ha. injection Ha as _ <-. exact IH.
    + destruct (- sys_maxsize - 1 <=? d / 1000000 + 1) eqn:E1;
        [destruct (d / 1000000 + 1 <=? sys_maxsize) eqn:E2|];
        cbn [andb] in H; rewrite H in Ha; [discriminate| |];
        injection Ha as _ <-; right; right; cbn [difficulty];
        [apply Z.leb_gt in E2|apply Z.leb_gt in E1]; lia.
Qed.

Lemma payload_zero_unsolved :
  solves Sha256.hexdigest "payload" "0" 0 = false /\
  solves Sha256.hexdigest "payload" "0000" 0 = false.
Proof. vm_compute. split; reflexivity. Qed.

(** C7, as the code has it.  On an engine of difficulty 0 to 999999 the
    target prefix is not empty: it is the constructor's "0000" or, after
    [adjust_difficulty], "0".  Mining ["payload"] therefore never
    succeeds at nonce 0, whose digest starts with f: the call returns the
    first nonce from the cursor up to 999999 whose digest starts with
    the prefix, and nothing when there is none, as on an engine whose
    cursor has reached 1000000. *)
Theorem low_difficulty_target_not_empty m :
  miner_reachable m -> 0 <= difficulty m <= 999999 ->
  (target_hash m = "0000"%string \/ target_hash m = "0"%string) /\
  forall t0 t1,
    let out := fst (mine_block m "payload" t0 t1) in
    searched Sha256.hexdigest m "payload" out (current_nonce m) 999999 /\
    (forall r, out = Some r -> nonce r <> 0) /\
    (1000000 <= current_nonce m -> out = None).
Proof.
  intros Hm Hd.
  assert (Hq : difficulty m / 1000000 = 0) by (apply Z.div_small; lia).
  assert (Ht : target_hash m = "0000"%string \/ target_hash m = "0"%string).
  { destruct (miner_reachable_target m Hm) as [H|[H|H]]; [now left|right|].
    - rewrite H, Hq. reflexivity.
    - exfalso. apply H. rewrite Hq. unfold sys_maxsize. lia. }
  split; [exact Ht|].
  intros t0 t1. cbv zeta.
  destruct (mine_block_with_searches Sha256.hexdigest m "payload" t0 t1)
    as (Hs & _).
  fold (mine_block m "payload" t0 t1) in Hs.
  split; [exact Hs|]. split.
  - intros r Hr Hz. rewrite Hr in Hs.
    destruct Hs as [(_ & Hs & _) _]. rewrite Hz in Hs.
    destruct payload_zero_unsolved as [H1 H4].
    destruct Ht as [Ht|Ht]; rewrite Ht in Hs; congruence.
  - intro Hc. unfold mine_block.
    now rewrite (mine_block_with_after_exhaustion Sha256.hexdigest).
Qed.

Lemma low_difficulty_target_not_empty_witness :
  exists r, fst (mine_block adjusted_miner "payload" 0 1) = Some r /\
            nonce r = 36 /\ nonce r <> 0 /\
            target_hash adjusted_miner = "0"%string.
Proof.
  destruct (low_difficulty_target_not_empty adjusted_miner) as [_ H].
  - apply (reach_miner_adjust (MiningSimulator_init 1000 50) 600).
    + apply reach_miner_init.
    + exact adjusted_miner_reached.
  - cbn. lia.
  - destruct (H 0%Q 1%Q) as (_ & Hnz & _).
    eexists. split; [rewrite mine_payload; reflexivity|].
    split; [reflexivity|]. split; [|reflexivity].
    apply Hnz. rewrite mine_payload. reflexivity.
Defined.

(** On a new engine of difficulty 1000 the prefix has four characters. *)
Lemma solved_at_once_fails :
  difficulty (MiningSimulator_init 1000 50) <= 999999 /\
  String.length (target_hash (MiningSimulator_init 1000 50)) = 4%nat /\
  ~ solved_at_once (MiningSimulator_init 1000 50).
Proof.
  split; [cbn; lia|]. split; [reflexivity|].
  intros [H _]. discriminate H.
Qed.

(** An empty prefix arises from a negative difficulty only; mining then
    succeeds at the first nonce. *)
Lemma negative_difficulty_empty_target :
  exists m, adjust_difficulty (MiningSimulator_init (-1) 50) 600 = inr m /\
            target_hash m = EmptyString /\
            option_map nonce (fst (mine_block m "payload" 0 1)) = Some 0.
Proof. eexists. repeat split; vm_compute; reflexivity. Qed.

(** ** Binary64: [int(difficulty * 1.5)] and [int(difficulty * 0.75)] *)

Lemma digits2_pos_size p : digits2_pos p = Pos.size p.
Proof. induction p; simpl; congruence. Qed.

Lemma dig_log2 p : dig p = Z.log2 (Zpos p) + 1.
Proof.
  unfold dig. rewrite digits2_pos_size.
  destruct p; simpl; try rewrite Pos.add_1_r; reflexivity.
Qed.

Lemma dig_spec p : 2 ^ (dig p - 1) <= Zpos p < 2 ^ dig p.
Proof.
  rewrite dig_log2. replace (Z.log2 (Zpos p) + 1 - 1) with (Z.log2 (Zpos p)) by lia.
  replace (Z.log2 (Zpos p) + 1) with (Z.succ (Z.log2 (Zpos p))) by lia.
  apply Z.log2_spec. lia.
Qed.

Lemma dig_pos p : 1 <= dig p.
Proof. unfold dig. lia. Qed.

Lemma dig_unique p k : 2 ^ (k - 1) <= Zpos p < 2 ^ k -> dig p = k.
Proof.
  intros [Hlo Hhi]. rewrite dig_log2.
  assert (0 < k).
  { destruct (Z.lt_trichotomy k 0) as [H|[H|H]]; auto.
    - rewrite Z.pow_neg_r in Hhi by lia. lia.
    - subst k. simpl in Hhi. lia. }
  assert (Z.log2 (Zpos p) = k - 1); [|lia].
  apply Z.log2_unique; [lia|]. replace (Z.succ (k - 1)) with k by lia. now split.
Qed.

Lemma dig_shift p k m :
  0 <= k -> Zpos m = Zpos p * 2 ^ k -> dig m = dig p + k.
Proof.
  intros Hk Hm. apply dig_unique. rewrite Hm.
  pose proof (dig_spec p) as [Hlo Hhi]. pose proof (dig_pos p).
  replace (dig p + k - 1) with (dig p - 1 + k) by lia.
  rewrite !Z.pow_add_r by lia.
  assert (0 < 2 ^ k) by (apply Z.pow_pos_nonneg; lia).
  split; nia.
Qed.

Lemma iter_xO m d : Zpos (Pos.iter xO m d) = Zpos m * 2 ^ Zpos d.
Proof.
  induction d as [|d IH] using Pos.peano_ind.
  - simpl. lia.
  - rewrite Pos.iter_succ, Pos2Z.inj_succ, Z.pow_succ_r by lia.
    rewrite Pos2Z.inj_xO, IH. lia.
Qed.

Lemma iter_pos_iter {A} (f : A -> A) n : forall a, iter_pos f n a = Pos.iter f a n.
Proof.
  induction n as [n IH|n IH|]; intro a; simpl; [|now rewrite !IH|reflexivity].
  rewrite !IH. now rewrite 2!Pos.iter_swap.
Qed.

(** Shifting out zero bits loses nothing. *)
Lemma shr_exact n : forall q,
  iter_pos shr_1 n (exact_record (Zpos q * 2 ^ Zpos n)) = exact_record (Zpos q).
Proof.
  induction n as [|n IH] using Pos.peano_ind; intro q.
  - replace (Zpos q * 2 ^ 1) with (Zpos q~0) by lia. reflexivity.
  - rewrite iter_pos_iter, Pos.iter_succ, <- iter_pos_iter.
    rewrite Pos2Z.inj_succ, Z.pow_succ_r by lia.
    replace (Zpos q * (2 * 2 ^ Zpos n)) with (Zpos (q~0) * 2 ^ Zpos n) by lia.
    rewrite IH. reflexivity.
Qed.

Lemma fexp64_eq e : fexp64 e = Z.max (e - 53) (-1074).
Proof. reflexivity. Qed.

(** A product [q * 2^k] whose significand [q] has 53 bits is a float as
    it stands. *)
Lemma binary_round_aux_exact s M q k E :
  Zpos M = Zpos q * 2 ^ k -> 0 <= k -> dig q = 53 ->
  -1074 <= E + k <= 971 ->
  binary_round_aux Float64.prec Float64.emax s (Zpos M) E loc_Exact
  = S754_finite s q (E + k).
Proof.
  intros HM Hk Hq HE.
  assert (HdM : dig M = 53 + k) by (rewrite <- Hq; now apply dig_shift).
  unfold binary_round_aux.
  assert (Hfirst : shr_fexp Float64.prec Float64.emax (Zpos M) E loc_Exact
                   = (exact_record (Zpos q), E + k)).
  { unfold shr_fexp. cbn [Zdigits2 shr_record_of_loc]. fold (dig M). fold fexp64.
    rewrite fexp64_eq, HdM.
    replace (Z.max (53 + k + E - 53) (-1074) - E) with k by lia.
    unfold shr. destruct k as [|p|p]; [| |lia].
    - rewrite Z.add_0_r. f_equal. unfold exact_record. f_equal. rewrite HM. simpl. lia.
    - f_equal. fold (exact_record (Zpos M)). rewrite HM. apply shr_exact. }
  rewrite Hfirst. cbn [exact_record shr_m loc_of_shr_record round_nearest_even].
  assert (Hsecond : shr_fexp Float64.prec Float64.emax (Zpos q) (E + k) loc_Exact
                    = (exact_record (Zpos q), E + k)).
  { unfold shr_fexp. cbn [Zdigits2 shr_record_of_loc]. fold (dig q). fold fexp64.
    rewrite fexp64_eq, Hq.
    replace (Z.max (53 + (E + k) - 53) (-1074) - (E + k)) with 0 by lia.
    reflexivity. }
  rewrite Hsecond. cbn [exact_record shr_m].
  replace (E + k <=? Float64.emax - Float64.prec) with true; [reflexivity|].
  symmetry. apply Z.leb_le. unfold Float64.emax, Float64.prec. lia.
Qed.

Lemma norm_eq p : dig p <= 53 -> Zpos (norm p) = Zpos p * 2 ^ (53 - dig p).
Proof.
  intro H. unfold norm. rewrite Z2Pos.id; [reflexivity|].
  assert (0 < 2 ^ (53 - dig p)) by (apply Z.pow_pos_nonneg; lia). nia.
Qed.

Lemma dig_norm p : dig p <= 53 -> dig (norm p) = 53.
Proof.
  intro H. rewrite (dig_shift p (53 - dig p) (norm p)); [lia|lia|now apply norm_eq].
Qed.

Lemma dig_le p k : Zpos p < 2 ^ k -> dig p <= k.
Proof.
  intro H. pose proof (dig_spec p) as [Hlo _]. pose proof (dig_pos p).
  destruct (Z.le_gt_cases (dig p) k) as [|Hgt]; [assumption|exfalso].
  assert (2 ^ k <= 2 ^ (dig p - 1)) by (apply Z.pow_le_mono_r; lia). lia.
Qed.

(** Integers below 2^53 convert without rounding. *)
Lemma of_int_exact p :
  Zpos p < 2 ^ 53 ->
  Float64.of_int (Zpos p) = inr (S754_finite false (norm p) (dig p - 53)).
Proof.
  intro Hp. apply dig_le in Hp.
  unfold Float64.of_int, binary_normalize, binary_round.
  fold (dig p). fold fexp64. rewrite fexp64_eq.
  replace (Z.max (dig p + 0 - 53) (-1074)) with (dig p - 53) by (pose proof (dig_pos p); lia).
  assert (Hal : exists mz, shl_align p 0 (dig p - 53) = (mz, dig p - 53) /\ mz = norm p).
  { unfold shl_align. rewrite Z.sub_0_r.
    destruct (dig p - 53) as [|e|e] eqn:E; [| pose proof (Zgt_pos_0 e); lia |].
    - exists p. split; [reflexivity|].
      apply Pos2Z.inj. rewrite norm_eq by lia.
      replace (53 - dig p) with 0 by lia. simpl. lia.
    - eexists. split; [reflexivity|].
      apply Pos2Z.inj. rewrite norm_eq by lia. rewrite iter_xO.
      f_equal. f_equal. lia. }
  destruct Hal as (mz & -> & ->).
  rewrite (binary_round_aux_exact false (norm p) (norm p) 0 (dig p - 53)).
  - rewrite Z.add_0_r. reflexivity.
  - simpl. lia.
  - lia.
  - now apply dig_norm.
  - pose proof (dig_pos p). lia.
Qed.

(** Multiplying by [3 * 2^51 * 2^ec] is exact as long as [3 * n] keeps
    to 53 bits. *)
Lemma mul_three_exact p ec :
  3 * Zpos p < 2 ^ 53 -> -60 <= ec <= -50 ->
  Float64.mul (S754_finite false (norm p) (dig p - 53))
              (S754_finite false 6755399441055744 ec)
  = S754_finite false (norm (3 * p)) (dig (3 * p) + ec - 2).
Proof.
  intros H3 Hec.
  assert (Hp : Zpos p < 2 ^ 53) by lia.
  pose proof (dig_le _ _ Hp) as Hdp.
  assert (Hd3 : dig (3 * p) <= 53) by (apply dig_le; now rewrite Pos2Z.inj_mul).
  assert (Hmono : dig p + 1 <= dig (3 * p)).
  { pose proof (dig_spec p) as [Hlo _]. pose proof (dig_spec (3 * p)) as [_ Hhi].
    rewrite Pos2Z.inj_mul in Hhi. pose proof (dig_pos p).
    destruct (Z.le_gt_cases (dig p + 1) (dig (3 * p))) as [|Hgt]; [assumption|exfalso].
    assert (2 ^ dig (3 * p) <= 2 ^ dig p) by (apply Z.pow_le_mono_r; lia).
    assert (2 ^ dig p = 2 * 2 ^ (dig p - 1)).
    { rewrite <- Z.pow_succ_r by lia. f_equal. lia. }
    lia. }
  unfold Float64.mul, SFmul. cbn [xorb].
  rewrite (binary_round_aux_exact false _ (norm (3 * p)) (51 - dig p + dig (3 * p))).
  - f_equal. lia.
  - rewrite Pos2Z.inj_mul, !norm_eq by lia. rewrite Pos2Z.inj_mul.
    replace (Z.pos 6755399441055744) with (3 * 2 ^ 51) by reflexivity.
    replace (51 - dig p + dig (3 * p)) with ((53 - dig p) + 51 - (53 - dig (3 * p))) by lia.
    pose proof (dig_pos p). pose proof (dig_pos (3 * p)).
    set (a := 53 - dig p) in *. set (b := 53 - dig (3 * p)) in *.
    replace (a + 51 - b) with ((a - b) + 51) by lia.
    replace a with ((a - b) + b) at 1 by lia.
    rewrite !Z.pow_add_r by lia. ring.
  - lia.
  - now apply dig_norm.
  - pose proof (dig_pos p). lia.
Qed.

Lemma to_int_norm p e :
  dig p <= 53 -> e < 0 -> 53 - dig p <= - e ->
  Float64.to_int (S754_finite false (norm p) e)
  = inr (Zpos p / 2 ^ (- e - (53 - dig p))).
Proof.
  intros Hd He Hle. unfold Float64.to_int, ret, cond_Zopp.
  replace (0 <=? e) with false by (symmetry; apply Z.leb_gt; lia).
  f_equal. rewrite norm_eq by assumption.
  replace (- e) with ((- e - (53 - dig p)) + (53 - dig p)) at 1 by lia.
  rewrite Z.pow_add_r by lia.
  apply Z.div_mul_cancel_r.
  - apply Z.pow_nonzero; lia.
  - apply Z.pow_nonzero; lia.
Qed.

Lemma int_mul_float_1_5 n :
  0 < n -> 3 * n < 2 ^ 53 ->
  Float64.int_mul_float n Float64.lit_1_5 = inr (3 * n / 2).
Proof.
  intros Hn H3. destruct n as [|p|p]; try lia.
  unfold Float64.int_mul_float, Float64.lit_1_5.
  rewrite of_int_exact by lia. cbn [bind].
  rewrite mul_three_exact by lia.
  assert (Hd3 : dig (3 * p) <= 53) by (apply dig_le; now rewrite Pos2Z.inj_mul).
  pose proof (dig_pos (3 * p)).
  rewrite to_int_norm by lia. f_equal. rewrite Pos2Z.inj_mul.
  f_equal. replace (- (dig (3 * p) + -52 - 2) - (53 - dig (3 * p))) with 1 by lia.
  reflexivity.
Qed.

Lemma int_mul_float_0_75 n :
  0 < n -> 3 * n < 2 ^ 53 ->
  Float64.int_mul_float n Float64.lit_0_75 = inr (3 * n / 4).
Proof.
  intros Hn H3. destruct n as [|p|p]; try lia.
  unfold Float64.int_mul_float, Float64.lit_0_75.
  rewrite of_int_exact by lia. cbn [bind].
  rewrite mul_three_exact by lia.
  assert (Hd3 : dig (3 * p) <= 53) by (apply dig_le; now rewrite Pos2Z.inj_mul).
  pose proof (dig_pos (3 * p)).
  rewrite to_int_norm by lia. f_equal. rewrite Pos2Z.inj_mul.
  f_equal. replace (- (dig (3 * p) + -53 - 2) - (53 - dig (3 * p))) with 2 by lia.
  reflexivity.
Qed.

Lemma shr_1_m r : 0 <= shr_m r -> shr_m (shr_1 r) = shr_m r / 2.
Proof.
  destruct r as [m b c]. cbn [shr_m]. intro H.
  rewrite <- Z.div2_div.
  destruct m as [|[p|p|]|]; cbn [shr_1 shr_m]; try reflexivity; lia.
Qed.

Lemma shr_iter_m n : forall r,
  0 <= shr_m r -> shr_m (iter_pos shr_1 n r) = shr_m r / 2 ^ Zpos n.
Proof.
  induction n as [|n IH] using Pos.peano_ind; intros r Hr.
  - cbn [iter_pos]. rewrite shr_1_m by assumption. reflexivity.
  - rewrite iter_pos_iter, Pos.iter_succ, <- iter_pos_iter.
    assert (0 < 2 ^ Zpos n) by (apply Z.pow_pos_nonneg; lia).
    rewrite shr_1_m; rewrite IH by assumption.
    + rewrite Z.div_div by lia.
      rewrite Pos2Z.inj_succ, Z.pow_succ_r by lia. f_equal. lia.
    + apply Z.div_pos; lia.
Qed.

Lemma round_nearest_even_cases m l :
  round_nearest_even m l = m \/ round_nearest_even m l = m + 1.
Proof.
  destruct l as [|[]]; cbn [round_nearest_even]; auto.
  destruct (Z.even m); auto.
Qed.

Lemma dig_53 p : 2 ^ 52 <= Zpos p < 2 ^ 53 -> dig p = 53.
Proof. intro H. now apply dig_unique. Qed.

(** Rounding a significand of 53 bits or more gives a normal float whose
    exponent is the expected one, or one more after a carry; it
    overflows only when that exponent is beyond the largest one. *)
Lemma binary_round_aux_cases s M E :
  53 <= dig M -> -1074 <= dig M + E - 53 ->
  (binary_round_aux Float64.prec Float64.emax s (Zpos M) E loc_Exact
   = S754_infinity s /\ 971 < dig M + E - 52) \/
  exists m e,
    binary_round_aux Float64.prec Float64.emax s (Zpos M) E loc_Exact
    = S754_finite s m e /\
    dig m = 53 /\ dig M + E - 53 <= e <= dig M + E - 52.
Proof.
  intros HD Hlo.
  pose proof (dig_spec M) as [HMlo HMhi].
  unfold binary_round_aux.
  assert (Hfirst : exists r1,
            shr_fexp Float64.prec Float64.emax (Zpos M) E loc_Exact
            = (r1, dig M + E - 53) /\ 2 ^ 52 <= shr_m r1 < 2 ^ 53).
  { unfold shr_fexp. cbn [Zdigits2 shr_record_of_loc]. fold (dig M). fold fexp64.
    rewrite fexp64_eq.
    replace (Z.max (dig M + E - 53) (-1074) - E) with (dig M - 53) by lia.
    unfold shr. destruct (dig M - 53) as [|n|n] eqn:En; [| |lia].
    - eexists. split; [f_equal; lia|]. cbn [shr_m].
      replace (dig M) with 53 in * by lia. simpl in *. lia.
    - eexists. split; [f_equal; lia|].
      rewrite shr_iter_m by (cbn; lia). cbn [shr_m].
      assert (0 < 2 ^ Zpos n) by (apply Z.pow_pos_nonneg; lia).
      assert (H1 : 2 ^ (dig M - 1) = 2 ^ 52 * 2 ^ Zpos n).
      { rewrite <- Z.pow_add_r by lia. f_equal. lia. }
      assert (H2 : 2 ^ dig M = 2 ^ 53 * 2 ^ Zpos n).
      { rewrite <- Z.pow_add_r by lia. f_equal. lia. }
      split.
      + apply Z.div_le_lower_bound; lia.
      + apply Z.div_lt_upper_bound; lia. }
  destruct Hfirst as (r1 & -> & Hr1).
  set (e1 := dig M + E - 53) in *.
  destruct (round_nearest_even_cases (shr_m r1) (loc_of_shr_record r1)) as [Hm|Hm];
    rewrite Hm; clear Hm.
  - destruct (shr_m r1) as [|p|p] eqn:Ep; [simpl in Hr1; lia| |lia].
    unfold shr_fexp. cbn [Zdigits2 shr_record_of_loc]. fold (dig p). fold fexp64.
    rewrite fexp64_eq, (dig_53 p Hr1).
    replace (Z.max (53 + e1 - 53) (-1074) - e1) with 0 by lia.
    cbn [shr shr_m].
    destruct (e1 <=? Float64.emax - Float64.prec) eqn:Ee;
      [right|left; split; [reflexivity|];
             apply Z.leb_gt in Ee; unfold Float64.emax, Float64.prec in Ee; lia].
    exists p, e1. split; [reflexivity|]. split; [now apply dig_53|lia].
  - destruct (Z.eq_dec (shr_m r1 + 1) (2 ^ 53)) as [Hc|Hc].
    + rewrite Hc.
      unfold shr_fexp. replace (Zdigits2 (2 ^ 53)) with 54 by reflexivity.
      fold fexp64. rewrite fexp64_eq.
      replace (Z.max (54 + e1 - 53) (-1074) - e1) with 1 by lia.
      cbn [shr shr_record_of_loc iter_pos].
      replace (shr_m (shr_1 {| shr_m := 2 ^ 53; shr_r := false; shr_s := false |}))
        with (Zpos 4503599627370496) by reflexivity.
      destruct (e1 + 1 <=? Float64.emax - Float64.prec) eqn:Ee;
        [right|left; split; [reflexivity|];
               apply Z.leb_gt in Ee; unfold Float64.emax, Float64.prec in Ee; lia].
      exists 4503599627370496%positive, (e1 + 1).
      split; [reflexivity|]. split; [reflexivity|lia].
    + destruct (shr_m r1 + 1) as [|p|p] eqn:Ep; [lia| |lia].
      assert (Hp : 2 ^ 52 <= Zpos p < 2 ^ 53) by lia.
      unfold shr_fexp. cbn [Zdigits2 shr_record_of_loc]. fold (dig p). fold fexp64.
      rewrite fexp64_eq, (dig_53 p Hp).
      replace (Z.max (53 + e1 - 53) (-1074) - e1) with 0 by lia.
      cbn [shr shr_m].
      destruct (e1 <=? Float64.emax - Float64.prec) eqn:Ee;
      [right|left; split; [reflexivity|];
             apply Z.leb_gt in Ee; unfold Float64.emax, Float64.prec in Ee; lia].
      exists p, e1. split; [reflexivity|]. split; [now apply dig_53|lia].
Qed.

Lemma binary_round_aux_bounds s M E :
  53 <= dig M -> -1074 <= dig M + E - 53 -> dig M + E - 52 <= 971 ->
  exists m e,
    binary_round_aux Float64.prec Float64.emax s (Zpos M) E loc_Exact
    = S754_finite s m e /\
    dig m = 53 /\ dig M + E - 53 <= e <= dig M + E - 52.
Proof.
  intros HD Hlo Hhi.
  destruct (binary_round_aux_cases s M E HD Hlo) as [[_ H]|H]; [lia|exact H].
Qed.

(** Every positive integer below 2^1023 converts to a normal float. *)
Lemma of_int_bounds p :
  Zpos p < 2 ^ 1023 ->
  exists m e, Float64.of_int (Zpos p) = inr (S754_finite false m e) /\
              dig m = 53 /\ dig p - 53 <= e <= dig p - 52.
Proof.
  intro Hp. destruct (Z.lt_ge_cases (Zpos p) (2 ^ 53)) as [Hs|Hl].
  - exists (norm p), (dig p - 53). split; [now apply of_int_exact|].
    split; [apply dig_norm; now apply dig_le|lia].
  - assert (Hd : 54 <= dig p).
    { pose proof (dig_spec p) as [_ Hhi].
      destruct (Z.le_gt_cases 54 (dig p)) as [|Hgt]; [assumption|exfalso].
      assert (2 ^ dig p <= 2 ^ 53) by (apply Z.pow_le_mono_r; lia). lia. }
    pose proof (dig_le _ _ Hp) as Hd'.
    unfold Float64.of_int, binary_normalize, binary_round.
    fold (dig p). fold fexp64. rewrite fexp64_eq.
    replace (Z.max (dig p + 0 - 53) (-1074)) with (dig p - 53) by lia.
    unfold shl_align. rewrite Z.sub_0_r.
    destruct (dig p - 53) as [|e|e] eqn:E; [lia| |lia]. rewrite <- E.
    destruct (binary_round_aux_bounds false p 0) as (m & e' & -> & Hm & He); try lia.
    exists m, e'. split; [reflexivity|]. split; [assumption|lia].
Qed.

Lemma dig_mul a b : dig a + dig b - 1 <= dig (a * b) <= dig a + dig b.
Proof.
  pose proof (dig_spec a) as [Ha1 Ha2]. pose proof (dig_spec b) as [Hb1 Hb2].
  pose proof (dig_pos a). pose proof (dig_pos b).
  assert (Hlo : 2 ^ (dig a + dig b - 2) <= Zpos (a * b)).
  { replace (dig a + dig b - 2) with ((dig a - 1) + (dig b - 1)) by lia.
    rewrite Z.pow_add_r, Pos2Z.inj_mul by lia.
    assert (0 < 2 ^ (dig a - 1)) by (apply Z.pow_pos_nonneg; lia).
    assert (0 < 2 ^ (dig b - 1)) by (apply Z.pow_pos_nonneg; lia). nia. }
  assert (Hhi : Zpos (a * b) < 2 ^ (dig a + dig b)).
  { rewrite Z.pow_add_r, Pos2Z.inj_mul by lia. nia. }
  pose proof (dig_spec (a * b)) as [Hc1 Hc2].
  split.
  - destruct (Z.le_gt_cases (dig a + dig b - 1) (dig (a * b))) as [|Hgt]; [assumption|exfalso].
    assert (2 ^ dig (a * b) <= 2 ^ (dig a + dig b - 2)) by (apply Z.pow_le_mono_r; lia). lia.
  - destruct (Z.le_gt_cases (dig (a * b)) (dig a + dig b)) as [|Hgt]; [assumption|exfalso].
    assert (2 ^ (dig a + dig b) <= 2 ^ (dig (a * b) - 1)) by (apply Z.pow_le_mono_r; lia). lia.
Qed.

(** A normal float of exponent at least -52 is at least 1. *)
Lemma to_int_positive m e :
  dig m = 53 -> -52 <= e ->
  exists v, Float64.to_int (S754_finite false m e) = inr v /\ 0 < v.
Proof.
  intros Hm He. pose proof (dig_spec m) as [Hlo _]. rewrite Hm in Hlo.
  unfold Float64.to_int, ret, cond_Zopp. eexists. split; [reflexivity|].
  destruct (0 <=? e) eqn:E0.
  - apply Z.leb_le in E0. assert (0 < 2 ^ e) by (apply Z.pow_pos_nonneg; lia). nia.
  - apply Z.leb_gt in E0.
    assert (0 < 2 ^ (- e)) by (apply Z.pow_pos_nonneg; lia).
    assert (2 ^ (- e) <= 2 ^ 52) by (apply Z.pow_le_mono_r; lia).
    apply Z.div_str_pos. replace (53 - 1) with 52 in Hlo by lia. lia.
Qed.

(** A positive integer converts to a normal float, or is too large. *)
Lemma of_int_cases p :
  Float64.of_int (Zpos p) = inl OverflowError \/
  exists m e, Float64.of_int (Zpos p) = inr (S754_finite false m e) /\
              dig m = 53 /\ dig p - 53 <= e.
Proof.
  destruct (Z.lt_ge_cases (Zpos p) (2 ^ 1023)) as [Hs|Hl].
  - right. destruct (of_int_bounds p Hs) as (m & e & H & Hm & He).
    exists m, e. split; [exact H|]. split; [exact Hm|lia].
  - assert (Hd : 1024 <= dig p).
    { pose proof (dig_spec p) as [_ Hhi].
      destruct (Z.le_gt_cases 1024 (dig p)) as [|Hgt]; [assumption|exfalso].
      assert (2 ^ dig p <= 2 ^ 1023) by (apply Z.pow_le_mono_r; lia). lia. }
    unfold Float64.of_int, binary_normalize, binary_round.
    fold (dig p). fold fexp64. rewrite fexp64_eq.
    replace (Z.max (dig p + 0 - 53) (-1074)) with (dig p - 53) by lia.
    unfold shl_align. rewrite Z.sub_0_r.
    destruct (dig p - 53) as [|e|e] eqn:E; [lia| |lia]. rewrite <- E.
    destruct (binary_round_aux_cases false p 0)
      as [[-> _]|(m & e' & -> & Hm & He)]; try lia.
    + now left.
    + right. exists m, e'. split; [reflexivity|]. split; [assumption|lia].
Qed.

(** For every integer from 2 on, [int(n * 1.5)] and [int(n * 0.75)] are
    positive when they are computed at all; what is raised otherwise is
    [OverflowError]. *)
Lemma int_mul_float_positive_or_overflow n ec :
  2 <= n -> -53 <= ec <= -52 ->
  Float64.int_mul_float n (S754_finite false 6755399441055744 ec)
  = inl OverflowError \/
  exists v, Float64.int_mul_float n (S754_finite false 6755399441055744 ec)
            = inr v /\ 0 < v.
Proof.
  intros Hn Hec. destruct n as [|p|p]; try lia.
  assert (Hd2 : 2 <= dig p).
  { pose proof (dig_spec p) as [_ Hhi].
    destruct (Z.le_gt_cases 2 (dig p)) as [|Hgt]; [assumption|exfalso].
    assert (2 ^ dig p <= 2 ^ 1) by (apply Z.pow_le_mono_r; pose proof (dig_pos p); lia).
    simpl in *. lia. }
  unfold Float64.int_mul_float.
  destruct (of_int_cases p) as [->|(m & e & -> & Hm & He)]; [now left|].
  cbn [bind]. unfold Float64.mul, SFmul. cbn [xorb].
  pose proof (dig_mul m 6755399441055744) as Hdm.
  replace (dig 6755399441055744) with 53 in Hdm by reflexivity. rewrite Hm in Hdm.
  destruct (binary_round_aux_cases false (m * 6755399441055744) (e + ec))
    as [[-> _]|(m' & e' & -> & Hm' & He')]; try lia.
  - now left.
  - right. apply to_int_positive; [assumption|lia].
Qed.

(** The two literals are the floats of 3/2 and 3/4. *)
Example lit_1_5_value :
  binary_normalize Float64.prec Float64.emax 3 (-1) false = Float64.lit_1_5.
Proof. reflexivity. Qed.

Example lit_0_75_value :
  binary_normalize Float64.prec Float64.emax 3 (-2) false = Float64.lit_0_75.
Proof. reflexivity. Qed.

(** ** Difficulty adjustment *)

Lemma Qltb_compat a a' b b' :
  (a == a')%Q -> (b == b')%Q -> Qltb a b = Qltb a' b'.
Proof.
  intros Ha Hb.
  destruct (Qltb a b) eqn:E1, (Qltb a' b') eqn:E2; auto.
  - apply Qltb_lt in E1. rewrite Ha, Hb in E1. apply Qltb_lt in E1. congruence.
  - apply Qltb_lt in E2. rewrite <- Ha, <- Hb in E2. apply Qltb_lt in E2.
    congruence.
Qed.

(** The thresholds are half and twice the target time of 600. *)
Lemma next_difficulty_thresholds m t :
  next_difficulty m t =
  if Qltb t 300
  then Float64.int_mul_float (difficulty m) Float64.lit_1_5
  else if Qltb 1200 t
  then Float64.int_mul_float (difficulty m) Float64.lit_0_75
  else ret (difficulty m).
Proof.
  unfold next_difficulty.
  rewrite (Qltb_compat t t (inject_Z target_time * 0.5) 300)
    by reflexivity.
  rewrite (Qltb_compat (inject_Z target_time * 2) 1200 t t) by reflexivity.
  reflexivity.
Qed.

(** A new difficulty below 2^53 has a prefix that can be built: the call
    returns. *)
Lemma adjust_difficulty_returns m t d :
  next_difficulty m t = inr d -> 0 <= d < 2 ^ 53 ->
  adjust_difficulty m t
  = inr {| difficulty := d; current_nonce := current_nonce m;
           target_hash := str_repeat "0" (Z.to_nat (d / 1000000 + 1));
           mining_power := mining_power m |}.
Proof.
  intros Hn Hd. pose proof (adjust_difficulty_outcome m t) as H.
  rewrite Hn in H.
  assert (H0 : 0 <= d / 1000000) by (apply Z.div_pos; lia).
  assert (H1 : d / 1000000 < 2 ^ 53) by (apply Z.div_lt_upper_bound; lia).
  assert (E1 : (- sys_maxsize - 1 <=? d / 1000000 + 1) = true)
    by (apply Z.leb_le; unfold sys_maxsize; lia).
  assert (E2 : (d / 1000000 + 1 <=? sys_maxsize) = true)
    by (apply Z.leb_le; unfold sys_maxsize; lia).
  now rewrite E1, E2 in H.
Qed.

Lemma adjust_difficulty_value m t d m' :
  next_difficulty m t = inr d -> adjust_difficulty m t = inr m' ->
  difficulty m' = d.
Proof.
  intros Hn Hm. pose proof (adjust_difficulty_outcome m t) as H.
  rewrite Hn in H.
  destruct (_ && _); rewrite H in Hm; [|discriminate].
  now injection Hm as <-.
Qed.

Lemma adjust_difficulty_fast m t :
  (t < 300)%Q -> 0 < difficulty m -> 3 * difficulty m < 2 ^ 53 ->
  exists m', adjust_difficulty m t = inr m' /\
             difficulty m' = 3 * difficulty m / 2.
Proof.
  intros Ht Hd H3.
  assert (Hn : next_difficulty m t = inr (3 * difficulty m / 2)).
  { rewrite next_difficulty_thresholds. apply Qltb_lt in Ht.
    now rewrite Ht, int_mul_float_1_5. }
  eexists. split; [apply (adjust_difficulty_returns m t _ Hn)|reflexivity].
  split; [apply Z.div_pos; lia|apply Z.div_lt_upper_bound; lia].
Qed.

Lemma adjust_difficulty_slow m t :
  (1200 < t)%Q -> 0 < difficulty m -> 3 * difficulty m < 2 ^ 53 ->
  exists m', adjust_difficulty m t = inr m' /\
             difficulty m' = 3 * difficulty m / 4.
Proof.
  intros Ht Hd H3.
  assert (Hge : Qltb t 300 = false).
  { apply Qltb_ge. apply Qlt_le_weak. eapply Qlt_trans; [|exact Ht].
    reflexivity. }
  assert (Hn : next_difficulty m t = inr (3 * difficulty m / 4)).
  { rewrite next_difficulty_thresholds. apply Qltb_lt in Ht.
    now rewrite Hge, Ht, int_mul_float_0_75. }
  eexists. split; [apply (adjust_difficulty_returns m t _ Hn)|reflexivity].
  split; [apply Z.div_pos; lia|apply Z.div_lt_upper_bound; lia].
Qed.

Lemma adjust_difficulty_on_target m t :
  (300 <= t <= 1200)%Q -> 0 <= difficulty m < 2 ^ 53 ->
  exists m', adjust_difficulty m t = inr m' /\ difficulty m' = difficulty m.
Proof.
  intros [Hlo Hhi] Hd.
  assert (Hn : next_difficulty m t = inr (difficulty m)).
  { rewrite next_difficulty_thresholds. apply Qltb_ge in Hlo, Hhi.
    now rewrite Hlo, Hhi. }
  eexists. split; [apply (adjust_difficulty_returns m t _ Hn Hd)|reflexivity].
Qed.

(** C5, within the range of exact products.  For a difficulty [d >= 1]
    with [3 * d < 2^53], [adjust_difficulty(t)] sets the difficulty to
    [1.5 * d] truncated when [t < 300], to [0.75 * d] truncated when
    [t > 1200], and leaves it otherwise; with [t = 1300] it strictly
    decreases, with [t = 600] it is unchanged, and with [t = 100] it
    strictly increases when [d >= 2]. *)
Theorem adjust_difficulty_scales m :
  1 <= difficulty m -> 3 * difficulty m < 2 ^ 53 ->
  (forall t, scaled_as_specified m t) /\
  (2 <= difficulty m -> increases_when_fast m) /\
  decreases_when_slow m /\
  unchanged_on_target m.
Proof.
  intros Hd H3.
  assert (Hq2 : Z.quot (3 * difficulty m) 2 = 3 * difficulty m / 2)
    by (apply Z.quot_div_nonneg; lia).
  assert (Hq4 : Z.quot (3 * difficulty m) 4 = 3 * difficulty m / 4)
    by (apply Z.quot_div_nonneg; lia).
  split; [|split; [|split]].
  - intro t. unfold scaled_as_specified.
    destruct (Qlt_le_dec t 300) as [Hf|Hnf].
    + destruct (adjust_difficulty_fast m t Hf) as (m' & Hm & Hv); try lia.
      exists m'. split; [exact Hm|]. split; [|split].
      * intros _. now rewrite Hq2.
      * intro Hs. exfalso. apply (Qlt_irrefl t).
        eapply Qlt_trans; [exact Hf|]. eapply Qlt_trans; [|exact Hs].
        reflexivity.
      * intros [Hlo _]. exfalso. now apply (Qlt_not_le t 300).
    + destruct (Qlt_le_dec 1200 t) as [Hs|Hns].
      * destruct (adjust_difficulty_slow m t Hs) as (m' & Hm & Hv); try lia.
        exists m'. split; [exact Hm|]. split; [|split].
        -- intro Hf. exfalso. now apply (Qlt_not_le t 300).
        -- intros _. now rewrite Hq4.
        -- intros [_ Hhi]. exfalso. now apply (Qlt_not_le 1200 t).
      * destruct (adjust_difficulty_on_target m t (conj Hnf Hns))
          as (m' & Hm & Hv); [lia|].
        exists m'. split; [exact Hm|]. split; [|split].
        -- intro Hf. exfalso. now apply (Qlt_not_le t 300).
        -- intro Hs. exfalso. now apply (Qlt_not_le 1200 t).
        -- intros _. exact Hv.
  - intro H2.
    destruct (adjust_difficulty_fast m 100) as (m' & Hm & Hv);
      [reflexivity|lia|lia|].
    exists m'. split; [exact Hm|]. rewrite Hv.
    assert (difficulty m + 1 <= 3 * difficulty m / 2)
      by (apply Z.div_le_lower_bound; lia).
    lia.
  - destruct (adjust_difficulty_slow m 1300) as (m' & Hm & Hv);
      [reflexivity|lia|lia|].
    exists m'. split; [exact Hm|]. rewrite Hv.
    apply Z.div_lt_upper_bound; lia.
  - apply adjust_difficulty_on_target; [split; discriminate|lia].
Qed.

Lemma adjust_difficulty_scales_witness :
  increases_when_fast (MiningSimulator_init 1000000 50) /\
  decreases_when_slow (MiningSimulator_init 1000000 50) /\
  unchanged_on_target (MiningSimulator_init 1000000 50).
Proof.
  destruct (adjust_difficulty_scales (MiningSimulator_init 1000000 50))
    as (_ & Hi & Hd & Hu).
  - cbn. lia.
  - vm_compute. reflexivity.
  - split; [|split; assumption]. apply Hi. cbn. lia.
Defined.

(** At difficulty 1 a fast block leaves the difficulty at 1; and at
    3002399751580333, where [3 * d] needs 54 bits, the product is rounded
    up before it is truncated. *)
Lemma adjusts_as_specified_fails :
  0 < difficulty (MiningSimulator_init 1 50) /\
  ~ adjusts_as_specified (MiningSimulator_init 1 50) /\
  ~ adjusts_as_specified (MiningSimulator_init 3002399751580333 50).
Proof.
  split; [reflexivity|]. split.
  - intros (_ & (m' & Hm & Hlt) & _).
    vm_compute in Hm. injection Hm as <-. cbn in Hlt. lia.
  - intros (Hs & _). destruct (Hs 100%Q) as (m' & Hm & Hf & _).
    specialize (Hf eq_refl).
    assert (E : next_difficulty (MiningSimulator_init 3002399751580333 50) 100
                = inr 4503599627370500) by (vm_compute; reflexivity).
    rewrite (adjust_difficulty_value _ _ _ _ E Hm) in Hf.
    cbn [MiningSimulator_init difficulty] in Hf. vm_compute in Hf.
    discriminate.
Qed.

Lemma next_difficulty_positive m t :
  2 <= difficulty m ->
  next_difficulty m t = inl OverflowError \/
  exists d, next_difficulty m t = inr d /\ 0 < d.
Proof.
  intro Hd. rewrite next_difficulty_thresholds.
  destruct (Qltb t 300).
  - apply (int_mul_float_positive_or_overflow (difficulty m) (-52)); lia.
  - destruct (Qltb 1200 t).
    + apply (int_mul_float_positive_or_overflow (difficulty m) (-53)); lia.
    + right. eexists. split; [reflexivity|lia].
Qed.

(** C6, for a difficulty of at least 2.  With [d >= 2] and any block
    time, the difficulty the engine holds after [adjust_difficulty] is
    positive, whether the call returns or raises.  A call that raises
    leaves the prefix as it was: the product raises before anything is
    assigned, the repetition after the difficulty was.  A call that
    returns has set the prefix of the new difficulty. *)
Theorem adjust_difficulty_stays_positive m t :
  2 <= difficulty m ->
  stays_positive m t /\
  (forall e m', adjust_difficulty m t = inl (e, m') ->
     0 < difficulty m' /\ target_hash m' = target_hash m) /\
  (forall m', adjust_difficulty m t = inr m' ->
     0 < difficulty m' /\
     target_hash m'
     = str_repeat "0" (Z.to_nat (difficulty m' / 1000000 + 1))).
Proof.
  intro Hd. unfold stays_positive.
  pose proof (adjust_difficulty_outcome m t) as H.
  destruct (next_difficulty_positive m t Hd) as [E|(d & E & Hp)];
    rewrite E in H.
  - rewrite H. split; [cbn; lia|]. split; [|discriminate].
    intros e m' He. injection He as <- <-. split; [lia|reflexivity].
  - destruct (_ && _); rewrite H; (split; [exact Hp|]); split;
      try discriminate.
    + intros m' Hm. injection Hm as <-. now split.
    + intros e m' He. injection He as <- <-. now split.
Qed.

Lemma adjust_difficulty_stays_positive_witness :
  stays_positive (MiningSimulator_init 2 50) 1300.
Proof.
  destruct (adjust_difficulty_stays_positive (MiningSimulator_init 2 50) 1300)
    as [H _]; [vm_compute; discriminate|exact H].
Defined.

(** A slow block takes the difficulty 1 to 0. *)
Lemma stays_positive_fails :
  0 < difficulty (MiningSimulator_init 1 50) /\
  adjust_difficulty (MiningSimulator_init 1 50) 1300
  = inr {| difficulty := 0; current_nonce := 0; target_hash := "0";
           mining_power := 50 |} /\
  ~ stays_positive (MiningSimulator_init 1 50) 1300.
Proof.
  split; [reflexivity|]. split; [vm_compute; reflexivity|].
  unfold stays_positive. vm_compute. discriminate.
Qed.

(** The two places where a call raises.  A difficulty of 2^1024 cannot
    be multiplied: nothing is assigned.  A difficulty of 2^100 has a
    prefix longer than [sys.maxsize]: the repetition raises after a block
    time below 300 has already raised the difficulty, and the prefix
    stays "0000". *)
Lemma adjust_difficulty_raises :
  adjust_difficulty (MiningSimulator_init (2 ^ 1024) 50) 1300
  = inl (OverflowError, MiningSimulator_init (2 ^ 1024) 50) /\
  adjust_difficulty (MiningSimulator_init (2 ^ 100) 50) 100
  = inl (OverflowError,
         {| difficulty := 3 * 2 ^ 99; current_nonce := 0;
            target_hash := "0000"; mining_power := 50 |}).
Proof. split; vm_compute; reflexivity. Qed.

(** Once at 0 the difficulty stays there. *)
Lemma zero_difficulty_is_absorbing m t :
  difficulty m = 0 ->
  exists m', adjust_difficulty m t = inr m' /\ difficulty m' = 0.
Proof.
  intro Hd.
  assert (Hn : next_difficulty m t = inr 0).
  { rewrite next_difficulty_thresholds, Hd.
    destruct (Qltb t 300); [|destruct (Qltb 1200 t)]; reflexivity. }
  eexists. split; [apply (adjust_difficulty_returns m t 0 Hn)|reflexivity].
  split; [lia|reflexivity].
Qed.

(** * Further properties *)

(** ** Statistics *)

Lemma get_network_statistics_result h s :
  ~ (total_bandwidth s == 0)%Q ->
  match nodes s with
  | [] => get_network_statistics h s = inl ZeroDivisionError
  | _ :: _ => exists st, get_network_statistics h s = inr st
  end.
Proof.
  intro Hb. destruct (nodes s) as [|a l] eqn:E.
  - now apply get_network_statistics_empty.
  - destruct (get_network_statistics_returns h s) as (st & Hst & _); auto.
    + rewrite E. discriminate.
    + now exists st.
Qed.

(** X1.  With a non-zero bandwidth capacity, [get_network_statistics]
    raises exactly when the registry is empty, and what it raises is
    [ZeroDivisionError], from the health ratio. *)
Theorem statistics_raises_iff_registry_empty h s :
  ~ (total_bandwidth s == 0)%Q ->
  (get_network_statistics h s = inl ZeroDivisionError <-> nodes s = []) /\
  (forall e, get_network_statistics h s = inl e -> nodes s = []).
Proof.
  intro Hb. pose proof (get_network_statistics_result h s Hb) as H.
  destruct (nodes s) as [|a l].
  - split; [now split|reflexivity].
  - destruct H as (st & Hst). rewrite Hst.
    split; [split|]; intros; discriminate.
Qed.

Lemma statistics_raises_iff_registry_empty_witness :
  get_network_statistics (w_store world_init) NetworkSimulator_init
  = inl ZeroDivisionError.
Proof.
  apply (statistics_raises_iff_registry_empty (w_store world_init)
           NetworkSimulator_init); [vm_compute; discriminate|reflexivity].
Defined.

Lemma Qle_bool_counts a b k n :
  0 < n ->
  Qle_bool (a # b) (inject_Z k / inject_Z n) = (a * n <=? Zpos b * k).
Proof.
  intro Hn.
  assert (Hq : (inject_Z k / inject_Z n == k # Z.to_pos n)%Q).
  { unfold Qdiv, Qinv, inject_Z, Qmult, Qeq. destruct n as [|p|p]; try lia.
    cbn. lia. }
  destruct (Qle_bool (a # b) (inject_Z k / inject_Z n)) eqn:E1;
    destruct (a * n <=? Zpos b * k) eqn:E2; auto.
  - apply Qle_bool_iff in E1. rewrite Hq in E1. unfold Qle in E1. cbn in E1.
    rewrite Z2Pos.id in E1 by lia. apply Z.leb_gt in E2. lia.
  - apply Z.leb_le in E2.
    assert (H : (a # b <= inject_Z k / inject_Z n)%Q).
    { rewrite Hq. unfold Qle. cbn. rewrite Z2Pos.id by lia. lia. }
    apply Qle_bool_iff in H. congruence.
Qed.

(** X2.  On a non-empty registry the statistics count all registered
    nodes and the online ones, and the health label follows from the two
    counts: at least 9 in 10 online is the first label, at least 7 in 10
    the second, at least half the third, anything less the last. *)
Theorem statistics_counts_and_health h s :
  nodes s <> [] -> ~ (total_bandwidth s == 0)%Q ->
  exists st, get_network_statistics h s = inr st /\
    total_nodes st = Z.of_nat (List.length (nodes s)) /\
    online_nodes st = Z.of_nat (List.length (online_refs h s)) /\
    0 <= online_nodes st <= total_nodes st /\
    network_health st = health_of_counts (online_nodes st) (total_nodes st).
Proof.
  intros Hn Hb. unfold get_network_statistics, _calculate_network_health.
  rewrite (py_div_nonzero _ _ Hb). cbn [bind].
  rewrite !average_over_spec. cbn [bind].
  rewrite (py_div_nonzero _ _ (length_nonzero _ Hn)). cbn [bind ret].
  eexists. split; [reflexivity|].
  cbn [total_nodes online_nodes network_health].
  fold (online_refs h s).
  assert (Hlen : (List.length (online_refs h s) <= List.length (nodes s))%nat)
    by apply filter_length_le.
  assert (Hpos : 0 < Z.of_nat (List.length (nodes s))).
  { destruct (nodes s); [congruence|]. simpl. lia. }
  split; [reflexivity|]. split; [reflexivity|]. split; [lia|].
  unfold health_of_counts.
  change 0.9%Q with (9 # 10)%Q. change 0.7%Q with (7 # 10)%Q.
  change 0.5%Q with (5 # 10)%Q.
  rewrite !Qle_bool_counts by exact Hpos.
  replace (5 * Z.of_nat (List.length (nodes s))
           <=? 10 * Z.of_nat (List.length (online_refs h s)))
    with (Z.of_nat (List.length (nodes s))
          <=? 2 * Z.of_nat (List.length (online_refs h s))); [reflexivity|].
  destruct (Z.leb_spec (Z.of_nat (List.length (nodes s)))
              (2 * Z.of_nat (List.length (online_refs h s))));
    symmetry; [apply Z.leb_le|apply Z.leb_gt]; lia.
Qed.

Lemma statistics_counts_and_health_witness :
  exists st,
    get_network_statistics (w_store five_world) (w_sim five_world) = inr st /\
    total_nodes st = 5 /\ online_nodes st = 4 /\ network_health st = Good.
Proof.
  destruct (statistics_counts_and_health (w_store five_world)
              (w_sim five_world)) as (st & Hst & Ht & Ho & _ & Hh).
  - vm_compute. discriminate.
  - vm_compute. discriminate.
  - exists st. split; [exact Hst|].
    rewrite Hh, Ht, Ho. vm_compute. repeat split.
Defined.

(** ** Sessions of the network engine *)

Lemma engine_step_registry w o :
  nodes (w_sim (engine_step w o)) = nodes (w_sim w) ++ registered_by o.
Proof.
  destruct o; cbn [engine_step registered_by w_sim add_node nodes];
    now rewrite ?app_nil_r.
Qed.

Lemma engine_run_registry ops : forall w,
  nodes (w_sim (engine_run w ops))
  = nodes (w_sim w) ++ flat_map registered_by ops.
Proof.
  unfold engine_run.
  induction ops as [|o ops IH]; intro w; cbn [fold_left flat_map].
  - now rewrite app_nil_r.
  - rewrite IH, engine_step_registry, <- app_assoc. reflexivity.
Qed.

(** X3.  Nothing removes a node from the registry: after any sequence
    of operations the registry is the old one followed by the nodes that
    [add_node] registered, in the order of the calls; ticks and events,
    disconnections included, leave it as it is, so a registered node
    stays registered and the registry never gets shorter. *)
Theorem registry_only_grows w ops :
  let before := nodes (w_sim w) in
  let after := nodes (w_sim (engine_run w ops)) in
  after = before ++ flat_map registered_by ops /\
  (forall n, In n before -> In n after) /\
  (List.length before <= List.length after)%nat.
Proof.
  cbv zeta. rewrite engine_run_registry. split; [reflexivity|]. split.
  - intros n Hn. apply in_or_app. now left.
  - rewrite length_app. lia.
Qed.

(** X4.  Once a node has been registered, [get_network_statistics]
    returns after every later sequence of operations of a session. *)
Theorem statistics_safe_after_registration ops n :
  In (op_add_node n) ops ->
  exists st,
    get_network_statistics (w_store (engine_run world_init ops))
      (w_sim (engine_run world_init ops)) = inr st.
Proof.
  intro Hin.
  destruct (get_network_statistics_returns
              (w_store (engine_run world_init ops))
              (w_sim (engine_run world_init ops))) as (st & Hst & _).
  - rewrite engine_run_registry.
    cbn [world_init w_sim NetworkSimulator_init nodes app].
    intro H. assert (Hn : In n (flat_map registered_by ops)).
    { apply in_flat_map. exists (op_add_node n). split; [exact Hin|now left]. }
    rewrite H in Hn. destruct Hn.
  - rewrite engine_run_bandwidth by reflexivity. discriminate.
  - now exists st.
Qed.

Lemma statistics_safe_after_registration_witness :
  exists st,
    get_network_statistics (w_store (engine_run world_init lone_ops))
      (w_sim (engine_run world_init lone_ops)) = inr st.
Proof.
  apply (statistics_safe_after_registration lone_ops 0%nat).
  right. left. reflexivity.
Defined.

Section RunInvariant.
Variable R : AdvancedBlockchainNode -> AdvancedBlockchainNode -> Prop.
Hypothesis R_refl : forall n, R n n.
Hypothesis R_trans : forall a b c, R a b -> R b c -> R a c.
Hypothesis R_update : forall n d, R n (update_metrics n d).
Hypothesis R_network : forall n m, R n (set_network_metrics n m).
Hypothesis R_count : forall n c, R n (set_connection_count n c).
Hypothesis R_status : forall n s, R n (set_status n s).

Lemma related_refl h : related R h h.
Proof. intro n. apply R_refl. Qed.

Lemma related_trans h1 h2 h3 : related R h1 h2 -> related R h2 h3 -> related R h1 h3.
Proof. intros H1 H2 n. eapply R_trans; [apply H1|apply H2]. Qed.

Lemma related_set h r v : R (h r) v -> related R h (store_set h r v).
Proof.
  intros Hv n. unfold store_set. destruct (Nat.eqb n r) eqn:E; [|apply R_refl].
  apply Nat.eqb_eq in E. now subst n.
Qed.

Lemma update_all_related rs : forall h d i, related R h (update_all h rs d i).
Proof.
  induction rs as [|r rs IH]; intros h d i; cbn [update_all];
    [apply related_refl|].
  eapply related_trans; [|apply IH]. apply related_set, R_update.
Qed.

Lemma congest_related rs : forall h d i, related R h (congest h rs d i).
Proof.
  induction rs as [|r rs IH]; intros h d i; cbn [congest];
    [apply related_refl|].
  eapply related_trans; [|apply IH]. apply related_set, R_network.
Qed.

Lemma apply_event_related s h e : related R h (apply_event s h e).
Proof.
  destruct e as [k|k p|d| |]; cbn [apply_event]; try apply related_refl.
  - unfold _simulate_node_connection.
    destruct (2 <=? List.length (nodes s))%nat; [|apply related_refl].
    apply related_set. eapply R_trans; [apply R_count|apply R_network].
  - unfold _simulate_node_disconnection.
    destruct (1 <=? List.length (nodes s))%nat; [|apply related_refl].
    destruct (Qltb p 0.1); [|apply related_refl].
    apply related_set. eapply R_trans; [apply R_status|apply R_count].
  - apply congest_related.
Qed.

Lemma events_related s es : forall h,
  related R h (_simulate_network_events h s es).
Proof.
  unfold _simulate_network_events.
  induction es as [|e es IH]; intro h; cbn [fold_left]; [apply related_refl|].
  eapply related_trans; [apply apply_event_related|apply IH].
Qed.

Lemma tick_related h s r :
  related R h (fst (simulate_network_activity h s r)).
Proof.
  unfold simulate_network_activity. cbn [fst].
  eapply related_trans; [apply update_all_related|apply events_related].
Qed.

Lemma engine_step_related w o n :
  (n < w_next w)%nat ->
  (n < w_next (engine_step w o))%nat /\
  R (w_store w n) (w_store (engine_step w o) n).
Proof.
  intros Hn. destruct o; cbn [engine_step].
  - cbn [w_next w_store]. split; [lia|].
    unfold store_set. destruct (Nat.eqb n (w_next w)) eqn:E; [|apply R_refl].
    apply Nat.eqb_eq in E. lia.
  - split; [exact Hn|apply R_refl].
  - cbn [w_next w_store]. split; [exact Hn|].
    apply related_set, R_update.
  - pose proof (tick_related (w_store w) (w_sim w) r n) as H.
    destruct (simulate_network_activity (w_store w) (w_sim w) r) as [h s].
    now split.
  - cbn [w_next w_store]. split; [exact Hn|]. apply apply_event_related.
Qed.

Lemma engine_run_related ops : forall w n,
  (n < w_next w)%nat -> R (w_store w n) (w_store (engine_run w ops) n).
Proof.
  unfold engine_run.
  induction ops as [|o ops IH]; intros w n Hn; cbn [fold_left];
    [apply R_refl|].
  destruct (engine_step_related w o n Hn) as [Hn' Hr].
  eapply R_trans; [exact Hr|now apply IH].
Qed.
End RunInvariant.

Lemma update_metrics_block_height n d :
  block_height n <= block_height (update_metrics n d) <= block_height n + 1.
Proof.
  unfold update_metrics. destruct (Qltb (d_block d) 0.1); cbn; lia.
Qed.

(** X5.  The block height of a node never decreases, whatever the
    operations of a session; one [update_metrics] call adds 1 when its
    draw is below 0.1 and nothing otherwise. *)
Theorem block_height_never_decreases w ops n :
  (n < w_next w)%nat ->
  block_height (w_store w n) <= block_height (w_store (engine_run w ops) n) /\
  (forall node d,
     block_height (update_metrics node d)
     = if Qltb (d_block d) 0.1 then block_height node + 1
       else block_height node).
Proof.
  intro Hn. split.
  - apply (engine_run_related (fun a b => block_height a <= block_height b));
      [ intros; lia | intros; lia
      | intros a d; apply update_metrics_block_height
      | intros; cbn; lia | intros; cbn; lia | intros; cbn; lia
      | exact Hn ].
  - intros node d. unfold update_metrics.
    now destruct (Qltb (d_block d) 0.1).
Qed.

Lemma block_height_never_decreases_witness :
  block_height (w_store dark_world 1%nat)
  <= block_height (w_store (engine_run dark_world busy_ops) 1%nat).
Proof.
  apply (block_height_never_decreases dark_world busy_ops 1%nat).
  vm_compute. lia.
Defined.

Lemma update_metrics_static n d :
  static_part (update_metrics n d) = static_part n.
Proof. unfold update_metrics. now destruct (Qltb (d_block d) 0.1). Qed.

(** X6.  No operation of a session changes what a node was created
    with: its identifier, type, position, protocol and version, its
    blockchain size, peers, pending transactions and mempool size, its
    disk usage and network traffic, and its synchronisation status. *)
Theorem static_fields_never_change w ops n :
  (n < w_next w)%nat ->
  static_part (w_store (engine_run w ops) n) = static_part (w_store w n).
Proof.
  intro Hn. symmetry.
  apply (engine_run_related (fun a b => static_part a = static_part b));
    [ reflexivity | intros a b c; apply eq_trans
    | intros a d; symmetry; apply update_metrics_static
    | reflexivity | reflexivity | reflexivity
    | exact Hn ].
Qed.

Lemma static_fields_never_change_witness :
  static_part (w_store (engine_run dark_world busy_ops) 0%nat)
  = static_part (w_store dark_world 0%nat).
Proof.
  apply (static_fields_never_change dark_world busy_ops 0%nat).
  vm_compute. lia.
Defined.

(** ** Ticks *)

Lemma py_min_le_l a b : (py_min a b <= a)%Q.
Proof.
  unfold py_min. destruct (Qltb b a) eqn:E; [|apply Qle_refl].
  apply Qltb_lt in E. now apply Qlt_le_weak.
Qed.

Lemma tick_static h s r n :
  static_part (fst (simulate_network_activity h s r) n) = static_part (h n).
Proof.
  symmetry.
  apply (tick_related (fun a b => static_part a = static_part b));
    [ reflexivity | intros a b c; apply eq_trans
    | intros a d; symmetry; apply update_metrics_static
    | reflexivity | reflexivity | reflexivity ].
Qed.

Lemma update_all_static rs h d i n :
  static_part (update_all h rs d i n) = static_part (h n).
Proof.
  symmetry.
  apply (update_all_related (fun a b => static_part a = static_part b));
    [ reflexivity | intros a b c; apply eq_trans
    | intros a d0; symmetry; apply update_metrics_static ].
Qed.

Lemma static_part_io a b :
  static_part a = static_part b ->
  network_io (node_metrics a) = network_io (node_metrics b).
Proof. unfold static_part. intro H. now injection H. Qed.

Lemma registered_io_ext h h' s s' :
  nodes s' = nodes s ->
  (forall n, static_part (h' n) = static_part (h n)) ->
  registered_io h' s' = registered_io h s.
Proof.
  intros Hn Hs. unfold registered_io. rewrite Hn. f_equal.
  apply map_ext. intro n. apply static_part_io, Hs.
Qed.

Lemma tick_load h s r :
  network_load (snd (simulate_network_activity h s r))
  = py_min (total_bandwidth s) (registered_io h s).
Proof.
  unfold simulate_network_activity. cbn [snd network_load].
  f_equal. apply (registered_io_ext h _ s s); [reflexivity|].
  intro n. apply update_all_static.
Qed.

Lemma tick_load_capped h s r :
  (network_load (snd (simulate_network_activity h s r))
   <= total_bandwidth (snd (simulate_network_activity h s r)))%Q.
Proof. rewrite tick_load. apply py_min_le_l. Qed.

(** X7.  The load a tick stores is the sum of the registered nodes'
    network traffic, capped at the bandwidth capacity.  No operation
    changes a node's traffic, so the load does not depend on the draws
    of the tick, and the next tick stores the same load again. *)
Theorem tick_load_is_capped_traffic h s r :
  let after := simulate_network_activity h s r in
  network_load (snd after) = py_min (total_bandwidth s) (registered_io h s) /\
  (network_load (snd after) <= total_bandwidth (snd after))%Q /\
  forall r', network_load (snd (simulate_network_activity (fst after) (snd after) r'))
             = network_load (snd after).
Proof.
  cbv zeta. split; [apply tick_load|]. split.
  - apply tick_load_capped.
  - intro r'. rewrite !tick_load. f_equal.
    apply registered_io_ext; [reflexivity|]. intro n. apply tick_static.
Qed.

(** *** Connection counts and uptimes *)

Lemma connection_ok_set h r v :
  (forall n, connection_ok (h n)) -> connection_ok v ->
  forall n, connection_ok (store_set h r v n).
Proof.
  intros Hh Hv n. unfold store_set. destruct (Nat.eqb n r); auto.
Qed.

Lemma update_metrics_connection n d :
  connection_ok n -> connection_ok (update_metrics n d).
Proof.
  unfold connection_ok, update_metrics.
  destruct (Qltb (d_block d) 0.1); cbn; auto.
Qed.

Lemma update_all_connection_ok rs : forall h d i,
  (forall n, connection_ok (h n)) ->
  forall n, connection_ok (update_all h rs d i n).
Proof.
  induction rs as [|r rs IH]; intros h d i Hh; cbn [update_all]; [exact Hh|].
  apply IH. apply connection_ok_set; [exact Hh|].
  apply update_metrics_connection, Hh.
Qed.

Lemma congest_connection_ok rs : forall h d i,
  (forall n, connection_ok (h n)) ->
  forall n, connection_ok (congest h rs d i n).
Proof.
  induction rs as [|r rs IH]; intros h d i Hh; cbn [congest]; [exact Hh|].
  apply IH. apply connection_ok_set; [exact Hh|]. exact (Hh r).
Qed.

Lemma apply_event_connection_ok s h e :
  (forall n, connection_ok (h n)) ->
  forall n, connection_ok (apply_event s h e n).
Proof.
  intro Hh. destruct e as [k|k p|d| |]; cbn [apply_event]; auto.
  - unfold _simulate_node_connection.
    destruct (2 <=? List.length (nodes s))%nat; [|exact Hh].
    apply connection_ok_set; [exact Hh|].
    destruct (Hh (choice O (nodes s) k)) as [Hc Hu].
    split; cbn; [lia|apply py_min_le_l].
  - unfold _simulate_node_disconnection.
    destruct (1 <=? List.length (nodes s))%nat; [|exact Hh].
    destruct (Qltb p 0.1); [|exact Hh].
    apply connection_ok_set; [exact Hh|].
    destruct (Hh (choice O (nodes s) k)) as [Hc Hu].
    split; cbn; [|exact Hu]. unfold Zmax0.
    destruct (0 <? connection_count (h (choice 0%nat (nodes s) k)) - 1) eqn:E;
      [apply Z.ltb_lt in E|]; lia.
  - now apply congest_connection_ok.
Qed.

Lemma events_connection_ok s es : forall h,
  (forall n, connection_ok (h n)) ->
  forall n, connection_ok (_simulate_network_events h s es n).
Proof.
  unfold _simulate_network_events.
  induction es as [|e es IH]; intros h Hh; cbn [fold_left]; [exact Hh|].
  apply IH. now apply apply_event_connection_ok.
Qed.

(** X8.  A tick keeps every connection count non-negative and every
    uptime at most 99.9: a connection adds 1 and caps the uptime, a
    disconnection stops at 0. *)
Theorem tick_keeps_connections_ok h s r :
  (forall n, connection_ok (h n)) ->
  forall n, connection_ok (fst (simulate_network_activity h s r) n).
Proof.
  intro Hh. unfold simulate_network_activity. cbn [fst].
  apply events_connection_ok. now apply update_all_connection_ok.
Qed.

Lemma tick_keeps_connections_ok_witness :
  connection_ok
    (fst (simulate_network_activity trio_store trio_sim calm_tick) 1%nat).
Proof.
  apply (tick_keeps_connections_ok trio_store trio_sim calm_tick).
  intro n. split; cbn; [lia|discriminate].
Defined.

(** *** Ranges after a tick *)

Lemma update_all_other rs : forall h d i n,
  ~ In n rs -> update_all h rs d i n = h n.
Proof.
  induction rs as [|r rs IH]; intros h d i n Hn; cbn [update_all];
    [reflexivity|].
  rewrite IH by (intro H; apply Hn; now right).
  unfold store_set. destruct (Nat.eqb n r) eqn:E; [|reflexivity].
  apply Nat.eqb_eq in E. exfalso. apply Hn. now left.
Qed.

(** After the update loop every registered node is within its ranges. *)
Lemma update_all_in_range rs : forall h d i n,
  In n rs -> metrics_in_range (update_all h rs d i n).
Proof.
  induction rs as [|r rs IH]; intros h d i n Hn; [destruct Hn|].
  cbn [update_all].
  destruct (in_dec Nat.eq_dec n rs) as [Hin|Hout]; [now apply IH|].
  destruct Hn as [->|Hn]; [|contradiction].
  rewrite update_all_other by exact Hout.
  unfold store_set. rewrite Nat.eqb_refl. apply update_metrics_in_range.
Qed.

Lemma same_metrics_refl b a : same_metrics b a a.
Proof. repeat split. Qed.

Lemma same_metrics_trans b a1 a2 a3 :
  same_metrics b a1 a2 -> same_metrics b a2 a3 -> same_metrics b a1 a3.
Proof.
  intros (H1 & H2 & H3) (H4 & H5 & H6). split; [congruence|].
  split; [congruence|]. intro Hb. rewrite H6, H3; auto.
Qed.

Lemma same_metrics_weaken b a1 a2 :
  same_metrics true a1 a2 -> same_metrics b a1 a2.
Proof. intros (H1 & H2 & H3). repeat split; auto. Qed.

Lemma same_metrics_set b h r v :
  same_metrics b (h r) v ->
  forall n, same_metrics b (h n) (store_set h r v n).
Proof.
  intros Hv n. unfold store_set. destruct (Nat.eqb n r) eqn:E;
    [|apply same_metrics_refl].
  apply Nat.eqb_eq in E. now subst n.
Qed.

Lemma congest_same_metrics rs : forall h d i n,
  same_metrics false (h n) (congest h rs d i n).
Proof.
  induction rs as [|r rs IH]; intros h d i n; cbn [congest];
    [apply same_metrics_refl|].
  eapply same_metrics_trans; [|apply IH].
  apply same_metrics_set. repeat split. discriminate.
Qed.

Lemma apply_event_same_metrics s h e n :
  same_metrics (negb (is_congestion e)) (h n) (apply_event s h e n).
Proof.
  destruct e as [k|k p|d| |]; cbn [apply_event is_congestion negb];
    try apply same_metrics_refl.
  - unfold _simulate_node_connection.
    destruct (2 <=? List.length (nodes s))%nat; [|apply same_metrics_refl].
    apply same_metrics_set. repeat split.
  - unfold _simulate_node_disconnection.
    destruct (1 <=? List.length (nodes s))%nat; [|apply same_metrics_refl].
    destruct (Qltb p 0.1); [|apply same_metrics_refl].
    apply same_metrics_set. repeat split.
  - apply congest_same_metrics.
Qed.

Lemma events_same_metrics s es : forall h n,
  same_metrics (no_congestion es) (h n) (_simulate_network_events h s es n).
Proof.
  unfold _simulate_network_events, no_congestion.
  induction es as [|e es IH]; intros h n; cbn [fold_left forallb];
    [apply same_metrics_refl|].
  eapply same_metrics_trans.
  - pose proof (apply_event_same_metrics s h e n) as H.
    destruct (is_congestion e); cbn [negb andb] in *; [exact H|].
    destruct (forallb _ es); [exact H|now apply same_metrics_weaken].
  - pose proof (IH (apply_event s h e) n) as H.
    destruct (forallb _ es); [|now rewrite andb_false_r].
    rewrite andb_true_r. now apply same_metrics_weaken.
Qed.

(** X9.  After a tick every registered node has its bandwidth, CPU
    usage and memory usage within their ranges, whatever events the tick
    fired; its latency is within [1, 500] too when no congestion was
    among them. *)
Theorem tick_leaves_registered_nodes_in_range h s r n :
  In n (nodes s) ->
  let h' := fst (simulate_network_activity h s r) in
  resources_in_range (h' n) /\
  (no_congestion (t_events r) = true -> metrics_in_range (h' n)).
Proof.
  intros Hn. cbv zeta. unfold simulate_network_activity. cbn [fst].
  set (h1 := update_all h (nodes s) (t_metrics r) 0).
  set (s1 := {| nodes := nodes s; connections := connections s;
                network_load := _; total_bandwidth := total_bandwidth s |}).
  pose proof (update_all_in_range (nodes s) h (t_metrics r) O n Hn)
    as (Hl & Hb & Hc & Hm).
  fold h1 in Hl, Hb, Hc, Hm.
  destruct (events_same_metrics s1 (t_events r) h1 n) as (E1 & E2 & E3).
  split.
  - unfold resources_in_range. now rewrite E1, E2.
  - intro Hnc. rewrite Hnc in E3. unfold metrics_in_range.
    now rewrite E1, E2, E3.
Qed.

Lemma tick_leaves_registered_nodes_in_range_witness :
  metrics_in_range
    (fst (simulate_network_activity trio_store trio_sim calm_tick) 1%nat).
Proof.
  apply (tick_leaves_registered_nodes_in_range trio_store trio_sim calm_tick
           1%nat).
  - right. left. reflexivity.
  - reflexivity.
Defined.

(** *** Congestion *)

Lemma congest_other rs : forall h d i n,
  ~ In n rs -> congest h rs d i n = h n.
Proof.
  induction rs as [|r rs IH]; intros h d i n Hn; cbn [congest];
    [reflexivity|].
  rewrite IH by (intro H; apply Hn; now right).
  unfold store_set. destruct (Nat.eqb n r) eqn:E; [|reflexivity].
  apply Nat.eqb_eq in E. exfalso. apply Hn. now left.
Qed.

Lemma congest_at rs : forall h d i k n,
  NoDup rs -> nth_error rs k = Some n ->
  congest h rs d i n =
  set_network_metrics (h n)
    {| latency := latency (network_metrics (h n)) + fst (d (i + k)%nat);
       bandwidth := bandwidth (network_metrics (h n));
       packet_loss := packet_loss (network_metrics (h n)) + snd (d (i + k)%nat);
       uptime := uptime (network_metrics (h n)) |}.
Proof.
  induction rs as [|r rs IH]; intros h d i k n Hnd Hk;
    [destruct k; discriminate|].
  apply NoDup_cons_iff in Hnd as [Hr Hnd]. cbn [congest].
  destruct k as [|k]; cbn [nth_error] in Hk.
  - injection Hk as ->. rewrite congest_other by exact Hr.
    unfold store_set. rewrite Nat.eqb_refl, Nat.add_0_r. reflexivity.
  - rewrite (IH _ d (S i) k n Hnd Hk).
    assert (Hne : Nat.eqb n r = false).
    { apply Nat.eqb_neq. intros ->. apply Hr. eapply nth_error_In; eauto. }
    unfold store_set. rewrite Hne.
    replace (S i + k)%nat with (i + S k)%nat by lia. reflexivity.
Qed.

(** X10.  A congestion is not clamped.  On a registry without repeated
    nodes it adds to the node at position [k] exactly the two values
    drawn at the [k]-th turn, to its latency and to its packet loss, and
    changes nothing else of it; a node that is not registered is left as
    it is. *)
Theorem congestion_adds_its_draws h s d :
  NoDup (nodes s) ->
  (forall k n, nth_error (nodes s) k = Some n ->
     _simulate_network_congestion h s d n =
     set_network_metrics (h n)
       {| latency := latency (network_metrics (h n)) + fst (d k);
          bandwidth := bandwidth (network_metrics (h n));
          packet_loss := packet_loss (network_metrics (h n)) + snd (d k);
          uptime := uptime (network_metrics (h n)) |}) /\
  (forall n, ~ In n (nodes s) -> _simulate_network_congestion h s d n = h n).
Proof.
  intro Hnd. unfold _simulate_network_congestion. split.
  - intros k n Hk. now rewrite (congest_at (nodes s) h d O k n Hnd Hk).
  - intros n Hn. now apply congest_other.
Qed.

Lemma congestion_adds_its_draws_witness :
  NoDup (nodes trio_sim) /\
  (latency (network_metrics
              (_simulate_network_congestion trio_store trio_sim
                 trio_congestion 1%nat)) == 530)%Q.
Proof.
  assert (Hnd : NoDup (nodes trio_sim)).
  { cbn. repeat constructor; cbn; intuition discriminate. }
  split; [exact Hnd|].
  destruct (congestion_adds_its_draws trio_store trio_sim trio_congestion Hnd)
    as [Hat _].
  rewrite (Hat 1%nat 1%nat eq_refl). reflexivity.
Defined.

(** *** The reported load *)

Lemma round_half_even_le x N :
  (x <= inject_Z N)%Q -> round_half_even x <= N.
Proof.
  intro Hx. unfold round_half_even.
  assert (Hf : Qfloor x <= N).
  { rewrite <- (Qfloor_Z N). now apply Qfloor_resp_le. }
  destruct (Z.eq_dec (Qfloor x) N) as [E|E].
  - assert (Hlt : (x - inject_Z (Qfloor x) < 1 # 2)%Q).
    { rewrite E. apply Qle_lt_trans with (y := 0%Q); [|reflexivity].
      apply (Qplus_le_l _ _ (inject_Z N)). ring_simplify. exact Hx. }
    rewrite (proj1 (Qlt_alt _ _) Hlt). lia.
  - destruct (x - inject_Z (Qfloor x) ?= 1 # 2)%Q;
      [destruct (Z.even (Qfloor x))| |]; lia.
Qed.

Lemma py_round_le x N :
  (x <= inject_Z N)%Q -> (py_round x 1 <= inject_Z N)%Q.
Proof.
  intro Hx. unfold py_round. change (10 ^ 1) with 10.
  assert (H : round_half_even (x * inject_Z 10) <= N * 10).
  { apply round_half_even_le. rewrite inject_Z_mult.
    apply Qmult_le_compat_r; [exact Hx|discriminate]. }
  apply Qle_shift_div_r; [reflexivity|].
  rewrite <- inject_Z_mult. rewrite <- Zle_Qle. exact H.
Qed.

(** X11.  After a tick on a registry that is not empty, with a positive
    bandwidth capacity, the statistics report a network load of at most
    100 percent. *)
Theorem load_percent_at_most_100 h s r :
  nodes s <> [] -> (0 < total_bandwidth s)%Q ->
  let after := simulate_network_activity h s r in
  exists st, get_network_statistics (fst after) (snd after) = inr st /\
             (network_load_percent st <= 100)%Q.
Proof.
  intros Hn Hb. cbv zeta.
  pose proof (tick_load_capped h s r) as Hcap.
  set (h' := fst (simulate_network_activity h s r)) in *.
  set (s' := snd (simulate_network_activity h s r)) in *.
  assert (Hn' : nodes s' <> []) by exact Hn.
  assert (Hb' : (0 < total_bandwidth s')%Q) by exact Hb.
  assert (Hnz : ~ (total_bandwidth s' == 0)%Q).
  { intro E. rewrite E in Hb'. discriminate. }
  unfold get_network_statistics, _calculate_network_health.
  rewrite (py_div_nonzero _ _ Hnz). cbn [bind].
  rewrite !average_over_spec. cbn [bind].
  rewrite (py_div_nonzero _ _ (length_nonzero _ Hn')). cbn [bind ret].
  eexists. split; [reflexivity|]. cbn [network_load_percent].
  apply (py_round_le _ 100).
  assert (H1 : (network_load s' / total_bandwidth s' <= 1)%Q).
  { apply Qle_shift_div_r; [exact Hb'|]. now rewrite Qmult_1_l. }
  setoid_replace (inject_Z 100) with (1 * 100)%Q by reflexivity.
  apply Qmult_le_compat_r; [exact H1|discriminate].
Qed.

Lemma load_percent_at_most_100_witness :
  exists st,
    get_network_statistics
      (fst (simulate_network_activity trio_store trio_sim calm_tick))
      (snd (simulate_network_activity trio_store trio_sim calm_tick))
    = inr st /\
    (network_load_percent st <= 100)%Q.
Proof.
  apply (load_percent_at_most_100 trio_store trio_sim calm_tick).
  - discriminate.
  - reflexivity.
Defined.

(** ** More on the transaction pool *)

(** X12.  A pool never holds more than 10000 transactions: every pool
    that the constructor, [add_transaction] and
    [get_transactions_for_block] can produce has the capacity 10000 and
    a size within it. *)
Theorem pool_never_exceeds_capacity txs p :
  pool_reachable txs p ->
  max_pool_size p = 10000 /\ 0 <= pool_size p <= max_pool_size p.
Proof.
  intro H. destruct (pool_reachable_inv txs p H) as [Hm Hs].
  split; [exact Hm|]. rewrite Hm. unfold pool_size in *. lia.
Qed.

Lemma pool_never_exceeds_capacity_witness :
  pool_size (snd (add_transaction (snd (add_transaction TransactionPool_init 0%nat)) 1%nat))
  <= 10000.
Proof.
  apply (pool_never_exceeds_capacity scenario_txs).
  apply reach_pool_add, reach_pool_add, reach_pool_init.
Defined.

Lemma slice_to_length {A} (l : list A) n :
  slice_to l n
  = firstn (Z.to_nat (slice_length (Z.of_nat (List.length l)) n)) l.
Proof.
  unfold slice_to, slice_length. destruct (n <? 0) eqn:E.
  - f_equal. lia.
  - apply Z.ltb_ge in E.
    destruct (Z.le_gt_cases n (Z.of_nat (List.length l))) as [H|H].
    + f_equal. lia.
    + rewrite !firstn_all2 by lia. reflexivity.
Qed.

Lemma subseq_refl {A} (l : list A) : subseq l l.
Proof. induction l; constructor; auto. Qed.

Lemma subseq_trans {A} (l3 : list A) : forall l1 l2,
  subseq l1 l2 -> subseq l2 l3 -> subseq l1 l3.
Proof.
  induction l3 as [|a l3 IH]; intros l1 l2 H12 H23.
  - inversion H23; subst. exact H12.
  - inversion H23; subst.
    + inversion H12; subst.
      * constructor. eapply IH; eauto.
      * apply subseq_drop. eapply IH; eauto.
    + apply subseq_drop. eapply IH; eauto.
Qed.

Lemma list_remove_subseq l v : forall l',
  list_remove l v = inr l' -> subseq l' l.
Proof.
  induction l as [|a l IH]; intros l' H; cbn [list_remove] in H;
    [discriminate|].
  destruct (Nat.eqb a v).
  - injection H as <-. apply subseq_drop, subseq_refl.
  - destruct (list_remove l v) as [e|l1]; [discriminate|].
    cbn [bind ret] in H. injection H as <-. constructor. now apply IH.
Qed.

Lemma remove_all_subseq sel : forall l l',
  remove_all l sel = inr l' -> subseq l' l.
Proof.
  induction sel as [|a sel IH]; intros l l' H; cbn [remove_all] in H.
  - injection H as <-. apply subseq_refl.
  - destruct (list_remove l a) as [e|l1] eqn:E; [discriminate|].
    cbn [bind] in H. apply (subseq_trans l l' l1).
    + now apply IH.
    + now apply (list_remove_subseq l a).
Qed.

(** X13.  [get_transactions_for_block] never raises, whatever the
    count.  It returns the first [k] transactions of the stable
    descending sort, where [k] is [min(count, size)] for a count that is
    not negative and [max(0, size + count)] for a negative one; the pool
    shrinks by [k], and the transactions that remain keep the order they
    were added in. *)
Theorem get_transactions_for_block_total txs p n :
  let k := slice_length (pool_size p) n in
  exists selected p',
    get_transactions_for_block txs p n = inr (selected, p') /\
    selected = firstn (Z.to_nat k) (sorted_desc txs (transactions p)) /\
    Z.of_nat (List.length selected) = k /\
    pool_size p' = pool_size p - k /\
    max_pool_size p' = max_pool_size p /\
    subseq (transactions p') (transactions p) /\
    Permutation (transactions p) (selected ++ transactions p').
Proof.
  cbv zeta. unfold get_transactions_for_block.
  rewrite slice_to_length, sorted_desc_length. fold (pool_size p).
  set (k := Z.to_nat (slice_length (pool_size p) n)).
  set (s := sorted_desc txs (transactions p)).
  destruct (remove_all_perm (firstn k s) (transactions p) (skipn k s))
    as (l' & Hr & Hp).
  { rewrite firstn_skipn. symmetry. apply sorted_desc_perm. }
  rewrite Hr. cbn [bind ret]. eexists _, _. split; [reflexivity|].
  assert (Hk : 0 <= slice_length (pool_size p) n <= pool_size p).
  { unfold slice_length, pool_size. destruct (n <? 0) eqn:E;
      [apply Z.ltb_lt in E|apply Z.ltb_ge in E]; lia. }
  assert (Hlen : List.length (firstn k s) = k).
  { rewrite length_firstn. unfold s. rewrite sorted_desc_length.
    unfold k, pool_size in *. lia. }
  assert (Hperm : Permutation (transactions p) (firstn k s ++ l')).
  { rewrite Hp, firstn_skipn. symmetry. apply sorted_desc_perm. }
  split; [reflexivity|]. split; [rewrite Hlen; unfold k; lia|].
  split; [|split; [reflexivity|split; [|exact Hperm]]].
  - unfold pool_size in *. cbn [transactions].
    apply Permutation_length in Hperm. rewrite length_app, Hlen in Hperm.
    unfold k in Hperm. lia.
  - cbn [transactions]. now apply remove_all_subseq in Hr.
Qed.

(** X14.  A count of at least the pool size drains the pool: the whole
    pool is returned in its stable order of decreasing fee and the pool
    is left empty, with its capacity. *)
Theorem get_transactions_for_block_drains txs p n :
  pool_size p <= n ->
  get_transactions_for_block txs p n
  = inr (sorted_desc txs (transactions p),
         {| transactions := []; max_pool_size := max_pool_size p |}).
Proof.
  intro Hn. unfold get_transactions_for_block.
  rewrite slice_to_length, sorted_desc_length. fold (pool_size p).
  replace (slice_length (pool_size p) n) with (pool_size p).
  - rewrite firstn_all2
      by (rewrite sorted_desc_length; unfold pool_size; lia).
    destruct (remove_all_perm (sorted_desc txs (transactions p))
                (transactions p) []) as (l' & Hr & Hp).
    { rewrite app_nil_r. symmetry. apply sorted_desc_perm. }
    rewrite Hr. cbn [bind ret].
    apply Permutation_sym, Permutation_nil in Hp. now subst l'.
  - unfold slice_length, pool_size in *. destruct (n <? 0) eqn:E;
      [apply Z.ltb_lt in E|apply Z.ltb_ge in E]; lia.
Qed.

Lemma get_transactions_for_block_drains_witness :
  get_transactions_for_block scenario_txs scenario_pool 3
  = inr ([1; 0; 2]%nat, {| transactions := []; max_pool_size := 10000 |}).
Proof.
  apply (get_transactions_for_block_drains scenario_txs scenario_pool 3).
  vm_compute. discriminate.
Defined.

(** X15.  A count of 0, or a negative count of at most minus the pool
    size, selects nothing and leaves the pool exactly as it is. *)
Theorem get_transactions_for_block_nothing txs p n :
  n = 0 \/ n <= - pool_size p ->
  get_transactions_for_block txs p n = inr ([], p).
Proof.
  intro Hn. unfold get_transactions_for_block.
  rewrite slice_to_length, sorted_desc_length. fold (pool_size p).
  replace (slice_length (pool_size p) n) with 0.
  - cbn [Z.to_nat firstn remove_all bind ret]. now destruct p.
  - unfold slice_length, pool_size in *. destruct (n <? 0) eqn:E;
      [apply Z.ltb_lt in E|apply Z.ltb_ge in E]; lia.
Qed.

Lemma get_transactions_for_block_nothing_witness :
  get_transactions_for_block scenario_txs scenario_pool (-3)
  = inr ([], scenario_pool).
Proof.
  apply (get_transactions_for_block_nothing scenario_txs scenario_pool (-3)).
  right. vm_compute. discriminate.
Defined.

Section PoolComposition.
Variable txs : store Transaction.

Lemma filter_sorted (f : ref -> bool) l :
  StronglySorted (fee_ge txs) l -> StronglySorted (fee_ge txs) (filter f l).
Proof.
  induction 1 as [|a l Hs IH Ha]; cbn [filter]; [constructor|].
  destruct (f a); [|exact IH]. constructor; [exact IH|].
  rewrite Forall_forall in *. intros b Hb. apply Ha.
  now apply filter_In in Hb.
Qed.

Lemma filter_filter {A} (f g : A -> bool) l :
  filter f (filter g l) = filter (fun a => g a && f a) l.
Proof.
  induction l as [|a l IH]; [reflexivity|]. cbn [filter].
  destruct (g a); cbn [filter andb]; [destruct (f a)|]; now rewrite IH.
Qed.

Lemma filter_comm {A} (f g : A -> bool) l :
  filter f (filter g l) = filter g (filter f l).
Proof.
  induction l as [|a l IH]; [reflexivity|]. cbn [filter].
  destruct (f a) eqn:Ef, (g a) eqn:Eg; cbn [filter];
    rewrite ?Ef, ?Eg, IH; reflexivity.
Qed.

(** Sorting what a filter keeps gives what the filter keeps of the
    sorted list. *)
Lemma sorted_desc_filter (f : ref -> bool) l :
  sorted_desc txs (filter f l) = filter f (sorted_desc txs l).
Proof.
  symmetry. apply sorted_desc_unique. split.
  - apply filter_sorted, sorted_desc_sorted.
  - intro q. rewrite filter_comm, sorted_desc_stable. apply filter_comm.
Qed.

Lemma list_remove_last l v :
  ~ In v l -> list_remove (l ++ [v]) v = inr l.
Proof.
  induction l as [|a l IH]; intro H; cbn [app list_remove].
  - now rewrite Nat.eqb_refl.
  - destruct (Nat.eqb a v) eqn:E.
    + apply Nat.eqb_eq in E. exfalso. apply H. now left.
    + rewrite IH by (intro Hin; apply H; now right). reflexivity.
Qed.

(** A transaction that pays more than all the others sorts first. *)
Lemma sorted_desc_best l tx :
  (forall r, In r l -> (fee_of txs r < fee_of txs tx)%Q) ->
  sorted_desc txs (l ++ [tx]) = tx :: sorted_desc txs l.
Proof.
  intro Hbest. symmetry. apply sorted_desc_unique. split.
  - constructor; [apply sorted_desc_sorted|].
    rewrite Forall_forall. intros r Hr. apply Qlt_le_weak, Hbest.
    eapply Permutation_in; [apply sorted_desc_perm|exact Hr].
  - intro q. rewrite filter_app. cbn [filter].
    rewrite sorted_desc_stable.
    destruct (same_fee txs q tx) eqn:E; [|now rewrite app_nil_r].
    assert (Hnone : filter (same_fee txs q) l = []).
    { rewrite <- (filter_false l). apply filter_ext_in. intros r Hr.
      destruct (same_fee txs q r) eqn:Hq; [|reflexivity].
      apply Qeq_bool_iff in E, Hq.
      specialize (Hbest r Hr). rewrite E, Hq in Hbest.
      now apply Qlt_irrefl in Hbest. }
    now rewrite Hnone.
Qed.

(** X16.  Adding to a pool that is not full a new transaction that pays
    more than every transaction in it, and then selecting one
    transaction, returns that transaction and gives the pool back as it
    was. *)
Theorem add_best_then_select_one p tx :
  pool_size p < max_pool_size p ->
  ~ In tx (transactions p) ->
  (forall r, In r (transactions p) -> (fee_of txs r < fee_of txs tx)%Q) ->
  fst (add_transaction p tx) = true /\
  get_transactions_for_block txs (snd (add_transaction p tx)) 1
  = inr ([tx], p).
Proof.
  intros Hroom Hnew Hbest. unfold add_transaction. fold (pool_size p).
  replace (pool_size p <? max_pool_size p) with true
    by (symmetry; now apply Z.ltb_lt).
  cbn [fst snd]. split; [reflexivity|].
  unfold get_transactions_for_block. cbn [transactions max_pool_size].
  rewrite sorted_desc_best by exact Hbest.
  change (slice_to (tx :: sorted_desc txs (transactions p)) 1) with [tx].
  cbn [remove_all]. rewrite list_remove_last by exact Hnew.
  cbn [bind ret]. now destruct p.
Qed.

Lemma list_remove_filter l v :
  NoDup l -> In v l ->
  list_remove l v = inr (filter (fun r => negb (Nat.eqb r v)) l).
Proof.
  induction l as [|a l IH]; intros Hnd Hin; [destruct Hin|].
  apply NoDup_cons_iff in Hnd as [Ha Hnd]. cbn [list_remove filter].
  destruct (Nat.eqb a v) eqn:E.
  - apply Nat.eqb_eq in E. subst a. cbn [negb]. unfold ret. f_equal.
    symmetry. apply forallb_filter_id.
    apply forallb_forall. intros r Hr.
    destruct (Nat.eqb r v) eqn:E; [|reflexivity].
    apply Nat.eqb_eq in E. subst r. contradiction.
  - cbn [negb]. destruct Hin as [->|Hin];
      [rewrite Nat.eqb_refl in E; discriminate|].
    rewrite IH by assumption. reflexivity.
Qed.

Lemma remove_all_filter sel : forall l,
  NoDup l -> NoDup sel -> incl sel l ->
  remove_all l sel = inr (filter (not_among sel) l).
Proof.
  induction sel as [|a sel IH]; intros l Hl Hs Hi.
  - cbn [remove_all]. unfold ret. f_equal. symmetry.
    apply forallb_filter_id.
    apply forallb_forall. reflexivity.
  - apply NoDup_cons_iff in Hs as [Ha Hs]. cbn [remove_all].
    rewrite list_remove_filter; [|exact Hl|apply Hi; now left].
    cbn [bind]. rewrite IH.
    + f_equal. rewrite filter_filter. apply filter_ext. intro r.
      unfold not_among. cbn [existsb].
      now rewrite negb_orb.
    + now apply NoDup_filter.
    + exact Hs.
    + intros r Hr. apply filter_In. split; [apply Hi; now right|].
      destruct (Nat.eqb r a) eqn:E; [|reflexivity].
      apply Nat.eqb_eq in E. subst r. contradiction.
Qed.

Lemma firstn_add {A} (a b : nat) (l : list A) :
  firstn (a + b) l = firstn a l ++ firstn b (skipn a l).
Proof.
  revert l. induction a as [|a IH]; intro l; [reflexivity|].
  destruct l as [|c l]; [cbn [skipn]; now rewrite !firstn_nil|].
  cbn [Nat.add firstn skipn app]. now rewrite IH.
Qed.

Lemma remove_all_app s1 : forall l s2,
  remove_all l (s1 ++ s2) = (l1 <- remove_all l s1 ;; remove_all l1 s2).
Proof.
  induction s1 as [|a s1 IH]; intros l s2; [reflexivity|].
  cbn [app remove_all]. destruct (list_remove l a) as [e|l1]; [reflexivity|].
  cbn [bind]. apply IH.
Qed.

Lemma not_among_spec sel r : not_among sel r = true <-> ~ In r sel.
Proof.
  unfold not_among. rewrite negb_true_iff. split.
  - intros H Hin. assert (E : existsb (Nat.eqb r) sel = true).
    { apply existsb_exists. exists r. split; [exact Hin|apply Nat.eqb_refl]. }
    congruence.
  - intro H. destruct (existsb (Nat.eqb r) sel) eqn:E; [|reflexivity].
    apply existsb_exists in E as (x & Hx & Ex). apply Nat.eqb_eq in Ex.
    subst x. contradiction.
Qed.

(** Dropping the first [k] elements of a list without repeats is
    filtering them out. *)
Lemma filter_not_among_firstn k (l : list ref) :
  NoDup l -> filter (not_among (firstn k l)) l = skipn k l.
Proof.
  intro Hnd. rewrite <- (firstn_skipn k l) in Hnd at 1.
  rewrite <- (firstn_skipn k l) at 2. rewrite filter_app.
  replace (filter (not_among (firstn k l)) (firstn k l)) with (@nil ref).
  - cbn [app]. apply forallb_filter_id, forallb_forall.
    intros r Hr. apply not_among_spec. intro Hin.
    revert Hr. now apply NoDup_app_disjoint with (l1 := firstn k l).
  - symmetry. rewrite <- (filter_false (firstn k l)). apply filter_ext_in.
    intros r Hr. destruct (not_among (firstn k l) r) eqn:E; [|reflexivity].
    apply not_among_spec in E. contradiction.
Qed.

Lemma get_transactions_for_block_returns p n :
  exists l',
    remove_all (transactions p)
      (slice_to (sorted_desc txs (transactions p)) n) = inr l' /\
    get_transactions_for_block txs p n
    = inr (slice_to (sorted_desc txs (transactions p)) n,
           {| transactions := l'; max_pool_size := max_pool_size p |}).
Proof.
  unfold get_transactions_for_block. rewrite slice_to_length.
  set (s := sorted_desc txs (transactions p)).
  set (k := Z.to_nat _).
  destruct (remove_all_perm (firstn k s) (transactions p) (skipn k s))
    as (l' & Hr & _).
  { rewrite firstn_skipn. symmetry. apply sorted_desc_perm. }
  exists l'. rewrite Hr. split; reflexivity.
Qed.

(** X17.  On a pool without repeated transactions, selecting [a] and
    then [b] transactions gives, one after the other, what a single
    selection of [a + b] gives, and leaves the same pool. *)
Theorem select_twice_is_select_sum p a b :
  NoDup (transactions p) -> 0 <= a -> 0 <= b ->
  exists s1 p1 s2 p2,
    get_transactions_for_block txs p a = inr (s1, p1) /\
    get_transactions_for_block txs p1 b = inr (s2, p2) /\
    get_transactions_for_block txs p (a + b) = inr (s1 ++ s2, p2).
Proof.
  intros Hnd Ha Hb.
  destruct (get_transactions_for_block_returns p a) as (l1 & Hr1 & H1).
  rewrite slice_to_nonneg in Hr1, H1 by exact Ha.
  set (s := sorted_desc txs (transactions p)) in *.
  assert (Hs : NoDup s).
  { eapply Permutation_NoDup; [symmetry; apply sorted_desc_perm|exact Hnd]. }
  assert (Hl1 : l1 = filter (not_among (firstn (Z.to_nat a) s)) (transactions p)).
  { rewrite remove_all_filter in Hr1.
    - now injection Hr1.
    - exact Hnd.
    - rewrite <- (firstn_skipn (Z.to_nat a) s) in Hs.
      now apply NoDup_app_remove_r in Hs.
    - intros r Hr.
      eapply Permutation_in; [exact (sorted_desc_perm txs (transactions p))|].
      fold s. rewrite <- (firstn_skipn (Z.to_nat a) s).
      apply in_or_app. now left. }
  assert (Hs1 : sorted_desc txs l1 = skipn (Z.to_nat a) s).
  { rewrite Hl1, sorted_desc_filter. fold s.
    now apply filter_not_among_firstn. }
  set (p1 := {| transactions := l1; max_pool_size := max_pool_size p |}) in *.
  destruct (get_transactions_for_block_returns p1 b) as (l2 & Hr2 & H2).
  rewrite slice_to_nonneg in Hr2, H2 by exact Hb.
  cbn [transactions max_pool_size p1] in Hr2, H2. rewrite Hs1 in Hr2, H2.
  eexists _, _, _, _. split; [exact H1|]. split; [exact H2|].
  unfold get_transactions_for_block. fold s.
  rewrite slice_to_nonneg by lia.
  rewrite Z2Nat.inj_add, firstn_add by assumption.
  rewrite remove_all_app, Hr1. cbn [bind]. rewrite Hr2. reflexivity.
Qed.
End PoolComposition.

Lemma add_best_then_select_one_witness :
  get_transactions_for_block scenario_txs
    (snd (add_transaction pair_pool 1%nat)) 1
  = inr ([1%nat], pair_pool).
Proof.
  apply (add_best_then_select_one scenario_txs pair_pool 1%nat).
  - reflexivity.
  - cbn. intros [H|[H|[]]]; discriminate.
  - intros r [<-|[<-|[]]]; reflexivity.
Defined.

Lemma select_twice_is_select_sum_witness :
  exists s1 p1 s2 p2,
    get_transactions_for_block scenario_txs scenario_pool 1 = inr (s1, p1) /\
    get_transactions_for_block scenario_txs p1 1 = inr (s2, p2) /\
    get_transactions_for_block scenario_txs scenario_pool (1 + 1)
    = inr (s1 ++ s2, p2).
Proof.
  apply (select_twice_is_select_sum scenario_txs scenario_pool 1 1).
  - cbn. repeat constructor; cbn; intuition discriminate.
  - lia.
  - lia.
Defined.

Lemma round_half_even_ge x : Qfloor x <= round_half_even x.
Proof.
  unfold round_half_even.
  destruct (x - inject_Z (Qfloor x) ?= 1 # 2)%Q;
    [destruct (Z.even (Qfloor x))| |]; lia.
Qed.

Lemma py_round_nonneg x : (0 <= x)%Q -> (0 <= py_round x 1)%Q.
Proof.
  intro Hx. unfold py_round. change (10 ^ 1) with 10.
  apply Qle_shift_div_l; [reflexivity|]. rewrite Qmult_0_l.
  change 0%Q with (inject_Z 0). rewrite <- Zle_Qle.
  eapply Z.le_trans; [|apply round_half_even_ge].
  rewrite <- (Qfloor_Z 0). apply Qfloor_resp_le.
  apply Qmult_le_0_compat; [exact Hx|discriminate].
Qed.

(** X18.  [get_pool_stats] returns on every pool a program can hold, the
    empty one included: the count is the pool size, the utilisation lies
    between 0 and 100 percent, and on an empty pool the total fees, the
    average fee and the utilisation are all 0, with no division by
    zero. *)
Theorem get_pool_stats_returns txs p :
  pool_reachable txs p ->
  exists st, get_pool_stats txs p = inr st /\
    transaction_count st = pool_size p /\
    (0 <= pool_utilization st <= 100)%Q /\
    (transactions p = [] ->
       (total_fees st == 0)%Q /\ (average_fee st == 0)%Q /\
       (pool_utilization st == 0)%Q).
Proof.
  intro Hp. destruct (pool_reachable_inv txs p Hp) as [Hmax Hsize].
  unfold get_pool_stats. rewrite Hmax.
  assert (Havg : exists avg,
            match transactions p with
            | [] => ret 0%Q
            | _ :: _ =>
                py_div (Qsum (map (fee_of txs) (transactions p)))
                  (inject_Z (Z.of_nat (List.length (transactions p))))
            end = inr avg /\ (transactions p = [] -> avg = 0%Q)).
  { destruct (transactions p) as [|a l] eqn:E.
    - exists 0%Q. now split.
    - rewrite py_div_nonzero by (apply length_nonzero; discriminate).
      eexists. split; [reflexivity|discriminate]. }
  destruct Havg as (avg & -> & Havg). cbn [bind].
  rewrite py_div_nonzero by discriminate. cbn [bind ret].
  eexists. split; [reflexivity|].
  cbn [transaction_count pool_utilization total_fees average_fee].
  split; [reflexivity|].
  set (len := inject_Z (Z.of_nat (List.length (transactions p)))).
  assert (H0 : (0 <= len)%Q).
  { unfold len. change 0%Q with (inject_Z 0). rewrite <- Zle_Qle. lia. }
  assert (H1 : (len <= inject_Z 10000)%Q).
  { unfold len. rewrite <- Zle_Qle. exact Hsize. }
  split; [split|].
  - apply py_round_nonneg.
    apply Qmult_le_0_compat; [|discriminate].
    apply Qle_shift_div_l; [reflexivity|]. now rewrite Qmult_0_l.
  - apply (py_round_le _ 100).
    setoid_replace (inject_Z 100) with (1 * 100)%Q by reflexivity.
    apply Qmult_le_compat_r; [|discriminate].
    apply Qle_shift_div_r; [reflexivity|]. now rewrite Qmult_1_l.
  - intro He. rewrite (Havg He). unfold len. rewrite He.
    repeat split; reflexivity.
Qed.

Lemma get_pool_stats_returns_witness :
  exists st, get_pool_stats scenario_txs TransactionPool_init = inr st /\
             (average_fee st == 0)%Q.
Proof.
  destruct (get_pool_stats_returns scenario_txs TransactionPool_init)
    as (st & Hst & _ & _ & Hz).
  - apply reach_pool_init.
  - exists st. split; [exact Hst|]. now apply Hz.
Defined.

(** ** More on mining *)

Lemma mine_block_result m block_data t0 t1 r :
  fst (mine_block m block_data t0 t1) = Some r ->
  mining_time r = (t1 - t0)%Q /\ hashrate r = mining_power m.
Proof.
  unfold mine_block, mine_block_with.
  destruct (mine_loop _ _ _ _ _) as [[[h k]|] n]; cbn [fst]; [|discriminate].
  intro H. injection H as <-. now split.
Qed.

(** X19.  What [mine_block] returns is a solution of the engine it was
    called on: the hash is the 64-character digest of the payload
    followed by the nonce and starts with the target prefix, the nonce
    lies between the cursor and 999999, the mining time is the
    difference of the two clock readings and the hash rate is the
    engine's mining power. *)
Theorem mine_block_result_is_valid m block_data t0 t1 r :
  fst (mine_block m block_data t0 t1) = Some r ->
  hash r = Sha256.hexdigest (block_data ++ str_of_int (nonce r)) /\
  String.length (hash r) = 64%nat /\
  String.prefix (target_hash m) (hash r) = true /\
  current_nonce m <= nonce r <= 999999 /\
  mining_time r = (t1 - t0)%Q /\
  hashrate r = mining_power m.
Proof.
  intro Hr.
  destruct (mine_block_with_searches Sha256.hexdigest m block_data t0 t1)
    as (Hs & _).
  fold (mine_block m block_data t0 t1) in Hs. rewrite Hr in Hs.
  destruct Hs as [(Hk & Hsol & _) Hh].
  split; [exact Hh|]. split; [rewrite Hh; apply hexdigest_length|].
  split; [rewrite Hh; exact Hsol|]. split; [exact Hk|].
  now apply (mine_block_result m block_data t0 t1).
Qed.

Lemma mine_block_result_is_valid_witness :
  exists r, fst (mine_block adjusted_miner "payload" 0 1) = Some r /\
            String.length (hash r) = 64%nat /\ nonce r = 36.
Proof.
  eexists. split; [rewrite mine_payload; reflexivity|].
  split; [|reflexivity].
  apply (mine_block_result_is_valid adjusted_miner "payload" 0 1).
  rewrite mine_payload. reflexivity.
Defined.

Lemma str_repeat_length n : String.length (str_repeat "0" n) = n.
Proof. induction n as [|n IH]; simpl; [reflexivity|now rewrite IH]. Qed.

Lemma adjust_difficulty_fields m t m' :
  adjust_difficulty m t = inr m' ->
  current_nonce m' = current_nonce m /\
  mining_power m' = mining_power m /\
  target_hash m' = str_repeat "0" (Z.to_nat (difficulty m' / 1000000 + 1)).
Proof.
  intro Hm. pose proof (adjust_difficulty_outcome m t) as H.
  destruct (next_difficulty m t) as [e|d]; [congruence|].
  destruct (_ && _); rewrite H in Hm; [|discriminate].
  injection Hm as <-. now repeat split.
Qed.



(** X21.  Over any sequence of [mine_block] and [adjust_difficulty]
    calls the nonce cursor never decreases, and it never passes the
    bound of 1000000 unless it was beyond it already. *)
Theorem cursor_never_decreases ops m :
  current_nonce m <= current_nonce (miner_run m ops)
  <= Z.max (current_nonce m) 1000000.
Proof. apply cursor_bounds. Qed.

(** X22.  A search that found nothing has used the engine up: after it,
    and after any further [mine_block] and [adjust_difficulty] calls,
    every call to [mine_block] returns nothing at once, whatever the
    payload, and leaves the engine as it is. *)
Theorem failed_search_disables_engine m block_data t0 t1 ops data' t2 t3 :
  fst (mine_block m block_data t0 t1) = None ->
  let later := miner_run (snd (mine_block m block_data t0 t1)) ops in
  mine_block later data' t2 t3 = (None, later).
Proof.
  intro Hnone. cbv zeta.
  apply (mine_block_with_after_exhaustion Sha256.hexdigest).
  destruct (mine_block_with_searches Sha256.hexdigest m block_data t0 t1)
    as (_ & Hc & _).
  fold (mine_block m block_data t0 t1) in Hc. rewrite Hnone in Hc.
  pose proof (cursor_bounds ops (snd (mine_block m block_data t0 t1))). lia.
Qed.

Lemma failed_search_disables_engine_witness :
  mine_block (miner_run (snd (mine_block spent_miner "a" 0 1))
                [op_adjust 600; op_mine "b" 1 2]) "c" 2 3
  = (None, miner_run (snd (mine_block spent_miner "a" 0 1))
             [op_adjust 600; op_mine "b" 1 2]).
Proof.
  apply (failed_search_disables_engine spent_miner "a" 0 1
           [op_adjust 600; op_mine "b" 1 2] "c" 2 3).
  vm_compute. reflexivity.
Defined.

(** A digest that starts with [a] zeros starts with any fewer. *)
Lemma zeros_prefix_weaken b : forall a h,
  (b <= a)%nat ->
  String.prefix (str_repeat "0" a) h = true ->
  String.prefix (str_repeat "0" b) h = true.
Proof.
  induction b as [|b IH]; intros a h Hab Hp; [apply prefix_empty|].
  destruct a as [|a]; [lia|].
  cbn [str_repeat append] in *.
  destruct h as [|c h]; cbn [String.prefix] in *; [discriminate|].
  destruct (ascii_dec "0" c); [|discriminate].
  apply (IH a); [lia|exact Hp].
Qed.

(** X23.  On a new engine of difficulty 1 to 1,999,999 a block time
    below 300 does not lower the difficulty, yet makes mining easier:
    the constructor's prefix of four zeros is replaced by one of at most
    three, so every nonce that solved before still solves. *)
Theorem fast_block_shortens_new_prefix d power t :
  1 <= d < 2000000 -> (t < 300)%Q ->
  exists m', adjust_difficulty (MiningSimulator_init d power) t = inr m' /\
    d <= difficulty m' /\
    (1 <= String.length (target_hash m') < 4)%nat /\
    String.length (target_hash (MiningSimulator_init d power)) = 4%nat /\
    forall block_data k,
      solves Sha256.hexdigest block_data
        (target_hash (MiningSimulator_init d power)) k = true ->
      solves Sha256.hexdigest block_data (target_hash m') k = true.
Proof.
  intros Hd Ht.
  destruct (adjust_difficulty_fast (MiningSimulator_init d power) t Ht)
    as (m' & Hm & Hv).
  - cbn. lia.
  - cbn [MiningSimulator_init difficulty].
    apply Z.lt_trans with (m := 2 ^ 23); [lia|reflexivity].
  - cbn [MiningSimulator_init difficulty] in Hv.
    exists m'. split; [exact Hm|].
    assert (Hlo : d <= difficulty m').
    { rewrite Hv. apply Z.div_le_lower_bound; lia. }
    assert (Hhi : difficulty m' < 3000000).
    { rewrite Hv. apply Z.div_lt_upper_bound; lia. }
    destruct (adjust_difficulty_fields _ t m' Hm) as (_ & _ & Htarget).
    assert (Hq : 0 <= difficulty m' / 1000000 <= 2).
    { split; [apply Z.div_pos; lia|].
      assert (difficulty m' / 1000000 < 3)
        by (apply Z.div_lt_upper_bound; lia).
      lia. }
    assert (Hlen : String.length (target_hash m')
                   = Z.to_nat (difficulty m' / 1000000 + 1)).
    { rewrite Htarget. apply str_repeat_length. }
    split; [exact Hlo|]. split; [rewrite Hlen; lia|].
    split; [reflexivity|].
    intros block_data k. unfold solves.
    rewrite Htarget.
    change (target_hash (MiningSimulator_init d power))
      with (str_repeat "0" 4).
    apply zeros_prefix_weaken. lia.
Qed.

Lemma fast_block_shortens_new_prefix_witness :
  exists m', adjust_difficulty (MiningSimulator_init 1000000 50) 1 = inr m' /\
             target_hash m' = "00"%string.
Proof.
  destruct (fast_block_shortens_new_prefix 1000000 50 1) as (m' & Hm & _).
  - lia.
  - reflexivity.
  - exists m'. split; [exact Hm|].
    vm_compute in Hm. injection Hm as <-. reflexivity.
Defined.

(** ** Sessions, from the constructor on *)

Lemma engine_step_connection_ok w o :
  (forall n, connection_ok (w_store w n)) -> op_draws_ok o ->
  forall n, connection_ok (w_store (engine_step w o) n).
Proof.
  intros Hw Ho. destruct o as [id ty px py proto now r|k|k d|r|e];
    cbn [engine_step w_store].
  - apply connection_ok_set; [exact Hw|].
    destruct Ho as [Hc Hu]. split; cbn; [lia|apply Hu].
  - exact Hw.
  - apply connection_ok_set; [exact Hw|].
    apply update_metrics_connection, Hw.
  - unfold simulate_network_activity. cbn [w_store].
    apply events_connection_ok. now apply update_all_connection_ok.
  - now apply apply_event_connection_ok.
Qed.

(** X24.  With the constructor drawing connection counts from 5 to 50
    and uptimes from 95 to 99.9, no session makes a connection count
    negative or an uptime larger than 99.9: not the ticks, not the
    events injected one by one, not the direct [update_metrics] calls. *)
Theorem session_keeps_connections_ok ops : forall w,
  (forall n, connection_ok (w_store w n)) ->
  Forall op_draws_ok ops ->
  forall n, connection_ok (w_store (engine_run w ops) n).
Proof.
  unfold engine_run.
  induction ops as [|o ops IH]; intros w Hw Hops; cbn [fold_left];
    [exact Hw|].
  apply Forall_cons_iff in Hops as [Ho Hops].
  apply IH; [|exact Hops]. now apply engine_step_connection_ok.
Qed.

Lemma session_keeps_connections_ok_witness :
  connection_ok (w_store (engine_run world_init lone_ops) 0%nat).
Proof.
  apply (session_keeps_connections_ok lone_ops world_init).
  - intro n. split; cbn; [lia|discriminate].
  - repeat constructor; cbn; try lia; discriminate.
Defined.

Lemma choice_in {A} (d : A) l k : l <> [] -> In (choice d l k) l.
Proof.
  intro Hl. unfold choice. apply nth_In.
  apply Nat.mod_upper_bound. now destruct l.
Qed.

Lemma init_version_of_protocol id ty px py proto now r :
  version_of_protocol (AdvancedBlockchainNode_init id ty px py proto now r).
Proof.
  unfold version_of_protocol. cbn [version protocol AdvancedBlockchainNode_init].
  apply choice_in. now destruct proto.
Qed.

Lemma update_metrics_version n d :
  version_of_protocol n -> version_of_protocol (update_metrics n d).
Proof.
  unfold version_of_protocol, update_metrics.
  now destruct (Qltb (d_block d) 0.1).
Qed.

Lemma engine_step_version w o :
  (forall n, version_of_protocol (w_store w n)) ->
  forall n, version_of_protocol (w_store (engine_step w o) n).
Proof.
  intros Hw n.
  assert (Hrel : forall h',
            related (fun a b => version_of_protocol a -> version_of_protocol b)
              (w_store w) h' -> version_of_protocol (h' n)).
  { intros h' H. apply H, Hw. }
  destruct o as [id ty px py proto now r|k|k d|r|e]; cbn [engine_step w_store].
  - unfold store_set. destruct (Nat.eqb n (w_next w)); [|apply Hw].
    apply init_version_of_protocol.
  - apply Hw.
  - apply Hrel, related_set; [auto|]. apply update_metrics_version.
  - pose proof (tick_related
                  (fun a b => version_of_protocol a -> version_of_protocol b))
      as H.
    specialize (H (fun _ H => H) (fun _ _ _ H1 H2 H => H2 (H1 H))
                  update_metrics_version (fun _ _ H => H) (fun _ _ H => H)
                  (fun _ _ H => H) (w_store w) (w_sim w) r).
    destruct (simulate_network_activity (w_store w) (w_sim w) r) as [h s].
    apply Hrel, H.
  - apply Hrel, apply_event_related; auto using update_metrics_version.
Qed.

(** X25.  Every node of a session carries a version that is one of the
    three listed for its protocol, whatever index the constructor drew
    and whatever happened to the node since. *)
Theorem node_version_matches_protocol ops n :
  (n < w_next (engine_run world_init ops))%nat ->
  version_of_protocol (w_store (engine_run world_init ops) n).
Proof.
  intros _. revert n.
  assert (H : forall w, (forall n, version_of_protocol (w_store w n)) ->
                        forall n, version_of_protocol
                                    (w_store (engine_run w ops) n)).
  { unfold engine_run. induction ops as [|o ops IH]; intros w Hw;
      cbn [fold_left]; [exact Hw|].
    apply IH. now apply engine_step_version. }
  apply H. intro n. apply init_version_of_protocol.
Qed.

Lemma node_version_matches_protocol_witness :
  version_of_protocol (w_store (engine_run world_init lone_ops) 0%nat).
Proof.
  apply (node_version_matches_protocol lone_ops 0%nat).
  vm_compute. lia.
Defined.
